(** * The notification delivery pipeline of the AI news notifier

    A shallow embedding of the JavaScript sources: the message packer and
    formatter (src/utils/MessageFormatter.js), the retry executor
    (src/utils/RetryHandler.js), the article model (src/models/Article.js),
    the deduplication cache (src/services/CacheService.js,
    src/services/DeduplicationService.js), the webhook sender
    (src/services/DiscordNotifier.js), the list operations of the fetchers
    (src/parsers/ArticleNormalizer.js, src/parsers/RSSParser.js) and the use
    [main] makes of the cache (src/index.js), followed by the properties of
    the specification that concern them and by further properties of the
    code. *)

From Stdlib Require Import ZArith List Lia Bool String Ascii DecimalString.
From Stdlib Require Import QArith Qround Qminmax Qpower Lqa.
From stdpp Require Import gmap.
Import ListNotations.

(** ** JavaScript strings

    A JavaScript string is a sequence of UTF-16 code units; [length], [slice],
    [trim], [lastIndexOf] all count code units. *)

Module JS.

Abbreviation jsstring := (list N).

(** An ASCII literal of the source. *)
Definition lit (s : string) : jsstring :=
  map N_of_ascii (list_ascii_of_string s).

Definition LF : N := 10%N.
Definition SP : N := 32%N.
(** The separator ['\n\n'] of the packer. *)
Definition NLNL : jsstring := [LF; LF].

(** [WhiteSpace] and [LineTerminator] of ECMAScript: what [trim] strips and
    what [\s] matches. *)
Definition isWhiteSpace (c : N) : bool :=
  ((0x09 <=? c) && (c <=? 0x0D) || (c =? 0x20) || (c =? 0xA0) || (c =? 0x1680)
   || (0x2000 <=? c) && (c <=? 0x200A) || (c =? 0x2028) || (c =? 0x2029)
   || (c =? 0x202F) || (c =? 0x205F) || (c =? 0x3000) || (c =? 0xFEFF))%N.

Fixpoint trimStart (s : jsstring) : jsstring :=
  match s with
  | c :: s' => if isWhiteSpace c then trimStart s' else s
  | [] => []
  end.

Definition trimEnd (s : jsstring) : jsstring := rev (trimStart (rev s)).

Definition trim (s : jsstring) : jsstring := trimEnd (trimStart s).

(** [String.prototype.slice]: a negative index counts from the end, and both
    indices are clamped to the string. *)
Definition clampIndex (len : nat) (i : Z) : nat :=
  if (i <? 0)%Z then Z.to_nat (Z.max (Z.of_nat len + i) 0)
  else Z.to_nat (Z.min i (Z.of_nat len)).

Definition slice (s : jsstring) (first last : Z) : jsstring :=
  let from := clampIndex (length s) first in
  let to := clampIndex (length s) last in
  firstn (to - from) (skipn from s).

(** [s.slice(first)]. *)
Definition sliceFrom (s : jsstring) (first : Z) : jsstring :=
  skipn (clampIndex (length s) first) s.

Fixpoint startsWith (s pat : jsstring) : bool :=
  match pat, s with
  | [], _ => true
  | p :: pat', c :: s' => (p =? c)%N && startsWith s' pat'
  | _ :: _, [] => false
  end.

Definition endsWith (s pat : jsstring) : bool := startsWith (rev s) (rev pat).

(** [s.lastIndexOf(pat)]: the greatest position at which [pat] occurs, [-1]
    when there is none.  The scan runs left to right and keeps the latest
    match in [found]. *)
Fixpoint lastIndexOf_scan (s pat : jsstring) (i found : Z) : Z :=
  match s with
  | [] => if startsWith [] pat then i else found
  | _ :: s' =>
      lastIndexOf_scan s' pat (i + 1) (if startsWith s pat then i else found)
  end.

Definition lastIndexOf (s pat : jsstring) : Z := lastIndexOf_scan s pat 0 (-1).

(** A [Date] object: a time value in milliseconds since the epoch, or an
    invalid date (time value [NaN]).  An ISO-8601 text, as [toISOString]
    writes it and [new Date] reads it back, stands for its time value. *)
Inductive jsDate :=
| ValidDate (ms : Z)
| InvalidDate.

(** A number in a template literal: the decimal digits of an integer. *)
Definition decimal (n : Z) : jsstring :=
  lit (NilZero.string_of_int (Z.to_int n)).

(** What the code throws or lets through. *)
Inductive error :=
| TypeError
| RangeError
| SystemError
| Error (message : jsstring).

(** A parsed [URL] object as far as the code reads it: host name, path, the
    name/value pairs of [searchParams], and the rest (scheme, credentials,
    port, fragment). *)
Record URL {Rest : Type} := {
  hostname : jsstring;
  pathname : jsstring;
  searchParams : list (jsstring * jsstring);
  other : Rest
}.
Arguments URL : clear implicits.

(** The names of the properties that every plain object inherits from
    [Object.prototype].  For such a name [object[key]] and [key in object]
    find the inherited property when the object has no own one, and an
    assignment to [object['__proto__']] sets no own property. *)
Definition objectPrototypeNames : list jsstring :=
  map lit
    ["constructor"; "__defineGetter__"; "__defineSetter__"; "hasOwnProperty";
     "__lookupGetter__"; "__lookupSetter__"; "isPrototypeOf";
     "propertyIsEnumerable"; "toString"; "valueOf"; "__proto__";
     "toLocaleString"]%string.

Definition inherited (key : jsstring) : bool :=
  bool_decide (key ∈ objectPrototypeNames).

(** [lines.join(separator)]. *)
Fixpoint join (separator : jsstring) (lines : list jsstring) : jsstring :=
  match lines with
  | [] => []
  | [line] => line
  | line :: rest => line ++ separator ++ join separator rest
  end.

End JS.

(** ** Binary64 arithmetic

    [text.length * 0.7] is a binary64 product.  The constants 0.7, 0.8 and 0.9
    are the doubles [m * 2^-53] for the 53-bit significands below; the exact
    product of a length [n] with one of them is [n * m * 2^-53], rounded to 53
    significant bits, ties to even.  A non-negative double [v] is carried as
    the integer [v * 2^53].

    The retry delays multiply and add doubles that are no such products:
    there a double is carried as the rational it denotes, and a sum or a
    product is the exact one rounded by [nearest], to 53 significant bits,
    ties to even, with the fixed spacing [2^-1074] of the subnormal numbers
    below [2^-1022].  Infinities and NaN have no rational: [nearest] is the
    double the platform computes short of overflow. *)

Module Binary64.

Definition c0_7 : Z := 0x16666666666666.
Definition c0_8 : Z := 0x1999999999999A.
Definition c0_9 : Z := 0x1CCCCCCCCCCCCD.

Definition round53 (x : Z) : Z :=
  let s := (Z.log2 x - 52)%Z in
  if (s <=? 0)%Z then x
  else
    let q := Z.shiftr x s in
    let r := Z.land x (Z.ones s) in
    let half := Z.shiftl 1 (s - 1) in
    let q' := if (half <? r)%Z || ((half =? r)%Z && Z.odd q)
              then (q + 1)%Z else q in
    Z.shiftl q' s.

(** [n * c] for a length [n] and a constant of significand [c]. *)
Definition mul (n : nat) (c : Z) : Z := round53 (Z.of_nat n * c).

(** [a > v] for an integer [a]. *)
Definition int_gt (a v : Z) : bool := (v <? a * 2 ^ 53)%Z.

(** [Math.floor(v)]. *)
Definition floor (v : Z) : Z := (v / 2 ^ 53)%Z.

(** The binary exponent of a positive rational: the [e] with
    [2^e <= q < 2^(e+1)]. *)
Definition exponent (q : Q) : Z :=
  let e := (Z.log2 (Qnum q) - Z.log2 (Z.pos (Qden q)))%Z in
  if Qle_bool (2 ^ e) q then e else (e - 1)%Z.

(** The nearest integer, the even one of two that are equally near. *)
Definition roundHalfEven (q : Q) : Z :=
  let f := Qfloor q in
  match (q - inject_Z f ?= 1 # 2)%Q with
  | Lt => f
  | Gt => (f + 1)%Z
  | Eq => if Z.even f then f else (f + 1)%Z
  end.

(** The double nearest to a positive rational: a multiple of the unit in
    the last place, [2^(e-52)] for the exponent [e] of the rational and
    [2^-1074] for the subnormal numbers. *)
Definition nearestPositive (q : Q) : Q :=
  let e := Z.max (exponent q) (-1022) in
  (inject_Z (roundHalfEven (q * 2 ^ (52 - e))) * 2 ^ (e - 52))%Q.

(** The double nearest to a rational. *)
Definition nearest (q : Q) : Q :=
  match Qnum q with
  | Z0 => 0%Q
  | Zpos _ => nearestPositive q
  | Zneg _ => (- nearestPositive (- q))%Q
  end.

End Binary64.

(** ** config/constants.js *)

Module Constants.

Definition DISCORD_CONFIG_maxLength : nat := 2000.
Definition DISCORD_CONFIG_maxRetries : Z := 3.
Definition DISCORD_CONFIG_retryDelay : Q := 1000.
Definition RETRY_CONFIG_maxRetries : Z := 3.
Definition RETRY_CONFIG_baseDelay : Q := 1000.
Definition RETRY_CONFIG_maxDelay : Q := 10000.
Definition RETRY_CONFIG_jitter : bool := true.
Definition CACHE_CONFIG_retentionDays : Z := 30.
Definition CACHE_CONFIG_version : JS.jsstring := JS.lit "1.0".

End Constants.

(** ** src/utils/MessageFormatter.js *)

Module MessageFormatter.
Import JS.

(** [_findSplitPoint(text)]. *)
Definition _findSplitPoint (text : jsstring) : Z :=
  let articleBoundary := lastIndexOf text NLNL in
  if Binary64.int_gt articleBoundary (Binary64.mul (length text) Binary64.c0_7)
  then (articleBoundary + 2)%Z
  else
    let newline := lastIndexOf text [LF] in
    if Binary64.int_gt newline (Binary64.mul (length text) Binary64.c0_8)
    then (newline + 1)%Z
    else Binary64.floor (Binary64.mul (length text) Binary64.c0_9).

(** The [while (currentChunk.length > maxLength)] loop of [_splitIntoChunks].
    It need not end (see [hardSplit_diverges]), so it runs on fuel: [None] is
    a loop still running when the fuel is spent. *)
Fixpoint hardSplit (fuel maxLength : nat) (header : jsstring)
    (chunks : list jsstring) (currentChunk : jsstring)
    : option (list jsstring * jsstring) :=
  if maxLength <? length currentChunk then
    match fuel with
    | O => None
    | S fuel' =>
        let splitPoint :=
          _findSplitPoint (slice currentChunk 0 (Z.of_nat maxLength)) in
        hardSplit fuel' maxLength header
          (chunks ++ [slice currentChunk 0 splitPoint])
          (header ++ NLNL ++ trim (sliceFrom currentChunk splitPoint) ++ NLNL)
    end
  else Some (chunks, currentChunk).

(** The [for (const section of sections)] loop. *)
Fixpoint packSections (fuel maxLength : nat) (header : jsstring)
    (sections : list jsstring) (chunks : list jsstring)
    (currentChunk : jsstring) : option (list jsstring * jsstring) :=
  match sections with
  | [] => Some (chunks, currentChunk)
  | section :: rest =>
      let testChunk := currentChunk ++ section ++ NLNL in
      if maxLength <? length testChunk then
        let chunks :=
          if length header + 2 <? length currentChunk
          then chunks ++ [currentChunk] else chunks in
        match hardSplit fuel maxLength header chunks
                (header ++ NLNL ++ section ++ NLNL) with
        | None => None
        | Some (chunks, currentChunk) =>
            packSections fuel maxLength header rest chunks currentChunk
        end
      else packSections fuel maxLength header rest chunks testChunk
  end.

(** [_splitIntoChunks(header, sections, footer)], with
    [DISCORD_CONFIG.maxLength] as the parameter [maxLength]. *)
Definition _splitIntoChunks (fuel maxLength : nat)
    (header : jsstring) (sections : list jsstring) (footer : jsstring)
    : option (list jsstring) :=
  match packSections fuel maxLength header sections [] (header ++ NLNL) with
  | None => None
  | Some (chunks, currentChunk) =>
      let testWithFooter := currentChunk ++ footer in
      let chunks :=
        if maxLength <? length testWithFooter then
          (if length header + 2 <? length currentChunk
           then chunks ++ [currentChunk] else chunks)
          ++ [header ++ NLNL ++ footer]
        else if length header + 2 <? length testWithFooter
             then chunks ++ [testWithFooter] else chunks in
      Some (match chunks with [] => [header ++ NLNL ++ footer] | _ => chunks end)
  end.

(** The least split point [_findSplitPoint] can return on a text of
    [maxLength] code units: the hard cut, or the first position past each
    threshold. *)
Definition minSplitPoint (maxLength : nat) : Z :=
  Z.min (Binary64.floor (Binary64.mul maxLength Binary64.c0_9))
    (Z.min (Binary64.floor (Binary64.mul maxLength Binary64.c0_7) + 3)
           (Binary64.floor (Binary64.mul maxLength Binary64.c0_8) + 2)).

End MessageFormatter.

(** ** src/utils/RetryHandler.js *)

Module RetryHandler.

(** The handler's fields.  [maxRetries] is an integer, as in [RETRY_CONFIG]
    and [DISCORD_CONFIG].  Delays are in milliseconds; a number that need
    not be an integer is the rational its double denotes. *)
Record t := {
  maxRetries : Z;
  baseDelay : Q;
  maxDelay : Q;
  jitter : bool
}.

(** The [config] argument of the constructor: an absent field falls back on
    [RETRY_CONFIG]. *)
Record options := {
  opt_maxRetries : option Z;
  opt_baseDelay : option Q;
  opt_maxDelay : option Q;
  opt_jitter : option bool
}.

Definition constructor (config : options) : t :=
  {| maxRetries := default Constants.RETRY_CONFIG_maxRetries (opt_maxRetries config);
     baseDelay := default Constants.RETRY_CONFIG_baseDelay (opt_baseDelay config);
     maxDelay := default Constants.RETRY_CONFIG_maxDelay (opt_maxDelay config);
     jitter := default Constants.RETRY_CONFIG_jitter (opt_jitter config) |}.

(** [_calculateDelay(attempt)]; [random] is the value [Math.random()] returns
    when the jitter is on.  [Math.pow(2, attempt)] is a power of two, so the
    product with [baseDelay] is exact short of overflow; the sum
    [0.5 + Math.random()] and the product of the delay with it are rounded to
    the nearest double. *)
Definition _calculateDelay (self : t) (attempt : Z) (random : Q) : Z :=
  let exponentialDelay := (baseDelay self * 2 ^ attempt)%Q in
  let delay := Qmin exponentialDelay (maxDelay self) in
  let delay :=
    if jitter self
    then Binary64.nearest (delay * Binary64.nearest ((1 # 2) + random))
    else delay in
  Qfloor delay.

Section Execute.
(** The world the operation acts on, the errors it throws and the results it
    returns. *)
Context {W E R : Type}.

(** What [execute] does that can be observed: a call of the operation, with
    how it ended, and a sleep. *)
Inductive event :=
| Invoke (outcome : E + R)
| Sleep (ms : Z).

(** How [execute] ends: it returns the operation's result, or throws; the
    [lastError] thrown after the loop is [undefined] ([None]) when no attempt
    was made. *)
Inductive completion :=
| Returned (r : R)
| Threw (e : option E).

(** The wrapped operation [fn] and the successive values of
    [Math.random()]. *)
Variable fn : W -> W * (E + R).
Variable random : nat -> Q.

(** The [for] loop of [execute], from [attempt] on: [n] counts the values of
    [attempt] for which [attempt <= this.maxRetries] still holds, [draws] the
    random numbers drawn so far. *)
Fixpoint attempts (self : t) (n : nat) (attempt : Z) (lastError : option E)
    (draws : nat) (w : W) : completion * W * list event :=
  match n with
  | O => (Threw lastError, w, [])
  | S n' =>
      match fn w with
      | (w', inr r) => (Returned r, w', [Invoke (inr r)])
      | (w', inl error) =>
          if (attempt =? maxRetries self)%Z
          then (Threw (Some error), w', [Invoke (inl error)])
          else
            let delay := _calculateDelay self attempt (random draws) in
            let draws' := if jitter self then S draws else draws in
            let '(c, w'', trace) :=
              attempts self n' (attempt + 1) (Some error) draws' w' in
            (c, w'', Invoke (inl error) :: Sleep delay :: trace)
      end
  end.

(** [execute(fn)]. *)
Definition execute (self : t) (w : W) : completion * W * list event :=
  attempts self (Z.to_nat (maxRetries self + 1)) 0 None 0 w.

(** The outcomes of the calls of a trace, and its sleeps, in order. *)
Fixpoint invocations (trace : list event) : list (E + R) :=
  match trace with
  | [] => []
  | Invoke o :: trace' => o :: invocations trace'
  | Sleep _ :: trace' => invocations trace'
  end.

Fixpoint delays (trace : list event) : list Z :=
  match trace with
  | [] => []
  | Invoke _ :: trace' => delays trace'
  | Sleep ms :: trace' => ms :: delays trace'
  end.

End Execute.

Arguments event : clear implicits.
Arguments completion : clear implicits.

End RetryHandler.

(** ** src/models/Article.js *)

Module Article.
Import JS.

(** The argument of the constructor.  An absent, [null] or otherwise falsy
    field is [None]; the empty string, falsy too, is [Some []].
    [in_publishedAt] is the [Date] that [new Date(publishedAt)] builds. *)
Record input := {
  in_title : option jsstring;
  in_url : option jsstring;
  in_source : jsstring;
  in_publishedAt : option jsDate;
  in_author : option jsstring;
  in_summary : option jsstring;
  in_tags : option (list jsstring)
}.

Record t := {
  title : jsstring;
  url : jsstring;
  source : jsstring;
  publishedAt : option jsDate;
  author : option jsstring;
  summary : option jsstring;
  tags : list jsstring;
  id : jsstring;
  aiSummary : option jsstring;
  translatedTitle : option jsstring
}.

Definition utmParams : list jsstring :=
  [lit "utm_source"; lit "utm_medium"; lit "utm_campaign"; lit "utm_term";
   lit "utm_content"].

(** [urlObj.searchParams.delete(param)]: every pair of that name goes, and the
    query of the URL is the list that remains. *)
Definition searchParams_delete {Rest : Type} (urlObj : URL Rest)
    (param : jsstring) : URL Rest :=
  {| hostname := hostname urlObj;
     pathname := pathname urlObj;
     searchParams :=
       List.filter (fun p => negb (bool_decide (fst p = param)))
         (searchParams urlObj);
     other := other urlObj |}.

(** [text.replace(/\s+/g, ' ')]. *)
Fixpoint collapseWhiteSpace (text : jsstring) (inRun : bool) : jsstring :=
  match text with
  | [] => []
  | c :: text' =>
      if isWhiteSpace c
      then (if inRun then collapseWhiteSpace text' true
            else SP :: collapseWhiteSpace text' true)
      else c :: collapseWhiteSpace text' false
  end.

Definition _sanitize (text : option jsstring) : jsstring :=
  match text with
  | None | Some [] => []
  | Some text => collapseWhiteSpace (trim text) false
  end.

Definition _truncate (text : jsstring) (maxLength : nat) : jsstring :=
  match text with
  | [] => []
  | _ =>
      if length text <=? maxLength then text
      else slice text 0 (Z.of_nat maxLength - 3) ++ lit "..."
  end.

Section Platform.
(** [crypto.createHash('sha256').update(data).digest('hex')], and the [URL]
    class: [URL_parse s] is [new URL(s)], [None] when the constructor throws;
    [URL_toString] is [urlObj.toString()]. *)
Variable sha256hex : jsstring -> jsstring.
Context {Rest : Type}.
Variable URL_parse : jsstring -> option (URL Rest).
Variable URL_toString : URL Rest -> jsstring.

Definition _normalizeUrl (url : option jsstring) : jsstring :=
  match url with
  | None | Some [] => []
  | Some url =>
      let normalized := trim url in
      let normalized :=
        if endsWith normalized (lit "/") then slice normalized 0 (-1)
        else normalized in
      match URL_parse normalized with
      | Some urlObj =>
          URL_toString (fold_left searchParams_delete utmParams urlObj)
      | None => normalized
      end
  end.

(** [_generateId()], on the fields [source] and [url] it reads. *)
Definition _generateId (source url : jsstring) : jsstring :=
  sha256hex (source ++ lit ":" ++ url).

Definition constructor (i : input) : t :=
  let url := _normalizeUrl (in_url i) in
  {| title := _sanitize (in_title i);
     url := url;
     source := in_source i;
     publishedAt := in_publishedAt i;
     author := in_author i;
     summary :=
       match in_summary i with
       | None | Some [] => None
       | Some summary => Some (_truncate summary 200)
       end;
     tags := default [] (in_tags i);
     id := _generateId (in_source i) url;
     aiSummary := None;
     translatedTitle := None |}.

End Platform.

Definition getHash (self : t) : jsstring := id self.

(** [getDisplayTitle()]: the translated title unless it is absent or
    empty. *)
Definition getDisplayTitle (self : t) : jsstring :=
  match translatedTitle self with
  | None | Some [] => title self
  | Some translated => translated
  end.

(** The emoji of [toDiscordFormat]: U+1F4AC and U+1F517, two code units
    each. *)
Definition speechBalloon : jsstring := [0xD83D; 0xDCAC]%N.
Definition linkSymbol : jsstring := [0xD83D; 0xDD17]%N.

(** [toDiscordFormat()]. *)
Definition toDiscordFormat (self : t) : jsstring :=
  let displayTitle := getDisplayTitle self in
  let title := _truncate displayTitle 100 in
  let lines := [lit "1. " ++ title] in
  let lines :=
    match aiSummary self with
    | None | Some [] => lines
    | Some aiSummary => lines ++ [speechBalloon ++ lit " " ++ aiSummary]
    end in
  let lines := lines ++ [linkSymbol ++ lit " <" ++ url self ++ lit ">"] in
  join [LF] lines.

(** [isWithinLastHours(hours)] when the clock shows [now]: a comparison with
    an invalid date is false. *)
Definition isWithinLastHours (self : t) (now hours : Z) : bool :=
  match publishedAt self with
  | None => true
  | Some (ValidDate ms) => (now - hours * 60 * 60 * 1000 <=? ms)%Z
  | Some InvalidDate => false
  end.

End Article.

(** ** src/services/CacheService.js *)

Module CacheService.
Import JS.

(** The cache object.  A field the stored JSON lacks is [None]. *)
Record cache := {
  version : option jsstring;
  lastUpdated : jsDate;
  articles : option (gmap jsstring (gmap jsstring jsDate))
}.

(** What [fs.readFile] and [JSON.parse] make of the cache file. *)
Inductive file :=
| NoFile        (* readFile rejects with ENOENT *)
| Unreadable    (* readFile rejects with another error *)
| Malformed     (* JSON.parse throws *)
| JsonNull      (* the text null: reading .version throws *)
| Json (c : cache).

(** The service object and what it acts on: the file, whether [fs.mkdir]
    rejects (nothing is then written, and [save] throws before it touches the
    cache), and the clock. *)
Record state := {
  _cache : option cache;
  disk : file;
  diskFails : bool;
  now : Z
}.

Inductive result (A : Type) :=
| Returns (a : A) (s : state)
| Throws (e : error) (s : state).
Arguments Returns {A} a s.
Arguments Throws {A} e s.

Definition with_cache (s : state) (c : cache) : state :=
  {| _cache := Some c; disk := disk s; diskFails := diskFails s; now := now s |}.

Definition _createEmptyCache (s : state) : cache :=
  {| version := Some Constants.CACHE_CONFIG_version;
     lastUpdated := ValidDate (now s);
     articles := Some (<[lit "hackernews" := ∅]>
                        (<[lit "qiita" := ∅]> (<[lit "zenn" := ∅]> ∅))) |}.

Definition save (s : state) : result unit :=
  if diskFails s then Throws SystemError s
  else
    match _cache s with
    | None => Throws TypeError s
    | Some c =>
        let c := {| version := version c; lastUpdated := ValidDate (now s);
                    articles := articles c |} in
        Returns tt {| _cache := Some c; disk := Json c;
                      diskFails := diskFails s; now := now s |}
    end.

Definition load (s : state) : result (option cache) :=
  match disk s with
  | Json c =>
      let c :=
        if bool_decide (version c = Some Constants.CACHE_CONFIG_version)
        then c else _createEmptyCache s in
      Returns (Some c) (with_cache s c)
  | NoFile | Unreadable | Malformed | JsonNull =>
      match save (with_cache s (_createEmptyCache s)) with
      | Returns _ s => Returns (_cache s) s
      | Throws e s => Throws e s
      end
  end.

Definition getCache (s : state) : option cache := _cache s.

(** [has(hash)].  [hash in source] is read as a lookup among the own entries
    of [source]: that is what the code computes for a [hash] that names no
    inherited property ([inherited hash = false]), as is every string of 64
    hexadecimal digits, on an [Object.prototype] as the platform defines
    it. *)
Definition has (s : state) (hash : jsstring) : bool :=
  match _cache s with
  | Some c =>
      match articles c with
      | Some partitions =>
          bool_decide
            (map_Exists (fun _ (entries : gmap jsstring jsDate) =>
                           is_Some (entries !! hash)) partitions)
      | None => false
      end
  | None => false
  end.

(** [add(source, hash, timestamp)].  [this._cache.articles[source]] is read
    as a lookup among the own partitions, and the two assignments as
    insertions of own properties: that is what the code does when neither
    [source] nor [hash] names an inherited property ([inherited]), as with
    the feed keys and the hashes of the articles.  For a [source] such as
    ['constructor'] the code finds the inherited property, creates no
    partition and writes the hash on the inherited object: the properties
    about [add] assume [inherited source = false]. *)
Definition add (s : state) (source hash : jsstring) (timestamp : option jsDate)
    : result unit :=
  match _cache s with
  | Some c =>
      match articles c with
      | Some partitions =>
          let entries := default ∅ (partitions !! source) in
          let stamp := default (ValidDate (now s)) timestamp in
          Returns tt
            (with_cache s
               {| version := version c; lastUpdated := lastUpdated c;
                  articles :=
                    Some (<[source := <[hash := stamp]> entries]> partitions) |})
      | None => Throws TypeError s
      end
  | None => Throws TypeError s
  end.

(** [entryDate < cutoffDate]: never true of an invalid date. *)
Definition olderThan (cutoff : Z) (timestamp : jsDate) : bool :=
  match timestamp with
  | ValidDate ms => (ms <? cutoff)%Z
  | InvalidDate => false
  end.

(** [cleanup()].  [setDate] moves the local calendar date back by
    [retentionDays] days: where the local time has no clock change in
    between, as in the UTC of the runner, the cutoff is the clock set back by
    [retentionDays] days of 24 hours. *)
Definition cleanup (s : state) : result unit :=
  match _cache s with
  | Some c =>
      match articles c with
      | Some partitions =>
          let cutoff :=
            (now s - Constants.CACHE_CONFIG_retentionDays * 86400000)%Z in
          let removedCount :=
            map_fold (fun _ (entries : gmap jsstring jsDate) count =>
                        count + size (filter (fun e => olderThan cutoff (snd e) = true)
                                        entries))
              0 partitions in
          let kept :=
            (fun entries : gmap jsstring jsDate =>
               filter (fun e => olderThan cutoff (snd e) = false) entries)
            <$> partitions in
          let s := with_cache s {| version := version c;
                                   lastUpdated := lastUpdated c;
                                   articles := Some kept |} in
          if 0 <? removedCount then save s else Returns tt s
      | None => Returns tt s
      end
  | None => Returns tt s
  end.

(** [_getTotalEntries()]. *)
Definition _getTotalEntries (s : state) : nat :=
  match _cache s with
  | Some c =>
      match articles c with
      | Some partitions =>
          map_fold (fun _ (source : gmap jsstring jsDate) total =>
                      total + size source) 0 partitions
      | None => 0
      end
  | None => 0
  end.

End CacheService.

(** ** src/services/DeduplicationService.js *)

Module DeduplicationService.
Import JS.

(** The service and the cache service singleton it holds. *)
Record state := {
  _loaded : bool;
  cacheService : CacheService.state
}.

Inductive result (A : Type) :=
| Returns (a : A) (s : state)
| Throws (e : error) (s : state).
Arguments Returns {A} a s.
Arguments Throws {A} e s.

Definition initialize (s : state) : result unit :=
  if _loaded s then Returns tt s
  else
    match CacheService.load (cacheService s) with
    | CacheService.Returns _ cs =>
        Returns tt {| _loaded := true; cacheService := cs |}
    | CacheService.Throws e cs =>
        Throws e {| _loaded := false; cacheService := cs |}
    end.

(** The [for (const article of articles)] loop of [filterNew].
    [publishedAt?.toISOString()] throws a [RangeError] on an invalid date,
    after the article was pushed and before [add] is called. *)
Fixpoint filterLoop (articles newArticles : list Article.t)
    (cs : CacheService.state) : CacheService.result (list Article.t) :=
  match articles with
  | [] => CacheService.Returns newArticles cs
  | article :: rest =>
      let hash := Article.getHash article in
      if CacheService.has cs hash then filterLoop rest newArticles cs
      else
        let newArticles := newArticles ++ [article] in
        match Article.publishedAt article with
        | Some InvalidDate => CacheService.Throws RangeError cs
        | timestamp =>
            match CacheService.add cs (Article.source article) hash timestamp with
            | CacheService.Returns _ cs => filterLoop rest newArticles cs
            | CacheService.Throws e cs => CacheService.Throws e cs
            end
        end
  end.

Definition filterNew (s : state) (articles : list Article.t)
    : result (list Article.t) :=
  match initialize s with
  | Throws e s => Throws e s
  | Returns _ s =>
      match filterLoop articles [] (cacheService s) with
      | CacheService.Returns newArticles cs =>
          Returns newArticles {| _loaded := _loaded s; cacheService := cs |}
      | CacheService.Throws e cs =>
          Throws e {| _loaded := _loaded s; cacheService := cs |}
      end
  end.

Definition save (s : state) : result unit :=
  match CacheService.save (cacheService s) with
  | CacheService.Returns _ cs =>
      Returns tt {| _loaded := _loaded s; cacheService := cs |}
  | CacheService.Throws e cs =>
      Throws e {| _loaded := _loaded s; cacheService := cs |}
  end.

Definition cleanup (s : state) : result unit :=
  match CacheService.cleanup (cacheService s) with
  | CacheService.Returns _ cs =>
      Returns tt {| _loaded := _loaded s; cacheService := cs |}
  | CacheService.Throws e cs =>
      Throws e {| _loaded := _loaded s; cacheService := cs |}
  end.

(** [getStats()]: reading [cache.articles] of a cache that is not loaded, or
    the entries of a missing [articles], throws. *)
Record stats := {
  total : nat;
  bySource : gmap jsstring nat
}.

Definition getStats (s : state) : error + stats :=
  match CacheService.getCache (cacheService s) with
  | Some cache =>
      match CacheService.articles cache with
      | Some partitions =>
          inr {| total :=
                   map_fold (fun _ (entries : gmap jsstring jsDate) total =>
                               total + size entries) 0 partitions;
                 bySource := size <$> partitions |}
      | None => inl TypeError
      end
  | None => inl TypeError
  end.

End DeduplicationService.

(** ** src/index.js: what [main] does with the deduplication service *)

Module Main.
Import JS.

(** The loop over the sources: [filterNew] on each non-empty list.  The lists
    collected are those [filterNew] returns, before [main] cuts each to
    [maxArticlesPerSection]. *)
Fixpoint filterSources (sources : list (list Article.t))
    (s : DeduplicationService.state)
    : DeduplicationService.result (list (list Article.t)) :=
  match sources with
  | [] => DeduplicationService.Returns [] s
  | articles :: rest =>
      match articles with
      | [] => filterSources rest s
      | _ =>
          match DeduplicationService.filterNew s articles with
          | DeduplicationService.Throws e s => DeduplicationService.Throws e s
          | DeduplicationService.Returns newArticles s =>
              match filterSources rest s with
              | DeduplicationService.Throws e s =>
                  DeduplicationService.Throws e s
              | DeduplicationService.Returns others s =>
                  DeduplicationService.Returns (newArticles :: others) s
              end
          end
      end
  end.

(** One run of the process on the cache file [disk] at time [now]: the
    services start empty, the sources are filtered, the cache is saved and
    then cleaned up. *)
Definition dedupe (disk : CacheService.file) (now : Z)
    (sources : list (list Article.t))
    : DeduplicationService.result (list (list Article.t)) :=
  let s := {| DeduplicationService._loaded := false;
              DeduplicationService.cacheService :=
                {| CacheService._cache := None; CacheService.disk := disk;
                   CacheService.diskFails := false;
                   CacheService.now := now |} |} in
  match filterSources sources s with
  | DeduplicationService.Throws e s => DeduplicationService.Throws e s
  | DeduplicationService.Returns newArticles s =>
      match DeduplicationService.save s with
      | DeduplicationService.Throws e s => DeduplicationService.Throws e s
      | DeduplicationService.Returns _ s =>
          match DeduplicationService.cleanup s with
          | DeduplicationService.Throws e s => DeduplicationService.Throws e s
          | DeduplicationService.Returns _ s =>
              DeduplicationService.Returns newArticles s
          end
      end
  end.

End Main.

(** ** src/services/DiscordNotifier.js *)

Module DiscordNotifier.
Import JS.

Record t := {
  webhookUrl : option jsstring;
  retryHandler : RetryHandler.t
}.

Definition constructor (webhookUrl : option jsstring) : t :=
  {| webhookUrl := webhookUrl;
     retryHandler :=
       RetryHandler.constructor
         {| RetryHandler.opt_maxRetries := Some Constants.DISCORD_CONFIG_maxRetries;
            RetryHandler.opt_baseDelay := Some Constants.DISCORD_CONFIG_retryDelay;
            RetryHandler.opt_maxDelay := None;
            RetryHandler.opt_jitter := None |} |}.

(** [isValidWebhookUrl(url)]. *)
Definition isValidWebhookUrl {Rest : Type}
    (URL_parse : jsstring -> option (URL Rest)) (url : option jsstring) : bool :=
  match url with
  | None | Some [] => false
  | Some url =>
      match URL_parse url with
      | Some parsed =>
          bool_decide (hostname parsed = lit "discord.com")
          && startsWith (pathname parsed) (lit "/api/webhooks/")
      | None => false
      end
  end.

Section Transport.
(** The network as the transport sees it: [axios_post w url content] is
    [axios.post(url, { content }, ...)], which rejects with an error or
    resolves with a response status.  [random i] are the values of
    [Math.random()] while message [i] is sent. *)
Context {W : Type}.
Variable axios_post : W -> jsstring -> jsstring -> W * (error + Z).
Variable random : nat -> nat -> Q.

(** The operation [_sendMessage] hands to the retry handler; its result is
    [{ success: true, index }]. *)
Definition postOnce (url content : jsstring) (index : nat) (w : W)
    : W * (error + nat) :=
  match axios_post w url content with
  | (w, inr status) =>
      if (200 <=? status)%Z && (status <? 300)%Z then (w, inr index)
      else (w, inl (Error (lit "Unexpected status code: " ++ decimal status)))
  | (w, inl error) => (w, inl error)
  end.

Definition _sendMessage (self : t) (url content : jsstring) (index : nat) (w : W)
    : RetryHandler.completion error nat * W
      * list (RetryHandler.event error nat) :=
  RetryHandler.execute (postOnce url content index) (random index)
    (retryHandler self) w.

(** What [send] does that can be observed: the calls and sleeps of the retry
    handler for message [index], and the pause between two messages. *)
Inductive event :=
| Sending (index : nat) (content : jsstring)
    (trace : list (RetryHandler.event error nat))
| Pause (ms : Z).

(** The loop of [send] from message [index] on. *)
Fixpoint sendFrom (self : t) (url : jsstring) (messages : list jsstring)
    (index : nat) (results : list nat) (w : W)
    : RetryHandler.completion error (list nat) * W * list event :=
  match messages with
  | [] => (RetryHandler.Returned results, w, [])
  | message :: rest =>
      match _sendMessage self url message index w with
      | (RetryHandler.Threw e, w, trace) =>
          (RetryHandler.Threw e, w, [Sending index message trace])
      | (RetryHandler.Returned result, w, trace) =>
          let '(c, w, events) :=
            sendFrom self url rest (S index) (results ++ [result]) w in
          (c, w,
           Sending index message trace
           :: match rest with [] => events | _ => Pause 500 :: events end)
      end
  end.

(** [send(messages)] on an array of messages. *)
Definition send (self : t) (messages : list jsstring) (w : W)
    : RetryHandler.completion error (list nat) * W * list event :=
  match webhookUrl self with
  | None | Some [] =>
      (RetryHandler.Threw (Some (Error (lit "DISCORD_WEBHOOK_URL is not set"))),
       w, [])
  | Some url => sendFrom self url messages 1 [] w
  end.

End Transport.

End DiscordNotifier.

(** ** src/parsers/ArticleNormalizer.js: the list operations of the
    fetchers *)

Module ArticleNormalizer.
Import JS.

(** The loop of [deduplicateByHash]: [seen] is the [Set] of the hashes met,
    [unique] the array built so far. *)
Fixpoint deduplicateLoop (articles : list Article.t) (seen : gset jsstring)
    (unique : list Article.t) : list Article.t :=
  match articles with
  | [] => unique
  | article :: rest =>
      let hash := Article.getHash article in
      if bool_decide (hash ∈ seen) then deduplicateLoop rest seen unique
      else deduplicateLoop rest (seen ∪ {[hash]}) (unique ++ [article])
  end.

Definition deduplicateByHash (articles : list Article.t) : list Article.t :=
  deduplicateLoop articles ∅ [].

(** [filterByDateRange(articles, hours)] when the clock shows [now]. *)
Definition filterByDateRange (articles : list Article.t) (now hours : Z)
    : list Article.t :=
  List.filter (fun article => Article.isWithinLastHours article now hours)
    articles.

(** [limit(articles, maxArticles)].  [articles.slice(0, maxArticles)] counts
    a negative bound from the end of the array. *)
Definition limit (articles : list Article.t) (maxArticles : Z)
    : list Article.t :=
  if (Z.of_nat (length articles) <=? maxArticles)%Z then articles
  else firstn (clampIndex (length articles) maxArticles) articles.

End ArticleNormalizer.

(** ** src/parsers/RSSParser.js: the items of the parsed feeds *)

Module RSSParser.

Section Feeds.
Context {Item : Type}.

(** A parsed feed, as far as these functions read it: [items] may be
    missing.  A feed that is [null] or [undefined] is [None]. *)
Record feed := { items : option (list Item) }.

Definition extractItems (feed : option feed) : list Item :=
  match feed with
  | Some {| items := Some items |} => items
  | _ => []
  end.

Definition mergeItems (feeds : list (option feed)) : list Item :=
  fold_left
    (fun allItems feed =>
       match feed with
       | Some {| items := Some items |} => allItems ++ items
       | _ => allItems
       end)
    feeds [].

End Feeds.

Arguments feed : clear implicits.

End RSSParser.

(** ** src/utils/MessageFormatter.js: [format] and the builders of header,
    sections and footer *)

Module Formatter.
Import JS.

(** The characters of the texts outside ASCII, as code units: U+1F4F0,
    U+1F4CA and U+1F916 take two each. *)
Definition newspaper : jsstring := [0xD83D; 0xDCF0]%N.
Definition barChart : jsstring := [0xD83D; 0xDCCA]%N.
Definition robot : jsstring := [0xD83E; 0xDD16]%N.
Definition matome : jsstring :=
  [0x30CB; 0x30E5; 0x30FC; 0x30B9; 0x307E; 0x3068; 0x3081]%N.
Definition ken : jsstring := [0x4EF6]%N.
Definition shuukei : jsstring := [0x96C6; 0x8A08]%N.
Definition zenSoosu : jsstring := [0x5168; 0x30BD; 0x30FC; 0x30B9]%N.
Definition kenShutoku : jsstring := [0x4EF6; 0x53D6; 0x5F97]%N.
Definition shinchaku : jsstring := [0x65B0; 0x7740]%N.

(** The line of 28 box-drawing characters U+2501. *)
Definition separator : jsstring := repeat 0x2501%N 28.

(** [text.replace(/-/g, '/')]. *)
Definition replaceHyphens (text : jsstring) : jsstring :=
  map (fun c => if (c =? 0x2D)%N then 0x2F%N else c) text.

(** [text.replace(/^1\./, `${i + 1}.`)]. *)
Definition renumber (i : nat) (text : jsstring) : jsstring :=
  if startsWith text (lit "1.")
  then decimal (Z.of_nat i + 1) ++ lit "." ++ skipn 2 text
  else text.

(** [object[key]] on an object given by its entries in insertion order; the
    keys of an object are pairwise distinct. *)
Definition getProperty {A : Type} (object : list (jsstring * A))
    (key : jsstring) : option A :=
  match List.find (fun entry => bool_decide (fst entry = key)) object with
  | Some entry => Some (snd entry)
  | None => None
  end.

(** The table [sourceNames] of [_buildFooter]; a key it lacks prints as
    [undefined]. *)
Definition sourceNames (sourceKey : jsstring) : jsstring :=
  if bool_decide (sourceKey = lit "hackernews") then lit "HN"
  else if bool_decide (sourceKey = lit "qiita") then lit "Qiita"
  else if bool_decide (sourceKey = lit "zenn") then lit "Zenn"
  else lit "undefined".

Section Builders.
(** [toISOString ms] is [new Date(ms).toISOString()]; [sourceConfigs key] is
    the entry of [key] in config/sources.json, with its [emoji] and its
    [name]. *)
Variable toISOString : Z -> jsstring.
Variable sourceConfigs : jsstring -> option (jsstring * jsstring).

(** [_buildHeader()] when the clock shows [now]. *)
Definition _buildHeader (now : Z) : jsstring :=
  let jstDate := (now + 9 * 60 * 60 * 1000)%Z in
  let dateStr := replaceHyphens (slice (toISOString jstDate) 0 10) in
  newspaper ++ lit " **AI" ++ matome ++ lit "** (" ++ dateStr ++ lit ")".

(** The loop over the articles of [_buildSection], from article [i] on. *)
Fixpoint articleLines (articles : list Article.t) (i : nat) : list jsstring :=
  match articles with
  | [] => []
  | article :: rest =>
      let numbered := renumber i (Article.toDiscordFormat article) in
      numbered :: [] :: articleLines rest (S i)
  end.

Definition _buildSection (config : jsstring * jsstring)
    (articles : list Article.t) : jsstring :=
  let '(emoji, name) := config in
  let lines :=
    [separator;
     emoji ++ lit " **" ++ name ++ lit "** ("
       ++ decimal (Z.of_nat (length articles)) ++ ken ++ lit ")";
     separator;
     []] in
  join [LF] (lines ++ articleLines articles 0).

(** The loop of [_buildSections] over [sourceOrder].  Reading [config.emoji]
    of a source that has no configuration throws. *)
Fixpoint buildSectionsLoop (articlesBySource : list (jsstring * list Article.t))
    (sourceOrder : list jsstring) (sections : list jsstring)
    : error + list jsstring :=
  match sourceOrder with
  | [] => inr sections
  | sourceKey :: rest =>
      match getProperty articlesBySource sourceKey with
      | None | Some [] => buildSectionsLoop articlesBySource rest sections
      | Some articles =>
          match sourceConfigs sourceKey with
          | None => inl TypeError
          | Some config =>
              buildSectionsLoop articlesBySource rest
                (sections ++ [_buildSection config articles])
          end
      end
  end.

Definition _buildSections (articlesBySource : list (jsstring * list Article.t))
    : error + list jsstring :=
  buildSectionsLoop articlesBySource
    [lit "hackernews"; lit "qiita"; lit "zenn"] [].

Definition _buildFooter (articlesBySource : list (jsstring * list Article.t))
    (totalFetched : Z) : jsstring :=
  let totalNew :=
    fold_left (fun sum entry => sum + length (snd entry)) articlesBySource 0 in
  let sourceStats :=
    fold_left
      (fun sourceStats entry =>
         let '(sourceKey, articles) := entry in
         if 0 <? length articles
         then sourceStats
              ++ [sourceNames sourceKey ++ lit ": "
                  ++ decimal (Z.of_nat (length articles)) ++ ken]
         else sourceStats)
      articlesBySource [] in
  let footerLines :=
    [[];
     separator;
     barChart ++ lit " **" ++ shuukei ++ lit "**";
     separator;
     zenSoosu ++ lit ": " ++ decimal totalFetched ++ kenShutoku ++ lit " / "
       ++ shinchaku ++ lit ": " ++ decimal (Z.of_nat totalNew) ++ ken] in
  let footerLines :=
    if 0 <? length sourceStats
    then footerLines ++ [lit "(" ++ join (lit ", ") sourceStats ++ lit ")"]
    else footerLines in
  let footerLines := footerLines ++ [[]] in
  let footerLines := footerLines ++ [robot ++ lit " Powered by GitHub Actions"] in
  join [LF] footerLines.

(** [format(articlesBySource, totalFetched)] when the clock shows [now]: it
    throws what [_buildSections] throws, and otherwise is what
    [_splitIntoChunks] gives, [None] while its loop is running. *)
Definition format (fuel : nat) (now : Z)
    (articlesBySource : list (jsstring * list Article.t)) (totalFetched : Z)
    : error + option (list jsstring) :=
  let header := _buildHeader now in
  match _buildSections articlesBySource with
  | inl e => inl e
  | inr sections =>
      let footer := _buildFooter articlesBySource totalFetched in
      inr (MessageFormatter._splitIntoChunks fuel
             Constants.DISCORD_CONFIG_maxLength header sections footer)
  end.

End Builders.

End Formatter.

(** * The vocabulary of the properties *)

Import JS.

(** ** The message packer *)

(** The cut the loop of [_splitIntoChunks] makes in a chunk that is too
    long. *)
Definition cutAt (maxLength : nat) (currentChunk : jsstring) : nat :=
  Z.to_nat (MessageFormatter._findSplitPoint (firstn maxLength currentChunk)).

(** The sections, each followed by the blank line the packer puts after it. *)
Definition joined (sections : list jsstring) : jsstring :=
  concat (map (fun s => s ++ NLNL) sections).

(** The code units of a string that are not white space. *)
Definition nonWhiteSpace (s : jsstring) : jsstring :=
  List.filter (fun c => negb (isWhiteSpace c)) s.

(** A body that is not empty, as a list of bodies. *)
Definition present (body : jsstring) : list jsstring :=
  match body with
  | [] => []
  | _ :: _ => [body]
  end.

(** The pieces a hard split makes of a text: each piece is a prefix that is
    not empty, kept as it is; what follows it is trimmed and gets its blank
    line back, and is cut again or left as it is. *)
Inductive hardCut : jsstring -> list jsstring -> jsstring -> Prop :=
| hardCut_none (text : jsstring) : hardCut text [] text
| hardCut_piece (piece tail : jsstring) (pieces : list jsstring)
    (left : jsstring) :
    piece <> [] ->
    hardCut (trim tail ++ NLNL) pieces left ->
    hardCut (piece ++ tail) (piece :: pieces) left.

(** The bodies made of the sections, [open] being the body that is still
    open: a section joins the open body, followed by its blank line, or the
    open body is closed, when it is not empty, and the section with its blank
    line opens the next one, after the pieces a hard split cut off it.  The
    body left open at the end is the last one. *)
Inductive packed : list jsstring -> jsstring -> list jsstring -> Prop :=
| packed_end (open : jsstring) : packed [] open (present open)
| packed_join (section : jsstring) (rest : list jsstring) (open : jsstring)
    (bodies : list jsstring) :
    packed rest (open ++ section ++ NLNL) bodies ->
    packed (section :: rest) open bodies
| packed_close (section : jsstring) (rest : list jsstring) (open : jsstring)
    (pieces : list jsstring) (left : jsstring) (bodies : list jsstring) :
    hardCut (section ++ NLNL) pieces left ->
    packed rest left bodies ->
    packed (section :: rest) open (present open ++ pieces ++ bodies).

(** [chunks] are header-prefixed bodies, the last one followed by the footer. *)
Definition framed (header footer : jsstring) (chunks bodies : list jsstring)
    (last : jsstring) : Prop :=
  chunks = map (fun b => header ++ NLNL ++ b) bodies
             ++ [header ++ NLNL ++ last ++ footer].

(** ** The retry executor *)

(** The operations and handlers of the scenarios: a transport call that
    answers 500 twice and then succeeds, one that always answers 500, and
    the handler of [RETRY_CONFIG]. *)
Definition failsTwice (calls : nat) : nat * (Z + unit) :=
  (S calls, if calls <? 2 then inl 500%Z else inr tt).

Definition alwaysFails (calls : nat) : nat * (Z + unit) :=
  (S calls, inl 500%Z).

Definition defaultHandler : RetryHandler.t :=
  RetryHandler.constructor
    {| RetryHandler.opt_maxRetries := None; RetryHandler.opt_baseDelay := None;
       RetryHandler.opt_maxDelay := None; RetryHandler.opt_jitter := None |}.

(** A handler that retries once, its first delay already at [maxDelay]. *)
Definition tightHandler : RetryHandler.t :=
  RetryHandler.constructor
    {| RetryHandler.opt_maxRetries := Some 1%Z;
       RetryHandler.opt_baseDelay := Some 1000%Q;
       RetryHandler.opt_maxDelay := Some 1000%Q;
       RetryHandler.opt_jitter := None |}.

(** No product of [_calculateDelay] overflows in the attempts of [execute]:
    [Math.pow(2, attempt)] is finite, [baseDelay] is not negative, so that
    its product with it is a number, and one and a half times [maxDelay] is
    finite. *)
Definition finiteDelays (self : RetryHandler.t) : Prop :=
  (RetryHandler.maxRetries self < 1024)%Z /\
  (0 <= RetryHandler.baseDelay self)%Q /\
  (0 <= RetryHandler.maxDelay self)%Q /\
  (RetryHandler.maxDelay self <= 2 ^ 1023)%Q.

(** Two values of [Math.random()]: the double 0.7 less a half, and the
    last double below 1. *)
Definition drawForSevenTenths : Q :=
  ((Binary64.c0_7 # 9007199254740992) - (1 # 2))%Q.

Definition lastBelowOne : Q := (1 - (1 # 9007199254740992))%Q.

(** The trace of the attempts that failed with [errors]: each call is
    followed by the sleep of its attempt, computed from the random number
    drawn for it when the jitter is on. *)
Definition failedAttempts {E R : Type} (self : RetryHandler.t)
    (random : nat -> Q) (errors : list E) : list (RetryHandler.event E R) :=
  concat
    (imap (fun k error =>
             [RetryHandler.Invoke (inl error);
              RetryHandler.Sleep
                (RetryHandler._calculateDelay self (Z.of_nat k)
                   (random (if RetryHandler.jitter self then k else 0%nat)))])
       errors).

(** ** The deduplication cache *)

(** The cache is loaded and has its [articles] object. *)
Definition ready (cs : CacheService.state) : Prop :=
  exists c partitions,
    CacheService._cache cs = Some c /\
    CacheService.articles c = Some partitions.

(** The source and the hash of every article are keys that name no inherited
    property: the cache then reads and writes own properties only. *)
Definition ownKeys (articles : list Article.t) : Prop :=
  Forall (fun a => inherited (Article.source a) = false
                   /\ inherited (Article.getHash a) = false) articles.

(** The articles [filterNew] lets through, given which hashes are known: an
    article passes when its hash is not known, and makes it known. *)
Fixpoint unseen (known : jsstring -> bool) (articles : list Article.t)
    : list Article.t :=
  match articles with
  | [] => []
  | article :: rest =>
      if known (Article.getHash article) then unseen known rest
      else article
           :: unseen (fun h => known h || bool_decide (h = Article.getHash article))
                rest
  end.

(** The first article of each hash. *)
Definition firstOccurrences (articles : list Article.t) : list Article.t :=
  unseen (fun _ => false) articles.

(** No article has a publication date that is an invalid [Date]. *)
Definition datesValid (articles : list Article.t) : Prop :=
  Forall (fun a => Article.publishedAt a <> Some InvalidDate) articles.

(** Successive calls of [filterNew] on one service: the lists they return, a
    call that throws returning none. *)
Fixpoint filterNewCalls (calls : list (list Article.t))
    (s : DeduplicationService.state) : list (list Article.t) :=
  match calls with
  | [] => []
  | articles :: rest =>
      match DeduplicationService.filterNew s articles with
      | DeduplicationService.Returns newArticles s =>
          newArticles :: filterNewCalls rest s
      | DeduplicationService.Throws _ s => filterNewCalls rest s
      end
  end.

(** What a service remembers of the articles [kept] so far: their hashes are
    pairwise distinct, and each is in the loaded cache. *)
Definition remembers (s : DeduplicationService.state)
    (kept : list Article.t) : Prop :=
  List.NoDup (map Article.getHash kept) /\
  forall a, In a kept ->
    DeduplicationService._loaded s = true /\
    CacheService.has (DeduplicationService.cacheService s) (Article.getHash a)
    = true.

(** What a run returned, and the cache file it left. *)
Definition returned {A : Type} (r : DeduplicationService.result A) : option A :=
  match r with
  | DeduplicationService.Returns a _ => Some a
  | DeduplicationService.Throws _ _ => None
  end.

Definition fileAfter {A : Type} (r : DeduplicationService.result A)
    : CacheService.file :=
  match r with
  | DeduplicationService.Returns _ s | DeduplicationService.Throws _ s =>
      CacheService.disk (DeduplicationService.cacheService s)
  end.

(** ** The article fingerprint *)

(** The fingerprint of an article: the [id] its constructor computes from the
    source and the address. *)
Definition fingerprint {Rest : Type} (sha256hex : jsstring -> jsstring)
    (URL_parse : jsstring -> option (URL Rest))
    (URL_toString : URL Rest -> jsstring) (source url : jsstring) : jsstring :=
  Article._generateId sha256hex source
    (Article._normalizeUrl URL_parse URL_toString (Some url)).

(** What [_normalizeUrl] makes of an address once trimmed and without its
    slash. *)
Definition reserialized {Rest : Type}
    (URL_parse : jsstring -> option (URL Rest))
    (URL_toString : URL Rest -> jsstring) (normalized : jsstring) : jsstring :=
  match URL_parse normalized with
  | Some urlObj =>
      URL_toString (fold_left Article.searchParams_delete Article.utmParams urlObj)
  | None => normalized
  end.

(** A query parameter with one of the given names, and a query without the
    parameters named in [utmParams]. *)
Definition isTracking (names : list jsstring) (p : jsstring * jsstring) : bool :=
  existsb (fun name => bool_decide (fst p = name)) names.

Definition withoutTracking (params : list (jsstring * jsstring))
    : list (jsstring * jsstring) :=
  List.filter (fun p => negb (isTracking Article.utmParams p)) params.

(** Two parsed URLs that differ at most in their tracking parameters. *)
Definition sameButTracking {Rest : Type} (u1 u2 : URL Rest) : Prop :=
  hostname u1 = hostname u2 /\ pathname u1 = pathname u2 /\
  other u1 = other u2 /\
  withoutTracking (searchParams u1) = withoutTracking (searchParams u2).

(** An address with nothing for [_normalizeUrl] to strip: not empty, already
    trimmed, and with no slash at its end. *)
Definition canonicalText (url : jsstring) : Prop :=
  url <> [] /\ trim url = url /\ endsWith url (lit "/") = false.

(** The text of which the fingerprint is the hash, and two addresses whose
    texts differ and have the same hash. *)
Definition hashedText {Rest : Type}
    (URL_parse : jsstring -> option (URL Rest))
    (URL_toString : URL Rest -> jsstring) (source url : jsstring) : jsstring :=
  source ++ lit ":" ++ Article._normalizeUrl URL_parse URL_toString (Some url).

Definition collide {Rest : Type} (sha256hex : jsstring -> jsstring)
    (URL_parse : jsstring -> option (URL Rest))
    (URL_toString : URL Rest -> jsstring) (source url1 url2 : jsstring)
    : Prop :=
  hashedText URL_parse URL_toString source url1
  <> hashedText URL_parse URL_toString source url2 /\
  sha256hex (hashedText URL_parse URL_toString source url1)
  = sha256hex (hashedText URL_parse URL_toString source url2).

(** The URL class on the addresses of a scenario: what [new URL] makes of an
    address with a tracking parameter and of the same address without it,
    every other text being rejected, and [toString] on the result. *)
Definition parseScenario (url : jsstring) : option (URL unit) :=
  if bool_decide (url = lit "https://example.com/post?utm_source=feed&id=7")
  then Some {| hostname := lit "example.com"; pathname := lit "/post";
               searchParams := [(lit "utm_source", lit "feed");
                                (lit "id", lit "7")];
               other := tt |}
  else if bool_decide (url = lit "https://example.com/post?id=7")
  then Some {| hostname := lit "example.com"; pathname := lit "/post";
               searchParams := [(lit "id", lit "7")]; other := tt |}
  else None.

Definition serializeScenario (u : URL unit) : jsstring :=
  lit "https://" ++ hostname u ++ pathname u
  ++ match searchParams u with
     | [] => []
     | params =>
         lit "?" ++ join (lit "&")
                      (map (fun p => fst p ++ lit "=" ++ snd p) params)
     end.

(** ** The data of the scenarios *)

(** Two articles of the feeds with the same source and address, hence the
    same fingerprint (the SHA-256 of [qiita:https://example.com/post]), and a
    service whose cache is loaded and empty. *)
Definition samplePost (title : string) : Article.t :=
  {| Article.title := lit title;
     Article.url := lit "https://example.com/post";
     Article.source := lit "qiita";
     Article.publishedAt := None;
     Article.author := None;
     Article.summary := None;
     Article.tags := [];
     Article.id :=
       lit "36ff87c49cc556334851638cf0a78ac9501e08b44ae64a9e02ee320de7bcd1f6";
     Article.aiSummary := None;
     Article.translatedTitle := None |}.

Definition emptyCacheState (now : Z) : CacheService.state :=
  {| CacheService._cache :=
       Some {| CacheService.version := Some Constants.CACHE_CONFIG_version;
               CacheService.lastUpdated := ValidDate now;
               CacheService.articles :=
                 Some (<[lit "hackernews" := ∅]>
                        (<[lit "qiita" := ∅]> (<[lit "zenn" := ∅]> ∅))) |};
     CacheService.disk := CacheService.NoFile;
     CacheService.diskFails := false;
     CacheService.now := now |}.

Definition loadedEmpty : DeduplicationService.state :=
  {| DeduplicationService._loaded := true;
     DeduplicationService.cacheService := emptyCacheState 0 |}.

(** A cache file written under schema version 0.9, with one entry, found by a
    service that has not loaded anything yet. *)
Definition staleCache : CacheService.cache :=
  {| CacheService.version := Some (lit "0.9");
     CacheService.lastUpdated := ValidDate 0;
     CacheService.articles :=
       Some (<[lit "qiita" :=
                 <[lit "36ff87c49cc556334851638cf0a78ac9501e08b44ae64a9e02ee320de7bcd1f6"
                   := ValidDate 0]> ∅]> ∅) |}.

Definition staleStart : CacheService.state :=
  {| CacheService._cache := None;
     CacheService.disk := CacheService.Json staleCache;
     CacheService.diskFails := false;
     CacheService.now := 86400000 |}.

(** Articles without an address, as the constructor builds them for the
    source [hackernews]: their hash is the SHA-256 of [hackernews:]. *)
Definition urlLessPost (title : string) : Article.t :=
  {| Article.title := lit title;
     Article.url := [];
     Article.source := lit "hackernews";
     Article.publishedAt := None;
     Article.author := None;
     Article.summary := None;
     Article.tags := [];
     Article.id :=
       lit "a2cdaf2e53422a56c0004566bd92157a91b4948836cc0684c46a6bb83ca66974";
     Article.aiSummary := None;
     Article.translatedTitle := None |}.

Definition day : Z := 86400000.

(** What a fetcher hands to the constructor for an article of [hackernews]
    without address. *)
Definition urlLessInput (title : string) (url : option jsstring)
    : Article.input :=
  {| Article.in_title := Some (lit title); Article.in_url := url;
     Article.in_source := lit "hackernews"; Article.in_publishedAt := None;
     Article.in_author := None; Article.in_summary := None;
     Article.in_tags := None |}.

(** Three runs of the process on one cache file, on day 0, day 31 and day 32,
    each given one article without address from [hackernews]. *)
Definition firstRun : DeduplicationService.result (list (list Article.t)) :=
  Main.dedupe CacheService.NoFile 0 [[urlLessPost "First"]].

Definition secondRun : DeduplicationService.result (list (list Article.t)) :=
  Main.dedupe (fileAfter firstRun) (31 * day) [[urlLessPost "Second"]].

Definition thirdRun : DeduplicationService.result (list (list Article.t)) :=
  Main.dedupe (fileAfter secondRun) (32 * day) [[urlLessPost "Third"]].

(** A transport that answers 204 to everything, and a parser that reads the
    address [https://example.com/hook]. *)
Definition acceptAll (w : unit) (url content : jsstring) : unit * (error + Z) :=
  (w, inr 204%Z).

Definition parseExample (url : jsstring) : option (URL unit) :=
  Some {| hostname := lit "example.com"; pathname := lit "/hook";
          searchParams := []; other := tt |}.

(** ** The webhook sender *)

(** What a run of [send] shows: the messages handed to the retry handler, the
    pauses made between them, and the number of calls of the transport. *)
Definition sentMessages (events : list DiscordNotifier.event) : list jsstring :=
  flat_map (fun e => match e with
                     | DiscordNotifier.Sending _ content _ => [content]
                     | DiscordNotifier.Pause _ => []
                     end) events.

Definition pauses (events : list DiscordNotifier.event) : list Z :=
  flat_map (fun e => match e with
                     | DiscordNotifier.Sending _ _ _ => []
                     | DiscordNotifier.Pause ms => [ms]
                     end) events.

(** A list with a separator between each element and the next, and none
    after the last. *)
Fixpoint between {A : Type} (separator : A) (l : list A) : list A :=
  match l with
  | [] => []
  | x :: rest =>
      x :: match rest with
           | [] => []
           | _ :: _ => separator :: between separator rest
           end
  end.

(** The events of messages handed to the retry handler one after the other,
    numbered from [index] on, each with the trace of its calls and sleeps: a
    pause of 500 ms lies between each message and the next. *)
Definition deliveries (index : nat)
    (sent : list (jsstring * list (RetryHandler.event JS.error nat)))
    : list DiscordNotifier.event :=
  between (DiscordNotifier.Pause 500)
    (imap (fun i d => DiscordNotifier.Sending (index + i) (fst d) (snd d))
       sent).

Definition transportCalls (events : list DiscordNotifier.event) : nat :=
  length
    (flat_map (fun e => match e with
                        | DiscordNotifier.Sending _ _ trace =>
                            RetryHandler.invocations trace
                        | DiscordNotifier.Pause _ => []
                        end) events).

(** ** The cache and the run *)

(** The state a call leaves, whether it returns or throws. *)
Definition cacheAfter {A : Type} (r : CacheService.result A)
    : CacheService.state :=
  match r with
  | CacheService.Returns _ s | CacheService.Throws _ s => s
  end.

(** The cache in memory, when there is one, has the version of
    [CACHE_CONFIG]. *)
Definition currentVersion (cs : CacheService.state) : Prop :=
  match CacheService._cache cs with
  | Some c => CacheService.version c = Some Constants.CACHE_CONFIG_version
  | None => True
  end.

(** A service that was just created. *)
Definition freshService (disk : CacheService.file) (now : Z)
    : DeduplicationService.state :=
  {| DeduplicationService._loaded := false;
     DeduplicationService.cacheService :=
       {| CacheService._cache := None; CacheService.disk := disk;
          CacheService.diskFails := false; CacheService.now := now |} |}.

(** A cache loaded on day 40 that holds an entry of day 0 and one of
    day 35. *)
Definition agedPartitions : gmap jsstring (gmap jsstring jsDate) :=
  <[lit "qiita" := <[lit "old" := ValidDate 0]>
                     (<[lit "new" := ValidDate (35 * day)]> ∅)]> ∅.

Definition agedCache : CacheService.cache :=
  {| CacheService.version := Some Constants.CACHE_CONFIG_version;
     CacheService.lastUpdated := ValidDate (35 * day);
     CacheService.articles := Some agedPartitions |}.

Definition agedState : CacheService.state :=
  {| CacheService._cache := Some agedCache;
     CacheService.disk := CacheService.Json agedCache;
     CacheService.diskFails := false;
     CacheService.now := 40 * day |}.

(** The service a call leaves, whether it returns or throws. *)
Definition serviceAfter {A : Type} (r : DeduplicationService.result A)
    : DeduplicationService.state :=
  match r with
  | DeduplicationService.Returns _ s | DeduplicationService.Throws _ s => s
  end.

(** ** The formatter *)

(** A clock text and a table of configurations for the scenarios. *)
Definition isoExample (ms : Z) : jsstring := lit "2026-01-28T07:15:00.000Z".

Definition configExample (sourceKey : jsstring) : option (jsstring * jsstring) :=
  Some (lit "#", sourceKey).

(** ** Entries that outlive a cleanup *)

(** The time stamp [filterNew] records for an article at time [now]. *)
Definition stampOf (now : Z) (a : Article.t) : jsDate :=
  default (ValidDate now) (Article.publishedAt a).

(** Some source holds [hash] with a time stamp that is not before
    [cutoff]. *)
Definition recentEntry (cutoff : Z)
    (partitions : gmap jsstring (gmap jsstring jsDate)) (hash : jsstring)
    : Prop :=
  exists source entries timestamp,
    partitions !! source = Some entries /\
    entries !! hash = Some timestamp /\
    CacheService.olderThan cutoff timestamp = false.

(** The cache in memory, or the cache file, holds such an entry. *)
Definition holdsRecent (cutoff : Z) (cs : CacheService.state)
    (hash : jsstring) : Prop :=
  exists c partitions,
    CacheService._cache cs = Some c /\
    CacheService.articles c = Some partitions /\
    recentEntry cutoff partitions hash.

Definition fileHoldsRecent (cutoff : Z) (cs : CacheService.state)
    (hash : jsstring) : Prop :=
  exists c partitions,
    CacheService.disk cs = CacheService.Json c /\
    CacheService.articles c = Some partitions /\
    recentEntry cutoff partitions hash.

(** Successive runs of the process on one cache file: each run, at its time
    and on its sources, starts from the file the run before it left. *)
Fixpoint runsFrom (disk : CacheService.file)
    (runs : list (Z * list (list Article.t)))
    : list (DeduplicationService.result (list (list Article.t))) :=
  match runs with
  | [] => []
  | (now, sources) :: rest =>
      Main.dedupe disk now sources
      :: runsFrom (fileAfter (Main.dedupe disk now sources)) rest
  end.

(** A run that completed, and the articles the runs returned. *)
Definition completed {A : Type} (r : DeduplicationService.result A) : Prop :=
  is_Some (returned r).

Definition keptBy
    (results : list (DeduplicationService.result (list (list Article.t))))
    : list Article.t :=
  concat (concat (map (fun r => default [] (returned r)) results)).

(** The cache file holds the hash [h], under the current version, with a
    time stamp that is not before [cutoff]. *)
Definition fileKeeps (cutoff : Z) (h : jsstring) (disk : CacheService.file)
    : Prop :=
  exists c partitions,
    disk = CacheService.Json c /\
    CacheService.version c = Some Constants.CACHE_CONFIG_version /\
    CacheService.articles c = Some partitions /\
    recentEntry cutoff partitions h.

(** An article whose date did not parse. *)
Definition undatable : Article.t :=
  {| Article.title := lit "Undatable";
     Article.url := lit "https://example.com/post";
     Article.source := lit "qiita";
     Article.publishedAt := Some InvalidDate;
     Article.author := None;
     Article.summary := None;
     Article.tags := [];
     Article.id :=
       lit "36ff87c49cc556334851638cf0a78ac9501e08b44ae64a9e02ee320de7bcd1f6";
     Article.aiSummary := None;
     Article.translatedTitle := None |}.

(** A run that offers an article without address and then one whose date did
    not parse, and the run that follows it a day later. *)
Definition abortedRun : DeduplicationService.result (list (list Article.t)) :=
  Main.dedupe CacheService.NoFile 0 [[urlLessPost "First"]; [undatable]].

Definition runAfterAbort
    : DeduplicationService.result (list (list Article.t)) :=
  Main.dedupe (fileAfter abortedRun) day [[urlLessPost "Second"]].

(** The cache of [agedState] on day 20, when none of its entries is old, on
    a disk that cannot be written. *)
Definition youngState : CacheService.state :=
  {| CacheService._cache := Some agedCache;
     CacheService.disk := CacheService.Json agedCache;
     CacheService.diskFails := true;
     CacheService.now := 20 * day |}.

(** * Properties *)

(** ** Facts about the string primitives *)

Section StringFacts.

Lemma length_lit_NLNL : length NLNL = 2.
Proof. reflexivity. Qed.

Lemma length_trimStart (s : jsstring) : length (trimStart s) <= length s.
Proof.
  induction s as [|c s IH]; simpl; [lia|].
  destruct (isWhiteSpace c); simpl; lia.
Qed.

Lemma length_trim (s : jsstring) : length (trim s) <= length s.
Proof.
  unfold trim, trimEnd. rewrite length_rev.
  etransitivity; [apply length_trimStart|].
  rewrite length_rev. apply length_trimStart.
Qed.

(** White space at the end of a string does not survive [trim]. *)
Lemma trimStart_snoc (s : jsstring) (c : N) :
  isWhiteSpace c = true ->
  trimStart (s ++ [c]) =
  match trimStart s with [] => [] | _ => trimStart s ++ [c] end.
Proof.
  intros Hc. induction s as [|d s IH]; simpl.
  - now rewrite Hc.
  - destruct (isWhiteSpace d); [exact IH | reflexivity].
Qed.

Lemma trim_snoc (s : jsstring) (c : N) :
  isWhiteSpace c = true -> trim (s ++ [c]) = trim s.
Proof.
  intros Hc. unfold trim. rewrite trimStart_snoc by exact Hc.
  destruct (trimStart s) as [|d t] eqn:E; [reflexivity|].
  unfold trimEnd. rewrite rev_app_distr. simpl rev at 1. simpl app.
  simpl trimStart at 1. now rewrite Hc.
Qed.

Lemma trim_app_whitespace (s w : jsstring) :
  forallb isWhiteSpace w = true -> trim (s ++ w) = trim s.
Proof.
  revert s. induction w as [|c w IH]; intros s Hw.
  - now rewrite app_nil_r.
  - simpl in Hw. apply andb_prop in Hw as [Hc Hw].
    change (c :: w) with ([c] ++ w). rewrite app_assoc.
    rewrite IH by exact Hw. now apply trim_snoc.
Qed.

Lemma startsWith_length (s pat : jsstring) :
  startsWith s pat = true -> length pat <= length s.
Proof.
  revert s. induction pat as [|p pat IH]; intros [|c s]; simpl; intros H;
    try lia; try discriminate.
  apply andb_prop in H as [_ H]. apply IH in H. lia.
Qed.

Lemma lastIndexOf_scan_range (s pat : jsstring) (i found : Z) :
  let r := lastIndexOf_scan s pat i found in
  r = found \/ (i <= r /\ r + Z.of_nat (length pat) <= i + Z.of_nat (length s))%Z.
Proof.
  revert i found. induction s as [|c s IH]; intros i found; cbn zeta.
  - simpl. destruct pat; simpl; [right; lia | now left].
  - cbn [lastIndexOf_scan].
    destruct (IH (i + 1)%Z (if startsWith (c :: s) pat then i else found))
      as [E | [Hlo Hhi]].
    + rewrite E. destruct (startsWith (c :: s) pat) eqn:Hs; [|now left].
      right. apply startsWith_length in Hs. lia.
    + right. cbn [length]. lia.
Qed.

Lemma lastIndexOf_range (s pat : jsstring) :
  (-1 <= lastIndexOf s pat /\
   lastIndexOf s pat + Z.of_nat (length pat) <= Z.of_nat (length s)
   \/ lastIndexOf s pat = -1)%Z.
Proof.
  unfold lastIndexOf.
  destruct (lastIndexOf_scan_range s pat 0 (-1)) as [E | H]; cbn zeta in *.
  - now right.
  - left. lia.
Qed.

Lemma clampIndex_nonneg (len : nat) (i : Z) :
  (0 <= i)%Z -> clampIndex len i = Nat.min (Z.to_nat i) len.
Proof.
  intros Hi. unfold clampIndex.
  destruct (Z.ltb_spec i 0); lia.
Qed.

Lemma slice_prefix (s : jsstring) (k : Z) :
  (0 <= k)%Z -> slice s 0 k = firstn (Z.to_nat k) s.
Proof.
  intros Hk. unfold slice. rewrite !clampIndex_nonneg by lia.
  simpl. rewrite Nat.sub_0_r.
  destruct (Nat.le_ge_cases (Z.to_nat k) (length s)) as [H | H].
  - now rewrite Nat.min_l.
  - rewrite Nat.min_r by exact H. rewrite firstn_all.
    symmetry. apply firstn_all2. exact H.
Qed.

Lemma sliceFrom_suffix (s : jsstring) (k : Z) :
  (0 <= k)%Z -> sliceFrom s k = skipn (Z.to_nat k) s.
Proof.
  intros Hk. unfold sliceFrom. rewrite clampIndex_nonneg by lia.
  destruct (Nat.le_ge_cases (Z.to_nat k) (length s)) as [H | H].
  - now rewrite Nat.min_l.
  - rewrite Nat.min_r by exact H. rewrite skipn_all.
    symmetry. apply skipn_all2. exact H.
Qed.

End StringFacts.

(** ** Facts about the binary64 products *)

Section Binary64Facts.
Import Binary64.
Local Open Scope Z_scope.

(** Rounding to 53 bits moves a value by at most half a unit in the last
    place, that is by at most [x * 2^-53]. *)
Lemma round53_error (x : Z) :
  0 <= x -> Z.abs (round53 x - x) * 2 ^ 53 <= x.
Proof.
  intros Hx. unfold round53.
  destruct (Z.leb_spec (Z.log2 x - 52) 0) as [Hs | Hs].
  - rewrite Z.sub_diag. simpl. lia.
  - set (s := Z.log2 x - 52) in *.
    assert (Hpos : 0 < x).
    { destruct (Z.eq_dec x 0) as [-> | ]; [simpl in s; lia | lia]. }
    destruct (Z.log2_spec x Hpos) as [Hlo _].
    rewrite Z.shiftr_div_pow2, Z.land_ones, !Z.shiftl_mul_pow2 by lia.
    assert (Hp : 2 ^ s = 2 * 2 ^ (s - 1)).
    { replace s with (Z.succ (s - 1)) at 1 by lia.
      rewrite Z.pow_succ_r by lia. reflexivity. }
    assert (Hl : 2 ^ Z.log2 x = 2 ^ (s - 1) * 2 ^ 53).
    { rewrite <- Z.pow_add_r by lia. f_equal. lia. }
    assert (Hh : 0 < 2 ^ (s - 1)) by (apply Z.pow_pos_nonneg; lia).
    pose proof (Z.div_mod x (2 ^ s) ltac:(lia)) as Hdm.
    pose proof (Z.mod_pos_bound x (2 ^ s) ltac:(lia)) as Hmod.
    rewrite Z.mul_1_l.
    set (q := x / 2 ^ s) in *. set (r := x mod 2 ^ s) in *.
    set (h := 2 ^ (s - 1)) in *. set (P := 2 ^ 53) in *.
    assert (HP : 0 < P) by (subst P; lia).
    destruct ((h <? r) || (h =? r) && Z.odd q) eqn:Hc.
    + assert (h <= r).
      { apply orb_prop in Hc as [Hc | Hc]; [apply Z.ltb_lt in Hc; lia|].
        apply andb_prop in Hc as [Hc _]. apply Z.eqb_eq in Hc. lia. }
      rewrite Hp. replace ((q + 1) * (2 * h) - x) with (2 * h - r) by lia.
      rewrite Z.abs_eq by lia. nia.
    + assert (r <= h).
      { apply orb_false_elim in Hc as [Hc _]. apply Z.ltb_ge in Hc. lia. }
      rewrite Hp. replace (q * (2 * h) - x) with (- r) by lia.
      rewrite Z.abs_neq by lia. nia.
Qed.

Lemma round53_nonneg (x : Z) : 0 <= x -> 0 <= round53 x.
Proof.
  intros Hx. pose proof (round53_error x Hx) as H.
  assert (0 < 2 ^ 53) by lia. nia.
Qed.

Lemma floor_nonneg (n : nat) (c : Z) : 0 <= c -> 0 <= floor (mul n c).
Proof.
  intros Hc. unfold floor, mul. apply Z.div_pos; [|lia].
  apply round53_nonneg. lia.
Qed.

(** [Math.floor(n * 0.9)] stays below [n]. *)
Lemma floor_mul_0_9_lt (n : nat) :
  (0 < n)%nat -> floor (mul n c0_9) < Z.of_nat n.
Proof.
  intros Hn. unfold floor, mul.
  apply Z.div_lt_upper_bound; [lia|].
  pose proof (round53_error (Z.of_nat n * c0_9)) as H.
  unfold c0_9 in *. lia.
Qed.

Lemma floor_mul_0_9_le (n : nat) : floor (mul n c0_9) <= Z.of_nat n.
Proof.
  destruct n as [|n]; [reflexivity|].
  apply Z.lt_le_incl, floor_mul_0_9_lt. lia.
Qed.

(** An integer above a double is above its floor. *)
Lemma int_gt_floor (a v : Z) : int_gt a v = true -> floor v + 1 <= a.
Proof.
  unfold int_gt, floor. intros H. apply Z.ltb_lt in H.
  assert (v / 2 ^ 53 < a) by (apply Z.div_lt_upper_bound; lia). lia.
Qed.

End Binary64Facts.

(** ** Facts about the rounding to the nearest double *)

Section RoundingFacts.
Import Binary64.
Local Open Scope Q_scope.

Lemma two_pow_pos (e : Z) : (0 < 2 ^ e)%Q.
Proof. apply Qpower_0_lt. reflexivity. Qed.

Lemma two_pow_add (a b : Z) : (2 ^ (a + b) == 2 ^ a * 2 ^ b)%Q.
Proof. apply Qpower_plus. discriminate. Qed.

Lemma two_pow_succ (a : Z) : (2 ^ (a + 1) == 2 * 2 ^ a)%Q.
Proof. rewrite two_pow_add. change (2 ^ 1)%Q with 2%Q. ring. Qed.

Lemma two_pow_le (a b : Z) : (a <= b)%Z -> (2 ^ a <= 2 ^ b)%Q.
Proof.
  intros H. replace b with (a + (b - a))%Z by lia. rewrite two_pow_add.
  assert (H1 : (1 <= 2 ^ (b - a))%Q).
  { destruct (b - a)%Z eqn:E; try lia.
    - apply Qle_refl.
    - rewrite <- (Zpower_Qpower 2 (Z.pos p)) by lia.
      change 1%Q with (inject_Z 1). rewrite <- Zle_Qle.
      pose proof (Z.pow_pos_nonneg 2 (Z.pos p)). lia. }
  pose proof (two_pow_pos a). nra.
Qed.

Lemma two_pow_lt_inv (a b : Z) : (2 ^ a < 2 ^ (b + 1))%Q -> (a <= b)%Z.
Proof.
  intros H. destruct (Z_le_gt_dec a b) as [|Hgt]; [assumption|].
  exfalso. assert (H' : (2 ^ (b + 1) <= 2 ^ a)%Q) by (apply two_pow_le; lia).
  lra.
Qed.

Lemma two_pow_inject (n : Z) : (0 <= n)%Z -> (inject_Z (2 ^ n) == 2 ^ n)%Q.
Proof. intros H. apply (Zpower_Qpower 2 n H). Qed.

Lemma exponent_spec (q : Q) :
  (0 < q)%Q -> (2 ^ exponent q <= q)%Q /\ (q < 2 ^ (exponent q + 1))%Q.
Proof.
  intros Hq. destruct q as [n d]. unfold exponent. cbn [Qnum Qden].
  assert (Hn : (0 < n)%Z).
  { unfold Qlt in Hq. cbn in Hq. lia. }
  set (a := Z.log2 n). set (b := Z.log2 (Z.pos d)).
  assert (Ha : (2 ^ a <= n < 2 ^ (a + 1))%Z).
  { pose proof (Z.log2_spec n Hn). unfold a. now rewrite <- Z.add_1_r in H. }
  assert (Hb : (2 ^ b <= Z.pos d < 2 ^ (b + 1))%Z).
  { pose proof (Z.log2_spec (Z.pos d) ltac:(lia)). unfold b.
    now rewrite <- Z.add_1_r in H. }
  assert (Ha0 : (0 <= a)%Z) by apply Z.log2_nonneg.
  assert (Hb0 : (0 <= b)%Z) by apply Z.log2_nonneg.
  assert (Hq' : (n # d == inject_Z n / inject_Z (Z.pos d))%Q).
  { rewrite (Qmake_Qdiv n d). reflexivity. }
  assert (Hd : (0 < inject_Z (Z.pos d))%Q).
  { change 0%Q with (inject_Z 0). rewrite <- Zlt_Qlt. lia. }
  assert (Hna : (2 ^ a <= inject_Z n)%Q /\ (inject_Z n < 2 * 2 ^ a)%Q).
  { rewrite <- two_pow_succ, <- !two_pow_inject by lia.
    rewrite <- Zle_Qle, <- Zlt_Qlt. exact Ha. }
  assert (Hdb : (2 ^ b <= inject_Z (Z.pos d))%Q
                /\ (inject_Z (Z.pos d) < 2 * 2 ^ b)%Q).
  { rewrite <- two_pow_succ, <- !two_pow_inject by lia.
    rewrite <- Zle_Qle, <- Zlt_Qlt. exact Hb. }
  assert (Hab : (2 ^ a == 2 ^ (a - b) * 2 ^ b)%Q).
  { rewrite <- two_pow_add. now replace (a - b + b)%Z with a by lia. }
  pose proof (two_pow_pos (a - b)) as Hp. pose proof (two_pow_pos b) as Hpb.
  pose proof (two_pow_pos a) as Hpa.
  set (x := inject_Z n) in *. set (y := inject_Z (Z.pos d)) in *.
  assert (Hqy : ((n # d) * y == x)%Q).
  { rewrite Hq'. field. lra. }
  destruct (Qle_bool (2 ^ (a - b)) (n # d)) eqn:Hle.
  - apply Qle_bool_iff in Hle. split; [exact Hle|].
    rewrite two_pow_succ.
    apply Qnot_le_lt. intros Hc.
    assert ((2 * 2 ^ (a - b)) * y <= (n # d) * y)%Q by nra.
    nra.
  - assert (Hlt : (n # d < 2 ^ (a - b))%Q).
    { apply Qnot_le_lt. intros Hc. apply Qle_bool_iff in Hc. congruence. }
    replace (a - b - 1 + 1)%Z with (a - b)%Z by lia. split; [|exact Hlt].
    assert (H2 : (2 ^ (a - b) == 2 * 2 ^ (a - b - 1))%Q).
    { rewrite <- two_pow_succ. now replace (a - b - 1 + 1)%Z with (a - b)%Z by lia. }
    apply Qnot_lt_le. intros Hc.
    assert ((n # d) * y < 2 ^ (a - b - 1) * y)%Q by nra.
    nra.
Qed.


Lemma roundHalfEven_floor (q : Q) :
  (Qfloor q <= roundHalfEven q <= Qfloor q + 1)%Z.
Proof.
  unfold roundHalfEven.
  destruct (q - inject_Z (Qfloor q) ?= 1 # 2)%Q; [destruct (Z.even _)| |]; lia.
Qed.

Lemma roundHalfEven_inject_Z (n : Z) : roundHalfEven (inject_Z n) = n.
Proof.
  unfold roundHalfEven. rewrite Qfloor_Z.
  destruct (Qcompare_spec (inject_Z n - inject_Z n) (1 # 2)) as [H|H|H];
    [exfalso; lra|reflexivity|exfalso; lra].
Qed.

Lemma roundHalfEven_mono (x y : Q) :
  (x <= y)%Q -> (roundHalfEven x <= roundHalfEven y)%Z.
Proof.
  intros Hxy. pose proof (Qfloor_resp_le _ _ Hxy) as Hf.
  pose proof (roundHalfEven_floor x) as Hx.
  pose proof (roundHalfEven_floor y) as Hy.
  destruct (Z.eq_dec (Qfloor x) (Qfloor y)) as [Heq|Hne]; [|lia].
  unfold roundHalfEven. rewrite <- Heq.
  destruct (Qcompare_spec (x - inject_Z (Qfloor x)) (1 # 2)) as [Hx1|Hx1|Hx1];
    destruct (Qcompare_spec (y - inject_Z (Qfloor x)) (1 # 2)) as [Hy1|Hy1|Hy1];
    try destruct (Z.even (Qfloor x)); try lia; exfalso; lra.
Qed.

Lemma roundHalfEven_le (q : Q) (n : Z) :
  (q <= inject_Z n)%Q -> (roundHalfEven q <= n)%Z.
Proof.
  intros H. rewrite <- (roundHalfEven_inject_Z n). now apply roundHalfEven_mono.
Qed.

Lemma roundHalfEven_ge (q : Q) (n : Z) :
  (inject_Z n <= q)%Q -> (n <= roundHalfEven q)%Z.
Proof.
  intros H. rewrite <- (roundHalfEven_inject_Z n). now apply roundHalfEven_mono.
Qed.

Lemma nearestPositive_mono (x y : Q) :
  (0 < x)%Q -> (x <= y)%Q -> (nearestPositive x <= nearestPositive y)%Q.
Proof.
  intros Hx Hxy. assert (Hy : (0 < y)%Q) by lra.
  destruct (exponent_spec x Hx) as [Hx1 Hx2].
  destruct (exponent_spec y Hy) as [Hy1 Hy2].
  assert (He : (exponent x <= exponent y)%Z).
  { apply two_pow_lt_inv. lra. }
  unfold nearestPositive.
  set (c1 := Z.max (exponent x) (-1022)). set (c2 := Z.max (exponent y) (-1022)).
  destruct (Z.eq_dec c1 c2) as [Hc|Hc].
  - rewrite <- Hc. pose proof (two_pow_pos (52 - c1)) as H1.
    pose proof (two_pow_pos (c1 - 52)) as H2.
    assert (H3 : (roundHalfEven (x * 2 ^ (52 - c1))
                  <= roundHalfEven (y * 2 ^ (52 - c1)))%Z).
    { apply roundHalfEven_mono. nra. }
    rewrite Zle_Qle in H3. nra.
  - assert (Hlt : (c1 < c2)%Z) by lia.
    assert (Hc2 : c2 = exponent y) by lia.
    assert (Hc1 : (exponent x <= c1)%Z) by lia.
    assert (Hup : (roundHalfEven (x * 2 ^ (52 - c1)) <= 2 ^ 53)%Z).
    { apply roundHalfEven_le. rewrite two_pow_inject by lia.
      assert (E : (2 ^ 53 == 2 ^ (c1 + 1) * 2 ^ (52 - c1))%Q).
      { rewrite <- two_pow_add. now replace (c1 + 1 + (52 - c1))%Z with 53%Z by lia. }
      rewrite E. pose proof (two_pow_pos (52 - c1)).
      assert ((2 ^ (exponent x + 1) <= 2 ^ (c1 + 1))%Q) by (apply two_pow_le; lia).
      nra. }
    assert (Hlo : (2 ^ 52 <= roundHalfEven (y * 2 ^ (52 - c2)))%Z).
    { apply roundHalfEven_ge. rewrite two_pow_inject by lia.
      assert (E : (2 ^ 52 == 2 ^ c2 * 2 ^ (52 - c2))%Q).
      { rewrite <- two_pow_add. now replace (c2 + (52 - c2))%Z with 52%Z by lia. }
      rewrite E. pose proof (two_pow_pos (52 - c2)). rewrite Hc2 in *. nra. }
    rewrite Zle_Qle in Hup, Hlo. rewrite two_pow_inject in Hup, Hlo by lia.
    assert (E1 : (2 ^ 53 * 2 ^ (c1 - 52) == 2 ^ (c1 + 1))%Q).
    { rewrite <- two_pow_add. now replace (53 + (c1 - 52))%Z with (c1 + 1)%Z by lia. }
    assert (E2 : (2 ^ 52 * 2 ^ (c2 - 52) == 2 ^ c2)%Q).
    { rewrite <- two_pow_add. now replace (52 + (c2 - 52))%Z with c2 by lia. }
    assert (E3 : (2 ^ (c1 + 1) <= 2 ^ c2)%Q) by (apply two_pow_le; lia).
    pose proof (two_pow_pos (c1 - 52)). pose proof (two_pow_pos (c2 - 52)).
    set (r1 := inject_Z (roundHalfEven (x * 2 ^ (52 - c1)))) in *.
    set (r2 := inject_Z (roundHalfEven (y * 2 ^ (52 - c2)))) in *.
    assert (r1 * 2 ^ (c1 - 52) <= 2 ^ 53 * 2 ^ (c1 - 52))%Q by nra.
    assert (2 ^ 52 * 2 ^ (c2 - 52) <= r2 * 2 ^ (c2 - 52))%Q by nra.
    lra.
Qed.

Lemma nearestPositive_nonneg (x : Q) : (0 < x)%Q -> (0 <= nearestPositive x)%Q.
Proof.
  intros Hx. unfold nearestPositive.
  set (c := Z.max (exponent x) (-1022)).
  pose proof (two_pow_pos (52 - c)). pose proof (two_pow_pos (c - 52)).
  assert (H1 : (0 <= roundHalfEven (x * 2 ^ (52 - c)))%Z).
  { apply roundHalfEven_ge. change (inject_Z 0) with 0%Q. nra. }
  rewrite Zle_Qle in H1. change (inject_Z 0) with 0%Q in H1. nra.
Qed.

Lemma Qnum_sign (q : Q) :
  match Qnum q with
  | Z0 => (q == 0)%Q
  | Zpos _ => (0 < q)%Q
  | Zneg _ => (q < 0)%Q
  end.
Proof.
  destruct q as [[|p|p] d]; cbn [Qnum].
  - reflexivity.
  - unfold Qlt. cbn. lia.
  - unfold Qlt. cbn. lia.
Qed.

Lemma nearest_nonneg (x : Q) : (0 <= x)%Q -> (0 <= nearest x)%Q.
Proof.
  intros Hx. unfold nearest. pose proof (Qnum_sign x) as Hs.
  destruct (Qnum x).
  - lra.
  - now apply nearestPositive_nonneg.
  - lra.
Qed.

Lemma nearest_nonpos (x : Q) : (x <= 0)%Q -> (nearest x <= 0)%Q.
Proof.
  intros Hx. unfold nearest. pose proof (Qnum_sign x) as Hs.
  destruct (Qnum x).
  - lra.
  - lra.
  - assert (H : (0 <= nearestPositive (- x))%Q)
      by (apply nearestPositive_nonneg; lra).
    lra.
Qed.

(** Rounding to the nearest double is monotone. *)
Lemma nearest_mono (x y : Q) : (x <= y)%Q -> (nearest x <= nearest y)%Q.
Proof.
  intros Hxy. destruct (Qlt_le_dec x 0) as [Hx|Hx].
  - destruct (Qlt_le_dec y 0) as [Hy|Hy].
    + unfold nearest. pose proof (Qnum_sign x) as Hsx.
      pose proof (Qnum_sign y) as Hsy.
      destruct (Qnum x); try lra. destruct (Qnum y); try lra.
      assert (H : (nearestPositive (- y) <= nearestPositive (- x))%Q)
        by (apply nearestPositive_mono; lra).
      lra.
    + pose proof (nearest_nonpos x ltac:(lra)).
      pose proof (nearest_nonneg y Hy). lra.
  - unfold nearest at 1. pose proof (Qnum_sign x) as Hs.
    destruct (Qnum x).
    + apply nearest_nonneg. lra.
    + unfold nearest. pose proof (Qnum_sign y) as Hsy.
      destruct (Qnum y); try lra. now apply nearestPositive_mono.
    + lra.
Qed.

Lemma nearest_Qeq (x y : Q) : (x == y)%Q -> (nearest x == nearest y)%Q.
Proof.
  intros H. apply Qle_antisym; apply nearest_mono; lra.
Qed.

Lemma roundHalfEven_error (q : Q) :
  (- (1 # 2) <= inject_Z (roundHalfEven q) - q <= 1 # 2)%Q.
Proof.
  unfold roundHalfEven.
  pose proof (Qfloor_le q) as H1. pose proof (Qlt_floor q) as H2.
  rewrite inject_Z_plus in H2. change (inject_Z 1) with 1%Q in H2.
  destruct (Qcompare_spec (q - inject_Z (Qfloor q)) (1 # 2)) as [H|H|H].
  - destruct (Z.even (Qfloor q)); [lra|].
    rewrite inject_Z_plus. change (inject_Z 1) with 1%Q. lra.
  - lra.
  - rewrite inject_Z_plus. change (inject_Z 1) with 1%Q. lra.
Qed.

(** Below [2^k] a rounded value is within half a unit in the last place,
    [2^(k-54)], of the exact one. *)
Lemma nearest_error (x : Q) (k : Z) :
  (0 <= x)%Q -> (x < 2 ^ k)%Q -> (-1021 <= k)%Z ->
  (- 2 ^ (k - 54) <= nearest x - x <= 2 ^ (k - 54))%Q.
Proof.
  intros Hx Hk Hmin. pose proof (two_pow_pos (k - 54)) as Hp.
  unfold nearest. pose proof (Qnum_sign x) as Hs.
  destruct (Qnum x); [lra| |lra].
  destruct (exponent_spec x Hs) as [He1 He2].
  assert (He : (exponent x <= k - 1)%Z).
  { apply two_pow_lt_inv. replace (k - 1 + 1)%Z with k by lia. lra. }
  unfold nearestPositive.
  set (c := Z.max (exponent x) (-1022)).
  assert (Hc : (c <= k - 1)%Z) by lia.
  pose proof (roundHalfEven_error (x * 2 ^ (52 - c))) as Hr.
  set (r := inject_Z (roundHalfEven (x * 2 ^ (52 - c)))) in *.
  assert (E : (2 ^ (52 - c) * 2 ^ (c - 52) == 1)%Q).
  { rewrite <- two_pow_add. now replace (52 - c + (c - 52))%Z with 0%Z by lia. }
  assert (E2 : ((1 # 2) * 2 ^ (c - 52) == 2 ^ (c - 53))%Q).
  { change (1 # 2)%Q with (2 ^ (-1))%Q. rewrite <- two_pow_add.
    now replace (-1 + (c - 52))%Z with (c - 53)%Z by lia. }
  assert (E3 : (2 ^ (c - 53) <= 2 ^ (k - 54))%Q) by (apply two_pow_le; lia).
  pose proof (two_pow_pos (c - 52)) as Hp1.
  pose proof (two_pow_pos (52 - c)) as Hp2.
  assert (E4 : (r * 2 ^ (c - 52) - x
                == (r - x * 2 ^ (52 - c)) * 2 ^ (c - 52))%Q).
  { assert (E5 : (x * 2 ^ (52 - c) * 2 ^ (c - 52) == x)%Q)
      by (rewrite <- Qmult_assoc, E; ring).
    rewrite <- E5 at 1. ring. }
  rewrite E4.
  set (d := (r - x * 2 ^ (52 - c))%Q) in *.
  assert (d * 2 ^ (c - 52) <= (1 # 2) * 2 ^ (c - 52))%Q by nra.
  assert (- ((1 # 2) * 2 ^ (c - 52)) <= d * 2 ^ (c - 52))%Q by nra.
  lra.
Qed.

(** A value with at most 53 significant bits, above the smallest exponent,
    is a double: rounding leaves it as it is. *)
Lemma nearest_dyadic (n k : Z) :
  (0 <= n < 2 ^ 53)%Z -> (-1074 <= k)%Z ->
  (nearest (inject_Z n * 2 ^ k) == inject_Z n * 2 ^ k)%Q.
Proof.
  intros Hn Hk. pose proof (two_pow_pos k) as Hpk.
  destruct (Z.eq_dec n 0%Z) as [->|Hn0].
  { unfold nearest. change (inject_Z 0) with 0%Q.
    pose proof (Qnum_sign (0 * 2 ^ k)) as Hs.
    destruct (Qnum (0 * 2 ^ k)); lra. }
  assert (Hpos : (0 < n)%Z) by lia.
  set (x := (inject_Z n * 2 ^ k)%Q).
  assert (Hn' : (0 < inject_Z n)%Q).
  { change 0%Q with (inject_Z 0). rewrite <- Zlt_Qlt. exact Hpos. }
  assert (Hx : (0 < x)%Q) by (unfold x; nra).
  unfold nearest. pose proof (Qnum_sign x) as Hs.
  destruct (Qnum x); [lra| |lra].
  destruct (exponent_spec x Hx) as [He1 He2].
  pose proof (Z.log2_spec n Hpos) as Hlog. rewrite <- Z.add_1_r in Hlog.
  set (a := Z.log2 n) in *.
  assert (Ha0 : (0 <= a)%Z) by apply Z.log2_nonneg.
  assert (Ha : (a <= 52)%Z).
  { destruct (Z_le_gt_dec a 52) as [|Hgt]; [assumption|exfalso].
    assert ((2 ^ 53 <= 2 ^ a)%Z) by (apply Z.pow_le_mono_r; lia). lia. }
  assert (Hna : (2 ^ a <= inject_Z n)%Q /\ (inject_Z n < 2 ^ (a + 1))%Q).
  { rewrite <- !two_pow_inject by lia. rewrite <- Zle_Qle, <- Zlt_Qlt.
    exact Hlog. }
  assert (Hxa : (2 ^ (a + k) <= x)%Q /\ (x < 2 ^ (a + k + 1))%Q).
  { replace (a + k + 1)%Z with (a + 1 + k)%Z by lia.
    rewrite (two_pow_add a k), (two_pow_add (a + 1) k).
    destruct Hna as [Hna1 Hna2]. unfold x. split; nra. }
  assert (He : exponent x = (a + k)%Z).
  { assert ((exponent x <= a + k)%Z) by (apply two_pow_lt_inv; lra).
    assert ((a + k <= exponent x)%Z) by (apply two_pow_lt_inv; lra).
    lia. }
  unfold nearestPositive. rewrite He.
  set (c := Z.max (a + k) (-1022)).
  assert (Ht : (0 <= k + 52 - c)%Z) by lia.
  assert (E : (x * 2 ^ (52 - c) == inject_Z (n * 2 ^ (k + 52 - c)))%Q).
  { rewrite inject_Z_mult, two_pow_inject by lia. unfold x.
    replace (k + 52 - c)%Z with (k + (52 - c))%Z by lia.
    rewrite two_pow_add. ring. }
  assert (Hr : roundHalfEven (x * 2 ^ (52 - c)) = (n * 2 ^ (k + 52 - c))%Z).
  { rewrite <- (roundHalfEven_inject_Z (n * 2 ^ (k + 52 - c))).
    apply Z.le_antisymm; apply roundHalfEven_mono; lra. }
  rewrite Hr, inject_Z_mult, two_pow_inject by lia. unfold x.
  rewrite <- Qmult_assoc, <- two_pow_add.
  now replace (k + 52 - c + (c - 52))%Z with k by lia.
Qed.

(** One and a half times a whole number of milliseconds up to [2^51] is a
    double. *)
Lemma nearest_three_halves (m : Z) :
  (0 <= m <= 2 ^ 51)%Z ->
  (nearest ((3 # 2) * inject_Z m) == (3 # 2) * inject_Z m)%Q.
Proof.
  intros Hm.
  assert (E : ((3 # 2) * inject_Z m == inject_Z (3 * m) * 2 ^ (-1))%Q).
  { rewrite inject_Z_mult. change (2 ^ (-1))%Q with (1 # 2)%Q.
    change (inject_Z 3) with 3%Q. ring. }
  rewrite (nearest_Qeq _ _ E), E. apply nearest_dyadic; lia.
Qed.

Lemma nearest_three_halves_fixed : nearest (3 # 2) == 3 # 2.
Proof. vm_compute. reflexivity. Qed.

End RoundingFacts.

(** ** The message packer *)

Section PackerFacts.
Import MessageFormatter.
Variables (maxLength : nat) (header : jsstring).

Lemma findSplitPoint_le (text : jsstring) :
  (_findSplitPoint text <= Z.of_nat (length text))%Z.
Proof.
  unfold _findSplitPoint.
  destruct (Binary64.int_gt (lastIndexOf text NLNL) _) eqn:H1.
  - apply int_gt_floor in H1.
    pose proof (floor_nonneg (length text) Binary64.c0_7 ltac:(discriminate)) as Hf.
    destruct (lastIndexOf_range text NLNL) as [[_ H] | H];
      rewrite ?length_lit_NLNL in H; lia.
  - destruct (Binary64.int_gt (lastIndexOf text [LF]) _) eqn:H2.
    + apply int_gt_floor in H2.
      pose proof (floor_nonneg (length text) Binary64.c0_8 ltac:(discriminate)) as Hf.
      destruct (lastIndexOf_range text [LF]) as [[_ H] | H];
        simpl length in H; lia.
    + apply floor_mul_0_9_le.
Qed.

Lemma findSplitPoint_ge (text : jsstring) :
  (minSplitPoint (length text) <= _findSplitPoint text)%Z.
Proof.
  unfold _findSplitPoint, minSplitPoint.
  destruct (Binary64.int_gt (lastIndexOf text NLNL) _) eqn:H1.
  - apply int_gt_floor in H1. lia.
  - destruct (Binary64.int_gt (lastIndexOf text [LF]) _) eqn:H2.
    + apply int_gt_floor in H2. lia.
    + lia.
Qed.

Lemma minSplitPoint_nonneg (n : nat) : (0 <= minSplitPoint n)%Z.
Proof.
  unfold minSplitPoint.
  pose proof (floor_nonneg n Binary64.c0_7 ltac:(discriminate)).
  pose proof (floor_nonneg n Binary64.c0_8 ltac:(discriminate)).
  pose proof (floor_nonneg n Binary64.c0_9 ltac:(discriminate)).
  lia.
Qed.

Lemma minSplitPoint_lt (n : nat) : 0 < n -> (minSplitPoint n < Z.of_nat n)%Z.
Proof.
  intros Hn. unfold minSplitPoint.
  pose proof (floor_mul_0_9_lt n Hn). lia.
Qed.

Lemma cutAt_range (cur : jsstring) :
  maxLength < length cur ->
  (minSplitPoint maxLength <= Z.of_nat (cutAt maxLength cur) <= Z.of_nat maxLength)%Z.
Proof.
  intros Hlen. unfold cutAt.
  assert (Ht : length (firstn maxLength cur) = maxLength)
    by (rewrite length_firstn; lia).
  pose proof (findSplitPoint_le (firstn maxLength cur)) as Hle.
  pose proof (findSplitPoint_ge (firstn maxLength cur)) as Hge.
  pose proof (minSplitPoint_nonneg maxLength).
  rewrite Ht in Hle, Hge. lia.
Qed.

Lemma hardSplit_done (fuel : nat) (chunks : list jsstring) (cur : jsstring) :
  length cur <= maxLength ->
  hardSplit fuel maxLength header chunks cur = Some (chunks, cur).
Proof.
  intros H. destruct fuel; simpl;
    (replace (maxLength <? length cur) with false
      by (symmetry; apply Nat.ltb_ge; exact H)); reflexivity.
Qed.

Lemma hardSplit_step (fuel : nat) (chunks : list jsstring) (cur : jsstring) :
  maxLength < length cur ->
  hardSplit (S fuel) maxLength header chunks cur =
  hardSplit fuel maxLength header (chunks ++ [firstn (cutAt maxLength cur) cur])
    (header ++ NLNL ++ trim (skipn (cutAt maxLength cur) cur) ++ NLNL).
Proof.
  intros H. pose proof (cutAt_range cur H) as Hk.
  pose proof (minSplitPoint_nonneg maxLength).
  cbn [hardSplit].
  replace (maxLength <? length cur) with true
    by (symmetry; apply Nat.ltb_lt; exact H).
  rewrite (slice_prefix cur (Z.of_nat maxLength)) by lia.
  rewrite Nat2Z.id. fold (cutAt maxLength cur).
  assert (Hsp : (0 <= _findSplitPoint (firstn maxLength cur))%Z).
  { pose proof (findSplitPoint_ge (firstn maxLength cur)) as Hge.
    rewrite length_firstn, Nat.min_l in Hge by lia. lia. }
  rewrite slice_prefix, sliceFrom_suffix by exact Hsp.
  reflexivity.
Qed.

Lemma hardSplit_out_of_fuel (chunks : list jsstring) (cur : jsstring) :
  maxLength < length cur -> hardSplit 0 maxLength header chunks cur = None.
Proof.
  intros H. simpl.
  now replace (maxLength <? length cur) with true
    by (symmetry; apply Nat.ltb_lt; exact H).
Qed.

(** *** The ceiling *)

Lemma hardSplit_ceiling (fuel : nat) :
  forall chunks cur chunks' cur',
    Forall (fun c => length c <= maxLength) chunks ->
    hardSplit fuel maxLength header chunks cur = Some (chunks', cur') ->
    Forall (fun c => length c <= maxLength) chunks' /\ length cur' <= maxLength.
Proof.
  induction fuel as [|fuel IH]; intros chunks cur chunks' cur' Hall Hrun;
    destruct (Nat.lt_ge_cases maxLength (length cur)) as [Hlong | Hfit].
  - rewrite hardSplit_out_of_fuel in Hrun by exact Hlong. discriminate.
  - rewrite hardSplit_done in Hrun by exact Hfit.
    injection Hrun as <- <-. now split.
  - rewrite hardSplit_step in Hrun by exact Hlong.
    apply IH in Hrun; [exact Hrun|].
    apply Forall_app. split; [exact Hall|].
    constructor; [|constructor].
    pose proof (cutAt_range cur Hlong). rewrite length_firstn. lia.
  - rewrite hardSplit_done in Hrun by exact Hfit.
    injection Hrun as <- <-. now split.
Qed.

Lemma packSections_ceiling (fuel : nat) (sections : list jsstring) :
  forall chunks cur chunks' cur',
    Forall (fun c => length c <= maxLength) chunks ->
    length cur <= maxLength \/ length cur <= length header + 2 ->
    packSections fuel maxLength header sections chunks cur
      = Some (chunks', cur') ->
    Forall (fun c => length c <= maxLength) chunks' /\
    (length cur' <= maxLength \/ length cur' <= length header + 2).
Proof.
  induction sections as [|s rest IH]; intros chunks cur chunks' cur' Hall Hcur Hrun.
  - injection Hrun as <- <-. now split.
  - cbn [packSections] in Hrun.
    destruct (maxLength <? length (cur ++ s ++ NLNL)) eqn:Htest.
    + destruct (hardSplit fuel maxLength header _ _) as [[chunks1 cur1]|] eqn:Hhs;
        [|discriminate].
      apply hardSplit_ceiling in Hhs as [Hall1 Hcur1].
      * apply (IH _ _ _ _ Hall1 (or_introl Hcur1) Hrun).
      * destruct (length header + 2 <? length cur) eqn:Hpush; [|exact Hall].
        apply Nat.ltb_lt in Hpush. apply Forall_app. split; [exact Hall|].
        constructor; [lia | constructor].
    + apply Nat.ltb_ge in Htest. apply (IH _ _ _ _ Hall (or_introl Htest) Hrun).
Qed.

End PackerFacts.

(** *** Termination of the hard split *)

Lemma whitespace_suffix_NLNL (j : nat) :
  forallb isWhiteSpace (skipn j NLNL) = true.
Proof. destruct j as [|[|[|j]]]; reflexivity. Qed.

(** What is left after a cut, once trimmed, is no longer than the part of the
    chunk before its closing blank line. *)
Lemma length_trim_rest (P : jsstring) (k : nat) :
  length (trim (skipn k (P ++ NLNL))) <= length P - k.
Proof.
  rewrite skipn_app, trim_app_whitespace by apply whitespace_suffix_NLNL.
  etransitivity; [apply length_trim|]. now rewrite length_skipn.
Qed.

Lemma header_fits (maxLength : nat) (header : jsstring) :
  (Z.of_nat (length header) + 3 <= MessageFormatter.minSplitPoint maxLength)%Z ->
  length header + 4 <= maxLength.
Proof.
  intros Hmin. destruct maxLength as [|n].
  - assert (E : MessageFormatter.minSplitPoint 0 = 0%Z) by reflexivity.
    rewrite E in Hmin. lia.
  - pose proof (minSplitPoint_lt (S n) ltac:(lia)). lia.
Qed.

Lemma hardSplit_terminates (maxLength : nat) (header : jsstring) :
  (Z.of_nat (length header) + 3 <= MessageFormatter.minSplitPoint maxLength)%Z ->
  forall fuel chunks Y,
    length (header ++ NLNL ++ Y ++ NLNL) <= fuel + maxLength ->
    exists r,
      MessageFormatter.hardSplit fuel maxLength header chunks
        (header ++ NLNL ++ Y ++ NLNL) = Some r.
Proof.
  intros Hmin. pose proof (header_fits _ _ Hmin) as Hfit.
  induction fuel as [|fuel IH]; intros chunks Y Hfuel.
  - rewrite hardSplit_done by (simpl in Hfuel; exact Hfuel). eauto.
  - set (cur := header ++ NLNL ++ Y ++ NLNL) in *.
    destruct (Nat.lt_ge_cases maxLength (length cur)) as [Hlong | Hshort];
      [|rewrite hardSplit_done by exact Hshort; eauto].
    rewrite hardSplit_step by exact Hlong.
    apply IH.
    pose proof (cutAt_range maxLength cur Hlong) as Hk.
    pose proof (length_trim_rest (header ++ NLNL ++ Y) (cutAt maxLength cur)) as Hrest.
    replace ((header ++ NLNL ++ Y) ++ NLNL) with cur in Hrest
      by (unfold cur; now rewrite <- !app_assoc).
    assert (HP : length (header ++ NLNL ++ Y) = length header + 2 + length Y)
      by (rewrite !length_app; simpl; lia).
    assert (Hcur : length cur = length header + 2 + length Y + 2)
      by (unfold cur; rewrite !length_app; simpl; lia).
    rewrite HP in Hrest.
    rewrite !length_app. change (length NLNL) with 2. lia.
Qed.

Lemma packSections_terminates (maxLength : nat) (header : jsstring) :
  (Z.of_nat (length header) + 3 <= MessageFormatter.minSplitPoint maxLength)%Z ->
  forall fuel sections chunks cur,
    Forall (fun s => length header + 4 + length s <= fuel + maxLength) sections ->
    exists r,
      MessageFormatter.packSections fuel maxLength header sections chunks cur
        = Some r.
Proof.
  intros Hmin fuel sections.
  induction sections as [|s rest IH]; intros chunks cur Hall; [simpl; eauto|].
  apply Forall_cons_iff in Hall as [Hs Hall].
  cbn [MessageFormatter.packSections].
  destruct (maxLength <? length (cur ++ s ++ NLNL)); [|now apply IH].
  match goal with
  | |- context [MessageFormatter.hardSplit _ _ _ ?c _] =>
      destruct (hardSplit_terminates maxLength header Hmin fuel c s)
        as [[chunks1 cur1] ->]
  end.
  - rewrite !length_app. simpl. lia.
  - now apply IH.
Qed.

(** *** What the chunks contain *)

Section PackerContent.
Import MessageFormatter.
Variables (maxLength : nat) (header : jsstring).
Variable f : jsstring -> jsstring.
Variable ok : jsstring -> Prop.
Hypothesis f_app : forall a b, f (a ++ b) = f a ++ f b.
Hypothesis hard_ok : forall fuel bodies s chunks' cur',
  ok s ->
  hardSplit fuel maxLength header (map (fun b => header ++ NLNL ++ b) bodies)
    (header ++ NLNL ++ s ++ NLNL) = Some (chunks', cur') ->
  exists bodies' body',
    chunks' = map (fun b => header ++ NLNL ++ b) bodies' /\
    cur' = header ++ NLNL ++ body' /\
    f (concat bodies' ++ body') = f (concat bodies ++ s ++ NLNL).

Lemma body_empty (body : jsstring) :
  length (header ++ NLNL ++ body) <= length header + 2 -> body = [].
Proof.
  rewrite !length_app. simpl. destruct body; [reflexivity | simpl; lia].
Qed.

Lemma packSections_content (fuel : nat) (sections : list jsstring) :
  forall bodies body chunks' cur',
    Forall ok sections ->
    packSections fuel maxLength header sections
      (map (fun b => header ++ NLNL ++ b) bodies) (header ++ NLNL ++ body)
      = Some (chunks', cur') ->
    exists bodies' body',
      chunks' = map (fun b => header ++ NLNL ++ b) bodies' /\
      cur' = header ++ NLNL ++ body' /\
      f (concat bodies' ++ body') = f (concat bodies ++ body ++ joined sections).
Proof using f_app hard_ok.
  induction sections as [|s rest IH]; intros bodies body chunks' cur' Hok Hrun.
  - injection Hrun as <- <-. exists bodies, body.
    unfold joined. simpl. now rewrite app_nil_r.
  - apply Forall_cons_iff in Hok as [Hs Hok].
    cbn [packSections] in Hrun.
    destruct (maxLength <? length ((header ++ NLNL ++ body) ++ s ++ NLNL)).
    + assert (Hpushed : exists bodies1,
        (if length header + 2 <? length (header ++ NLNL ++ body)
         then map (fun b => header ++ NLNL ++ b) bodies ++ [header ++ NLNL ++ body]
         else map (fun b => header ++ NLNL ++ b) bodies)
        = map (fun b => header ++ NLNL ++ b) bodies1
        /\ concat bodies1 = concat bodies ++ body).
      { destruct (length header + 2 <? length (header ++ NLNL ++ body)) eqn:Hp.
        - exists (bodies ++ [body]). rewrite map_app, concat_app. simpl.
          now rewrite app_nil_r.
        - apply Nat.ltb_ge, body_empty in Hp. subst body.
          exists bodies. now rewrite app_nil_r. }
      destruct Hpushed as (bodies1 & E & Hcat). cbv zeta in Hrun.
      rewrite E in Hrun. clear E.
      destruct (hardSplit fuel maxLength header _ _) as [[chunks2 cur2]|] eqn:Hhs;
        [|discriminate].
      apply hard_ok in Hhs as (bodies2 & body2 & -> & -> & Hf); [|exact Hs].
      apply IH in Hrun as (bodies' & body' & -> & -> & Hf'); [|exact Hok].
      exists bodies', body'. split; [reflexivity|]. split; [reflexivity|].
      rewrite Hf'. unfold joined. cbn [map concat].
      rewrite (app_assoc (concat bodies2)), f_app, Hf, Hcat, <- f_app.
      f_equal. now rewrite <- !app_assoc.
    + rewrite <- !app_assoc in Hrun.
      apply IH in Hrun as (bodies' & body' & -> & -> & Hf'); [|exact Hok].
      exists bodies', body'. split; [reflexivity|]. split; [reflexivity|].
      rewrite Hf'. unfold joined. cbn [map concat].
      f_equal. now rewrite <- !app_assoc.
Qed.

Lemma snoc_not_nil {A} (l : list A) (x : A) (d : list A) :
  match l ++ [x] with [] => d | _ => l ++ [x] end = l ++ [x].
Proof. destruct l; reflexivity. Qed.

Lemma splitIntoChunks_content (fuel : nat) (sections : list jsstring)
    (footer : jsstring) (chunks : list jsstring) :
  Forall ok sections ->
  _splitIntoChunks fuel maxLength header sections footer = Some chunks ->
  exists bodies last,
    framed header footer chunks bodies last /\
    f (concat bodies ++ last) = f (joined sections).
Proof using f_app hard_ok.
  intros Hok Hrun. unfold _splitIntoChunks in Hrun.
  destruct (packSections fuel maxLength header sections [] (header ++ NLNL))
    as [[chunks1 cur1]|] eqn:Hpack; [|discriminate].
  replace (header ++ NLNL) with (header ++ NLNL ++ []) in Hpack
    by now rewrite app_nil_r.
  apply (packSections_content fuel sections [] []) in Hpack
    as (bodies & body & -> & -> & Hf); [|exact Hok].
  simpl in Hf. apply (inj Some) in Hrun. unfold framed.
  destruct (maxLength <? length ((header ++ NLNL ++ body) ++ footer)).
  - destruct (length header + 2 <? length (header ++ NLNL ++ body)) eqn:Hp;
      rewrite snoc_not_nil in Hrun; subst chunks.
    + exists (bodies ++ [body]), [].
      rewrite map_app, concat_app. simpl. rewrite !app_nil_r. now split.
    + apply Nat.ltb_ge, body_empty in Hp. subst body.
      exists bodies, []. now split.
  - destruct (length header + 2 <? length ((header ++ NLNL ++ body) ++ footer))
      eqn:Hp.
    + rewrite snoc_not_nil in Hrun; subst chunks.
      exists bodies, body.
      split; [|exact Hf]. now rewrite <- !app_assoc.
    + apply Nat.ltb_ge in Hp.
      assert (body = [] /\ footer = []) as [-> ->].
      { rewrite !length_app in Hp. change (length NLNL) with 2 in Hp.
        destruct body, footer; simpl in Hp; try lia. now split. }
      destruct bodies as [|b bs _] using rev_ind; simpl in Hrun; subst chunks.
      * exists [], []. now split.
      * rewrite map_app. simpl map. rewrite snoc_not_nil.
        exists bs, b. rewrite !app_nil_r. split; [reflexivity|].
        rewrite concat_app in Hf. simpl in Hf. now rewrite !app_nil_r in Hf.
Qed.

End PackerContent.

Lemma nonWhiteSpace_app (a b : jsstring) :
  nonWhiteSpace (a ++ b) = nonWhiteSpace a ++ nonWhiteSpace b.
Proof. apply List.filter_app. Qed.

Lemma nonWhiteSpace_trimStart (s : jsstring) :
  nonWhiteSpace (trimStart s) = nonWhiteSpace s.
Proof.
  induction s as [|c s IH]; [reflexivity|].
  simpl. destruct (isWhiteSpace c) eqn:Hc; simpl; [exact IH|].
  now rewrite Hc.
Qed.

(** [trim] removes white space only. *)
Lemma nonWhiteSpace_trim (s : jsstring) :
  nonWhiteSpace (trim s) = nonWhiteSpace s.
Proof.
  unfold trim, trimEnd, nonWhiteSpace.
  rewrite List.filter_rev. fold (nonWhiteSpace (trimStart (rev (trimStart s)))).
  rewrite nonWhiteSpace_trimStart. unfold nonWhiteSpace.
  rewrite List.filter_rev, rev_involutive. apply nonWhiteSpace_trimStart.
Qed.

Lemma nonWhiteSpace_joined (sections : list jsstring) :
  nonWhiteSpace (joined sections) = nonWhiteSpace (concat sections).
Proof.
  unfold joined. induction sections as [|s rest IH]; [reflexivity|].
  cbn [map concat]. rewrite !nonWhiteSpace_app, IH.
  change (nonWhiteSpace NLNL) with (@nil N). now rewrite app_nil_r.
Qed.

(** A section that fits after a fresh header is not split. *)
Lemma hardSplit_content_exact (maxLength : nat) (header : jsstring) :
  forall fuel bodies s chunks' cur',
    length header + 4 + length s <= maxLength ->
    MessageFormatter.hardSplit fuel maxLength header
      (map (fun b => header ++ NLNL ++ b) bodies)
      (header ++ NLNL ++ s ++ NLNL) = Some (chunks', cur') ->
    exists bodies' body',
      chunks' = map (fun b => header ++ NLNL ++ b) bodies' /\
      cur' = header ++ NLNL ++ body' /\
      id (concat bodies' ++ body') = id (concat bodies ++ s ++ NLNL).
Proof.
  intros fuel bodies s chunks' cur' Hfit Hrun.
  rewrite hardSplit_done in Hrun
    by (rewrite !length_app; change (length NLNL) with 2; lia).
  injection Hrun as <- <-. now exists bodies, (s ++ NLNL).
Qed.

(** A hard split keeps every code unit that is not white space. *)
Lemma hardSplit_content (maxLength : nat) (header : jsstring) :
  (Z.of_nat (length header) + 3 <= MessageFormatter.minSplitPoint maxLength)%Z ->
  forall fuel bodies Y chunks' cur',
    MessageFormatter.hardSplit fuel maxLength header
      (map (fun b => header ++ NLNL ++ b) bodies)
      (header ++ NLNL ++ Y ++ NLNL) = Some (chunks', cur') ->
    exists bodies' Y',
      chunks' = map (fun b => header ++ NLNL ++ b) bodies' /\
      cur' = header ++ NLNL ++ Y' ++ NLNL /\
      nonWhiteSpace (concat bodies' ++ Y') = nonWhiteSpace (concat bodies ++ Y).
Proof.
  intros Hmin.
  induction fuel as [|fuel IH]; intros bodies Y chunks' cur' Hrun;
    set (cur := header ++ NLNL ++ Y ++ NLNL) in *;
    destruct (Nat.lt_ge_cases maxLength (length cur)) as [Hlong | Hshort];
    try (rewrite hardSplit_done in Hrun by exact Hshort;
         injection Hrun as <- <-; now exists bodies, Y).
  - rewrite hardSplit_out_of_fuel in Hrun by exact Hlong. discriminate.
  - rewrite hardSplit_step in Hrun by exact Hlong.
    pose proof (cutAt_range maxLength cur Hlong) as Hk.
    set (k := cutAt maxLength cur) in *.
    assert (Hfirst : firstn k cur
                     = header ++ NLNL ++ firstn (k - (length header + 2)) (Y ++ NLNL)).
    { unfold cur. rewrite (app_assoc header NLNL), firstn_app.
      rewrite firstn_all2 by (rewrite length_app; simpl; lia).
      rewrite length_app. now rewrite <- app_assoc. }
    assert (Hrest : skipn k cur = skipn (k - (length header + 2)) (Y ++ NLNL)).
    { unfold cur. rewrite (app_assoc header NLNL), skipn_app.
      rewrite skipn_all2 by (rewrite length_app; simpl; lia).
      now rewrite length_app. }
    rewrite Hfirst, Hrest in Hrun.
    set (j := k - (length header + 2)) in *.
    change (map (fun b => header ++ NLNL ++ b) bodies
            ++ [header ++ NLNL ++ firstn j (Y ++ NLNL)])
      with (map (fun b => header ++ NLNL ++ b) bodies
            ++ map (fun b => header ++ NLNL ++ b) [firstn j (Y ++ NLNL)]) in Hrun.
    rewrite <- map_app in Hrun.
    apply IH in Hrun as (bodies' & Y' & -> & -> & Hf).
    exists bodies', Y'. split; [reflexivity|]. split; [reflexivity|].
    rewrite Hf, concat_app. simpl concat. rewrite app_nil_r.
    rewrite !nonWhiteSpace_app, nonWhiteSpace_trim, <- !app_assoc.
    f_equal. rewrite <- nonWhiteSpace_app, firstn_skipn, nonWhiteSpace_app.
    change (nonWhiteSpace NLNL) with (@nil N). now rewrite app_nil_r.
Qed.

Lemma hardSplit_content_trimmed (maxLength : nat) (header : jsstring) :
  (Z.of_nat (length header) + 3 <= MessageFormatter.minSplitPoint maxLength)%Z ->
  forall fuel bodies s chunks' cur',
    True ->
    MessageFormatter.hardSplit fuel maxLength header
      (map (fun b => header ++ NLNL ++ b) bodies)
      (header ++ NLNL ++ s ++ NLNL) = Some (chunks', cur') ->
    exists bodies' body',
      chunks' = map (fun b => header ++ NLNL ++ b) bodies' /\
      cur' = header ++ NLNL ++ body' /\
      nonWhiteSpace (concat bodies' ++ body')
      = nonWhiteSpace (concat bodies ++ s ++ NLNL).
Proof.
  intros Hmin fuel bodies s chunks' cur' _ Hrun.
  apply (hardSplit_content _ _ Hmin) in Hrun as (bodies' & Y' & -> & -> & Hf).
  exists bodies', (Y' ++ NLNL). split; [reflexivity|]. split; [reflexivity|].
  rewrite !app_assoc, !(nonWhiteSpace_app _ NLNL). now rewrite Hf.
Qed.

Lemma length_section_le (sections : list jsstring) (s : jsstring) :
  In s sections -> length s <= length (concat sections).
Proof.
  induction sections as [|t rest IH]; [intros []|].
  intros [-> | Hin]; simpl; rewrite length_app; [lia|].
  specialize (IH Hin). lia.
Qed.

Lemma enough_fuel (maxLength fuel : nat) (header : jsstring)
    (sections : list jsstring) :
  length header + 4 + length (concat sections) <= fuel ->
  Forall (fun s => length header + 4 + length s <= fuel + maxLength) sections.
Proof.
  intros Hfuel. apply List.Forall_forall. intros s Hin.
  apply length_section_le in Hin. lia.
Qed.

Lemma packSections_fits (maxLength : nat) (header : jsstring) (fuel : nat) :
  forall sections chunks cur,
    Forall (fun s => length header + 4 + length s <= maxLength) sections ->
    exists r,
      MessageFormatter.packSections fuel maxLength header sections chunks cur
        = Some r.
Proof.
  induction sections as [|s rest IH]; intros chunks cur Hall; [simpl; eauto|].
  apply Forall_cons_iff in Hall as [Hs Hall].
  cbn [MessageFormatter.packSections].
  destruct (maxLength <? length (cur ++ s ++ NLNL)); [|now apply IH].
  rewrite hardSplit_done
    by (rewrite !length_app; change (length NLNL) with 2; lia).
  now apply IH.
Qed.

Lemma splitIntoChunks_returns (maxLength fuel : nat) (header : jsstring)
    (sections : list jsstring) (footer : jsstring) :
  (exists r, MessageFormatter.packSections fuel maxLength header sections []
               (header ++ NLNL) = Some r) ->
  exists chunks,
    MessageFormatter._splitIntoChunks fuel maxLength header sections footer
      = Some chunks.
Proof.
  intros [[chunks cur] Hr]. unfold MessageFormatter._splitIntoChunks.
  rewrite Hr. eauto.
Qed.

(** The ceiling holds for whatever the packer returns, except for the chunk
    made of header and footer alone. *)
Lemma splitIntoChunks_ceiling_partial (maxLength fuel : nat)
    (header : jsstring) (sections : list jsstring) (footer : jsstring)
    (chunks : list jsstring) :
  MessageFormatter._splitIntoChunks fuel maxLength header sections footer
    = Some chunks ->
  Forall (fun c => length c <= maxLength \/ c = header ++ NLNL ++ footer) chunks.
Proof.
  unfold MessageFormatter._splitIntoChunks. intros Hrun.
  destruct (MessageFormatter.packSections fuel maxLength header sections []
              (header ++ NLNL)) as [[chunks1 cur1]|] eqn:Hpack; [|discriminate].
  apply packSections_ceiling in Hpack as [Hall Hcur];
    [|constructor | right; rewrite length_app; simpl; lia].
  apply (inj Some) in Hrun.
  assert (Hweak : Forall (fun c => length c <= maxLength
                                  \/ c = header ++ NLNL ++ footer) chunks1).
  { eapply List.Forall_impl; [|exact Hall]. intros c Hc; now left. }
  destruct (maxLength <? length (cur1 ++ footer)) eqn:Hfooter.
  - rewrite snoc_not_nil in Hrun. subst chunks.
    apply Forall_app. split; [|constructor; [now right | constructor]].
    destruct (length header + 2 <? length cur1) eqn:Hp; [|exact Hweak].
    apply Nat.ltb_lt in Hp. apply Forall_app. split; [exact Hweak|].
    constructor; [left; lia | constructor].
  - apply Nat.ltb_ge in Hfooter.
    destruct (length header + 2 <? length (cur1 ++ footer)).
    + rewrite snoc_not_nil in Hrun. subst chunks.
      apply Forall_app. split; [exact Hweak|].
      constructor; [now left | constructor].
    + destruct chunks1; subst chunks; [|exact Hweak].
      constructor; [now right | constructor].
Qed.

(** *** More fuel changes nothing once the loop has ended *)

Lemma hardSplit_fuel_mono (maxLength : nat) (header : jsstring) (k : nat) :
  forall fuel chunks cur r,
    MessageFormatter.hardSplit fuel maxLength header chunks cur = Some r ->
    MessageFormatter.hardSplit (fuel + k) maxLength header chunks cur = Some r.
Proof.
  induction fuel as [|fuel IH]; intros chunks cur r Hrun;
    destruct (Nat.lt_ge_cases maxLength (length cur)) as [Hlong | Hshort];
    try (rewrite hardSplit_done in Hrun |- * by exact Hshort; exact Hrun).
  - rewrite hardSplit_out_of_fuel in Hrun by exact Hlong. discriminate.
  - change (S fuel + k) with (S (fuel + k)).
    rewrite hardSplit_step in Hrun |- * by exact Hlong. now apply IH.
Qed.

Lemma packSections_fuel_mono (maxLength : nat) (header : jsstring)
    (fuel k : nat) :
  forall sections chunks cur r,
    MessageFormatter.packSections fuel maxLength header sections chunks cur
      = Some r ->
    MessageFormatter.packSections (fuel + k) maxLength header sections chunks cur
      = Some r.
Proof.
  induction sections as [|s rest IH]; intros chunks cur r Hrun; [exact Hrun|].
  cbn [MessageFormatter.packSections] in Hrun |- *.
  destruct (maxLength <? length (cur ++ s ++ NLNL)); [|now apply IH].
  destruct (MessageFormatter.hardSplit fuel maxLength header _ _)
    as [[chunks1 cur1]|] eqn:Hhs; [|discriminate].
  rewrite (hardSplit_fuel_mono _ _ k _ _ _ _ Hhs). now apply IH.
Qed.

Lemma splitIntoChunks_fuel_mono (maxLength fuel k : nat) (header : jsstring)
    (sections : list jsstring) (footer : jsstring) (chunks : list jsstring) :
  MessageFormatter._splitIntoChunks fuel maxLength header sections footer
    = Some chunks ->
  MessageFormatter._splitIntoChunks (fuel + k) maxLength header sections footer
    = Some chunks.
Proof.
  unfold MessageFormatter._splitIntoChunks.
  destruct (MessageFormatter.packSections fuel maxLength header sections []
              (header ++ NLNL)) as [r|] eqn:Hpack; [|discriminate].
  now rewrite (packSections_fuel_mono _ _ _ k _ _ _ _ Hpack).
Qed.

(** *** A header too long for the limit: the loop never ends *)

Lemma hardSplit_diverges (maxLength : nat) (header : jsstring) :
  maxLength < length header + 4 ->
  forall fuel chunks cur,
    maxLength < length cur ->
    MessageFormatter.hardSplit fuel maxLength header chunks cur = None.
Proof.
  intros Hlong. induction fuel as [|fuel IH]; intros chunks cur Hcur.
  - now apply hardSplit_out_of_fuel.
  - rewrite hardSplit_step by exact Hcur. apply IH.
    rewrite !length_app. change (length NLNL) with 2. lia.
Qed.

Lemma splitIntoChunks_diverges (maxLength fuel : nat) (header : jsstring)
    (s : jsstring) (rest : list jsstring) (footer : jsstring) :
  maxLength < length header + 4 ->
  MessageFormatter._splitIntoChunks fuel maxLength header (s :: rest) footer
    = None.
Proof.
  intros Hlong. unfold MessageFormatter._splitIntoChunks.
  cbn [MessageFormatter.packSections].
  replace (maxLength <? length ((header ++ NLNL) ++ s ++ NLNL)) with true
    by (symmetry; apply Nat.ltb_lt; rewrite !length_app;
        change (length NLNL) with 2; lia).
  rewrite hardSplit_diverges; [reflexivity | exact Hlong |].
  rewrite !length_app. change (length NLNL) with 2. lia.
Qed.

(** *** Framing *)

Lemma framed_inj (header footer : jsstring) (chunks bodies1 bodies2 : list jsstring)
    (last1 last2 : jsstring) :
  framed header footer chunks bodies1 last1 ->
  framed header footer chunks bodies2 last2 ->
  bodies1 = bodies2 /\ last1 = last2.
Proof.
  unfold framed. intros -> H. apply app_inj_tail in H as [Hb Hl].
  split.
  - clear Hl. revert bodies2 Hb.
    induction bodies1 as [|b bs IH]; intros [|c cs] Hb; try discriminate;
      [reflexivity|].
    cbn [map] in Hb. injection Hb as Hb Hbs.
    apply app_inv_head in Hb. injection Hb as Hb.
    f_equal; [exact Hb | now apply IH].
  - apply app_inv_head, app_inv_head in Hl. now apply app_inv_tail in Hl.
Qed.

(** Every code unit of a body occurs in some chunk. *)
Lemma framed_content_in_chunks (header footer : jsstring)
    (chunks bodies : list jsstring) (last : jsstring) (c : N) :
  framed header footer chunks bodies last ->
  In c (concat bodies ++ last) -> In c (concat chunks).
Proof.
  unfold framed. intros -> Hin. rewrite concat_app. cbn [concat].
  rewrite app_nil_r.
  apply in_app_or in Hin as [Hin | Hin]; apply in_or_app.
  - left. apply in_concat in Hin as (b & Hb & Hc). apply in_concat.
    exists (header ++ NLNL ++ b). split; [exact (in_map (fun b => header ++ NLNL ++ b) _ _ Hb)|].
    apply in_or_app. right. apply in_or_app. now right.
  - right. apply in_or_app. right. apply in_or_app. right.
    apply in_or_app. now left.
Qed.

(** *** The packer's properties *)

(** C1 (amended).  When the header is short enough for the cut rule to make
    progress, [_splitIntoChunks] returns, and every chunk it returns has at
    most [maxLength] code units, except possibly the chunk made of header,
    blank line and footer alone, which is emitted whole; so every chunk is
    within the limit as soon as header, blank line and footer together are. *)
Theorem splitIntoChunks_ceiling (maxLength fuel : nat) (header : jsstring)
    (sections : list jsstring) (footer : jsstring) :
  (Z.of_nat (length header) + 3 <= MessageFormatter.minSplitPoint maxLength)%Z ->
  length header + 4 + length (concat sections) <= fuel ->
  exists chunks,
    MessageFormatter._splitIntoChunks fuel maxLength header sections footer
      = Some chunks /\
    Forall (fun c => length c <= maxLength \/ c = header ++ NLNL ++ footer)
      chunks /\
    (length header + 2 + length footer <= maxLength ->
     Forall (fun c => length c <= maxLength) chunks).
Proof.
  intros Hmin Hfuel.
  destruct (splitIntoChunks_returns maxLength fuel header sections footer)
    as [chunks Hrun].
  { apply packSections_terminates; [exact Hmin|]. now apply enough_fuel. }
  exists chunks. split; [exact Hrun|].
  pose proof (splitIntoChunks_ceiling_partial _ _ _ _ _ _ Hrun) as Hall.
  split; [exact Hall|]. intros Hfooter.
  eapply List.Forall_impl; [|exact Hall].
  intros c [Hc | ->]; [exact Hc|].
  rewrite !length_app. change (length NLNL) with 2. lia.
Qed.

Lemma splitIntoChunks_ceiling_witness :
  (Z.of_nat (length (lit "H")) + 3 <= MessageFormatter.minSplitPoint 5)%Z /\
  length (lit "H") + 4 + length (concat [lit "AAAA"; lit "BB"]) <= 11 /\
  exists chunks,
    MessageFormatter._splitIntoChunks 11 5 (lit "H") [lit "AAAA"; lit "BB"]
      (lit "F") = Some chunks /\
    Forall (fun c => length c <= 5 \/ c = lit "H" ++ NLNL ++ lit "F") chunks /\
    (length (lit "H") + 2 + length (lit "F") <= 5 ->
     Forall (fun c => length c <= 5) chunks).
Proof.
  split; [vm_compute; discriminate|].
  split; [vm_compute; lia|].
  apply splitIntoChunks_ceiling; [vm_compute; discriminate | vm_compute; lia].
Defined.

(** C1 as stated fails: with limit 10, header "H", the one section "AAAA" and
    a footer of ten code units, the footer does not fit the open chunk and is
    emitted with the header as a chunk of 13 code units. *)
Lemma footer_chunk_exceeds_ceiling :
  exists chunks c,
    MessageFormatter._splitIntoChunks 0 10 (lit "H") [lit "AAAA"]
      (lit "FFFFFFFFFF") = Some chunks /\
    In c chunks /\ 10 < length c.
Proof.
  exists [lit "H" ++ NLNL ++ lit "AAAA" ++ NLNL;
          lit "H" ++ NLNL ++ lit "FFFFFFFFFF"],
         (lit "H" ++ NLNL ++ lit "FFFFFFFFFF").
  split; [reflexivity|]. split; [right; now left|].
  vm_compute. lia.
Qed.

(** *** What the bodies are made of *)

Lemma present_nonempty (body : jsstring) : Forall (fun b => b <> []) (present body).
Proof. destruct body; repeat constructor. discriminate. Qed.

Lemma hardCut_nonempty (text : jsstring) (pieces : list jsstring)
    (left : jsstring) :
  hardCut text pieces left -> Forall (fun b => b <> []) pieces.
Proof. induction 1; constructor; assumption. Qed.

Section PackerPieces.
Import MessageFormatter.
Variables (maxLength : nat) (header : jsstring).
Hypothesis Hmin :
  (Z.of_nat (length header) + 3 <= minSplitPoint maxLength)%Z.

(** The loop of the hard split cuts pieces off the text that follows the
    header. *)
Lemma hardSplit_cut (fuel : nat) :
  forall bodies Y chunks' cur',
    hardSplit fuel maxLength header
      (map (fun b => header ++ NLNL ++ b) bodies)
      (header ++ NLNL ++ Y ++ NLNL) = Some (chunks', cur') ->
    exists pieces left,
      chunks' = map (fun b => header ++ NLNL ++ b) (bodies ++ pieces) /\
      cur' = header ++ NLNL ++ left /\
      hardCut (Y ++ NLNL) pieces left.
Proof using Hmin.
  induction fuel as [|fuel IH]; intros bodies Y chunks' cur' Hrun;
    set (cur := header ++ NLNL ++ Y ++ NLNL) in *;
    destruct (Nat.lt_ge_cases maxLength (length cur)) as [Hlong | Hshort];
    try (rewrite hardSplit_done in Hrun by exact Hshort;
         injection Hrun as <- <-; exists [], (Y ++ NLNL);
         rewrite app_nil_r; split; [reflexivity|]; split;
         [reflexivity | constructor]).
  - rewrite hardSplit_out_of_fuel in Hrun by exact Hlong. discriminate.
  - rewrite hardSplit_step in Hrun by exact Hlong.
    pose proof (cutAt_range maxLength cur Hlong) as Hk.
    set (k := cutAt maxLength cur) in *.
    assert (Hfirst : firstn k cur
                     = header ++ NLNL ++ firstn (k - (length header + 2)) (Y ++ NLNL)).
    { unfold cur. rewrite (app_assoc header NLNL), firstn_app.
      rewrite firstn_all2 by (rewrite length_app; simpl; lia).
      rewrite length_app. now rewrite <- app_assoc. }
    assert (Hrest : skipn k cur = skipn (k - (length header + 2)) (Y ++ NLNL)).
    { unfold cur. rewrite (app_assoc header NLNL), skipn_app.
      rewrite skipn_all2 by (rewrite length_app; simpl; lia).
      now rewrite length_app. }
    rewrite Hfirst, Hrest in Hrun.
    set (j := k - (length header + 2)) in *.
    change (map (fun b => header ++ NLNL ++ b) bodies
            ++ [header ++ NLNL ++ firstn j (Y ++ NLNL)])
      with (map (fun b => header ++ NLNL ++ b) bodies
            ++ map (fun b => header ++ NLNL ++ b) [firstn j (Y ++ NLNL)]) in Hrun.
    rewrite <- map_app in Hrun.
    apply IH in Hrun as (pieces & left & -> & -> & Hcut).
    exists (firstn j (Y ++ NLNL) :: pieces), left.
    split; [now rewrite <- app_assoc|]. split; [reflexivity|].
    rewrite <- (firstn_skipn j (Y ++ NLNL)) at 1.
    constructor; [|exact Hcut].
    assert (Hj : 0 < j) by (unfold j; lia).
    destruct j as [|j']; [lia|].
    destruct (Y ++ NLNL) as [|c r] eqn:HY; [|discriminate].
    now destruct Y.
Qed.

(** The bodies the loop over the sections makes. *)
Lemma packSections_packed (fuel : nat) (sections : list jsstring) :
  forall bodies open chunks' cur',
    packSections fuel maxLength header sections
      (map (fun b => header ++ NLNL ++ b) bodies) (header ++ NLNL ++ open)
      = Some (chunks', cur') ->
    exists bodies' open',
      chunks' = map (fun b => header ++ NLNL ++ b) (bodies ++ bodies') /\
      cur' = header ++ NLNL ++ open' /\
      packed sections open (bodies' ++ present open').
Proof using Hmin.
  induction sections as [|s rest IH]; intros bodies open chunks' cur' Hrun.
  - injection Hrun as <- <-. exists [], open. rewrite app_nil_r.
    split; [reflexivity|]. split; [reflexivity | constructor].
  - cbn [packSections] in Hrun.
    destruct (maxLength <? length ((header ++ NLNL ++ open) ++ s ++ NLNL)).
    + assert (Hpushed :
        (if length header + 2 <? length (header ++ NLNL ++ open)
         then map (fun b => header ++ NLNL ++ b) bodies
              ++ [header ++ NLNL ++ open]
         else map (fun b => header ++ NLNL ++ b) bodies)
        = map (fun b => header ++ NLNL ++ b) (bodies ++ present open)).
      { destruct (length header + 2 <? length (header ++ NLNL ++ open)) eqn:Hp.
        - apply Nat.ltb_lt in Hp. rewrite !length_app in Hp.
          change (length NLNL) with 2 in Hp.
          destruct open as [|c r]; [cbn in Hp; lia|].
          now rewrite map_app.
        - apply Nat.ltb_ge, body_empty in Hp. subst open.
          now rewrite app_nil_r. }
      cbv zeta in Hrun. rewrite Hpushed in Hrun. clear Hpushed.
      destruct (hardSplit fuel maxLength header _ _) as [[chunks2 cur2]|] eqn:Hhs;
        [|discriminate].
      apply hardSplit_cut in Hhs as (pieces & left & -> & -> & Hcut).
      apply IH in Hrun as (bodies' & open' & -> & -> & Hpacked).
      exists (present open ++ pieces ++ bodies'), open'.
      split; [now rewrite <- !app_assoc|]. split; [reflexivity|].
      rewrite <- !app_assoc. now apply packed_close with (left := left).
    + rewrite <- !app_assoc in Hrun.
      apply IH in Hrun as (bodies' & open' & -> & -> & Hpacked).
      exists bodies', open'. split; [reflexivity|]. split; [reflexivity|].
      now constructor.
Qed.

Lemma packed_nonempty (sections : list jsstring) (open : jsstring)
    (bodies : list jsstring) :
  packed sections open bodies -> Forall (fun b => b <> []) bodies.
Proof.
  induction 1 as [open | | s rest open pieces left bodies Hcut _ IH].
  - apply present_nonempty.
  - assumption.
  - apply Forall_app. split; [apply present_nonempty|].
    apply Forall_app. split; [|exact IH].
    eapply hardCut_nonempty, Hcut.
Qed.

Lemma splitIntoChunks_packed (fuel : nat) (sections : list jsstring)
    (footer : jsstring) (chunks : list jsstring) :
  _splitIntoChunks fuel maxLength header sections footer = Some chunks ->
  exists bodies last,
    framed header footer chunks bodies last /\
    packed sections [] (bodies ++ present last).
Proof using Hmin.
  intros Hrun. unfold _splitIntoChunks in Hrun.
  destruct (packSections fuel maxLength header sections [] (header ++ NLNL))
    as [[chunks1 cur1]|] eqn:Hpack; [|discriminate].
  replace (header ++ NLNL) with (header ++ NLNL ++ []) in Hpack
    by now rewrite app_nil_r.
  apply (packSections_packed fuel sections [] []) in Hpack
    as (bodies & body & -> & -> & Hpacked).
  cbn [app] in *. apply (inj Some) in Hrun. unfold framed.
  destruct (maxLength <? length ((header ++ NLNL ++ body) ++ footer)).
  - destruct (length header + 2 <? length (header ++ NLNL ++ body)) eqn:Hp;
      rewrite snoc_not_nil in Hrun; subst chunks.
    + apply Nat.ltb_lt in Hp. rewrite !length_app in Hp.
      change (length NLNL) with 2 in Hp.
      destruct body as [|c r]; [cbn in Hp; lia|].
      exists (bodies ++ [c :: r]), [].
      rewrite map_app. cbn [map present app]. rewrite !app_nil_r.
      now split.
    + apply Nat.ltb_ge, body_empty in Hp. subst body.
      exists bodies, []. now split.
  - destruct (length header + 2 <? length ((header ++ NLNL ++ body) ++ footer))
      eqn:Hp.
    + rewrite snoc_not_nil in Hrun; subst chunks.
      exists bodies, body.
      split; [now rewrite <- !app_assoc | exact Hpacked].
    + apply Nat.ltb_ge in Hp.
      assert (body = [] /\ footer = []) as [-> ->].
      { rewrite !length_app in Hp. change (length NLNL) with 2 in Hp.
        destruct body, footer; simpl in Hp; try lia. now split. }
      cbn [present] in Hpacked. rewrite app_nil_r in Hpacked.
      pose proof (packed_nonempty _ _ _ Hpacked) as Hne.
      destruct bodies as [|b bs _] using rev_ind; simpl in Hrun; subst chunks.
      * exists [], []. now split.
      * rewrite map_app. simpl map. rewrite snoc_not_nil.
        exists bs, b. rewrite !app_nil_r. split; [reflexivity|].
        apply Forall_app in Hne as [_ Hb].
        apply Forall_cons_iff in Hb as [Hb _].
        destruct b; [congruence | exact Hpacked].
Qed.

End PackerPieces.

(** C2 (amended).  When the header is short enough for the cut rule to make
    progress, the chunks returned are the header, a blank line and a body
    each, the last one followed by the footer.  The bodies are made of the
    sections in order, each followed by a blank line.  Only a hard split
    changes anything, and only white space: a piece cut off is a prefix kept
    as it is, one whole body; what follows the cut is replaced by its
    trimmed form followed by a blank line, so that the white space right
    after the cut goes and the white space that ended the section becomes
    one blank line.  So the bodies hold exactly the code units of the
    sections that are not white space, in order; and when every section fits
    after a fresh header, nothing is cut and the bodies are exactly the
    sections, each followed by its blank line. *)
Theorem splitIntoChunks_complete (maxLength fuel : nat) (header : jsstring)
    (sections : list jsstring) (footer : jsstring) :
  (Z.of_nat (length header) + 3 <= MessageFormatter.minSplitPoint maxLength)%Z ->
  length header + 4 + length (concat sections) <= fuel ->
  exists chunks bodies last,
    MessageFormatter._splitIntoChunks fuel maxLength header sections footer
      = Some chunks /\
    framed header footer chunks bodies last /\
    packed sections [] (bodies ++ present last) /\
    nonWhiteSpace (concat bodies ++ last) = nonWhiteSpace (concat sections) /\
    (Forall (fun s => length header + 4 + length s <= maxLength) sections ->
     concat bodies ++ last = joined sections).
Proof.
  intros Hmin Hfuel.
  destruct (splitIntoChunks_returns maxLength fuel header sections footer)
    as [chunks Hrun].
  { apply packSections_terminates; [exact Hmin|]. now apply enough_fuel. }
  destruct (splitIntoChunks_content maxLength header nonWhiteSpace
              (fun _ => True) nonWhiteSpace_app
              (hardSplit_content_trimmed maxLength header Hmin)
              fuel sections footer chunks)
    as (bodies & last & Hframed & Hcontent); [|exact Hrun|].
  { apply List.Forall_forall. intros; exact I. }
  exists chunks, bodies, last.
  split; [exact Hrun|]. split; [exact Hframed|].
  split.
  { destruct (splitIntoChunks_packed maxLength header Hmin fuel sections footer
                chunks Hrun) as (bodies' & last' & Hframed' & Hpacked).
    destruct (framed_inj _ _ _ _ _ _ _ Hframed Hframed') as [-> ->].
    exact Hpacked. }
  split; [now rewrite Hcontent, nonWhiteSpace_joined|].
  intros Hfits.
  destruct (splitIntoChunks_content maxLength header id
              (fun s => length header + 4 + length s <= maxLength)
              (fun a b => eq_refl)
              (hardSplit_content_exact maxLength header)
              fuel sections footer chunks Hfits Hrun)
    as (bodies' & last' & Hframed' & Hexact).
  destruct (framed_inj _ _ _ _ _ _ _ Hframed Hframed') as [-> ->].
  exact Hexact.
Qed.

Lemma splitIntoChunks_complete_witness :
  (Z.of_nat (length (lit "H")) + 3 <= MessageFormatter.minSplitPoint 5)%Z /\
  length (lit "H") + 4 + length (concat [lit "A A"]) <= 8 /\
  exists chunks bodies last,
    MessageFormatter._splitIntoChunks 8 5 (lit "H") [lit "A A"] (lit "F")
      = Some chunks /\
    framed (lit "H") (lit "F") chunks bodies last /\
    packed [lit "A A"] [] (bodies ++ present last) /\
    nonWhiteSpace (concat bodies ++ last) = nonWhiteSpace (concat [lit "A A"]) /\
    (Forall (fun s => length (lit "H") + 4 + length s <= 5) [lit "A A"] ->
     concat bodies ++ last = joined [lit "A A"]).
Proof.
  split; [vm_compute; discriminate|].
  split; [vm_compute; lia|].
  apply splitIntoChunks_complete; [vm_compute; discriminate | vm_compute; lia].
Defined.

(** C2 as stated fails: with limit 5, header "H" and footer "F", the section
    "A A" is hard-split after its first letter and the blank that follows the
    cut is trimmed away: no chunk contains it, so no reading of the chunks
    gives the section back. *)
Lemma hard_split_drops_blank :
  exists chunks,
    MessageFormatter._splitIntoChunks 2 5 (lit "H") [lit "A A"] (lit "F")
      = Some chunks /\
    In SP (lit "A A") /\
    ~ In SP (concat chunks) /\
    ~ (exists bodies last,
         framed (lit "H") (lit "F") chunks bodies last /\
         concat bodies ++ last = joined [lit "A A"]).
Proof.
  exists [lit "H" ++ NLNL ++ lit "A"; lit "H" ++ NLNL ++ lit "A";
          lit "H" ++ NLNL ++ NLNL; lit "H" ++ NLNL ++ lit "F"].
  assert (Hno : ~ In SP (concat [lit "H" ++ NLNL ++ lit "A";
                                 lit "H" ++ NLNL ++ lit "A";
                                 lit "H" ++ NLNL ++ NLNL;
                                 lit "H" ++ NLNL ++ lit "F"])).
  { vm_compute. intuition discriminate. }
  split; [reflexivity|]. split; [vm_compute; tauto|]. split; [exact Hno|].
  intros (bodies & last & Hframed & Hexact). apply Hno.
  apply (framed_content_in_chunks _ _ _ _ _ _ Hframed).
  rewrite Hexact. vm_compute. tauto.
Qed.

(** The scenario of the specification, run on just enough fuel. *)
Lemma scenario_AAAA_BB_run :
  MessageFormatter._splitIntoChunks 4 5 (lit "H") [lit "AAAA"; lit "BB"]
    (lit "F")
  = Some [lit "H" ++ NLNL ++ lit "A"; lit "H" ++ NLNL ++ lit "A";
          lit "H" ++ NLNL ++ lit "A"; lit "H" ++ NLNL ++ lit "A";
          lit "H" ++ NLNL ++ NLNL;
          lit "H" ++ NLNL ++ lit "B"; lit "H" ++ NLNL ++ lit "B";
          lit "H" ++ NLNL ++ NLNL;
          lit "H" ++ NLNL ++ lit "F"].
Proof. reflexivity. Qed.

(** C9 (amended).  With header "H", footer "F", limit 5 and the sections
    "AAAA" and "BB", the packer returns nine chunks.  Header and blank line
    take three of the five code units, so no section fits: "AAAA" is cut into
    four chunks of one letter each, and what is left of it is an empty body;
    "BB" likewise gives two chunks and an empty body; the footer does not fit
    that last chunk and is emitted with the header as the ninth. *)
Theorem scenario_AAAA_BB_nine_chunks (k : nat) :
  MessageFormatter._splitIntoChunks (4 + k) 5 (lit "H") [lit "AAAA"; lit "BB"]
    (lit "F")
  = Some [lit "H" ++ NLNL ++ lit "A"; lit "H" ++ NLNL ++ lit "A";
          lit "H" ++ NLNL ++ lit "A"; lit "H" ++ NLNL ++ lit "A";
          lit "H" ++ NLNL ++ NLNL;
          lit "H" ++ NLNL ++ lit "B"; lit "H" ++ NLNL ++ lit "B";
          lit "H" ++ NLNL ++ NLNL;
          lit "H" ++ NLNL ++ lit "F"].
Proof. apply (splitIntoChunks_fuel_mono 5 4 k), scenario_AAAA_BB_run. Qed.

(** C9 as stated fails: on that input the packer never returns two chunks. *)
Lemma scenario_AAAA_BB_not_two_chunks :
  ~ (exists fuel c1 c2,
       MessageFormatter._splitIntoChunks fuel 5 (lit "H")
         [lit "AAAA"; lit "BB"] (lit "F") = Some [c1; c2]).
Proof.
  intros (fuel & c1 & c2 & Hrun).
  destruct fuel as [|[|[|[|k]]]];
    [vm_compute in Hrun; discriminate ..|].
  change (S (S (S (S k)))) with (4 + k) in Hrun.
  rewrite (splitIntoChunks_fuel_mono 5 4 k _ _ _ _ scenario_AAAA_BB_run) in Hrun.
  discriminate.
Qed.

(** ** The retry executor *)

Section RetryFacts.
Import RetryHandler.
Context {W E R : Type}.
Variable fn : W -> W * (E + R).
Variable random : nat -> Q.
Variable self : RetryHandler.t.

(** What the loop does from any attempt on, [n] iterations being left. *)
Lemma attempts_spec (n : nat) :
  forall attempt lastError draws w c w' trace,
    (attempt + Z.of_nat n = maxRetries self + 1)%Z ->
    0 < n ->
    attempts fn random self n attempt lastError draws w = (c, w', trace) ->
    length (invocations trace) <= n /\
    length (delays trace) <= n - 1 /\
    match c with
    | Returned r =>
        exists errors, invocations trace = map inl errors ++ [inr r]
    | Threw e =>
        exists errors error,
          invocations trace = map inl (errors ++ [error]) /\
          e = Some error /\ length (invocations trace) = n
    end.
Proof.
  induction n as [|n IH]; intros attempt lastError draws w c w' trace Hn Hpos Hrun;
    [lia|].
  cbn [attempts] in Hrun.
  destruct (fn w) as [w1 [error | r]].
  - destruct (Z.eqb_spec attempt (maxRetries self)) as [Hlast | Hmore].
    + injection Hrun as <- <- <-. simpl.
      split; [lia|]. split; [lia|].
      exists [], error. split; [reflexivity|]. split; [reflexivity|]. lia.
    + destruct (attempts fn random self n (attempt + 1) (Some error) _ w1)
        as [[c1 w2] trace1] eqn:Hrest.
      injection Hrun as <- <- <-.
      apply IH in Hrest as (Hcalls & Hsleeps & Hend); [|lia|lia].
      cbn [invocations delays length].
      split; [lia|]. split; [lia|].
      destruct c1 as [r | e].
      * destruct Hend as [errors ->]. now exists (error :: errors).
      * destruct Hend as (errors & error' & -> & -> & Hlen).
        exists (error :: errors), error'.
        split; [reflexivity|]. split; [reflexivity|].
        rewrite <- Hlen. reflexivity.
  - injection Hrun as <- <- <-. simpl.
    split; [lia|]. split; [lia|]. now exists [].
Qed.

(** Every delay is at most one and a half times [maxDelay], when that
    bound is itself a double. *)
Lemma calculateDelay_le (attempt : Z) (u : Q) :
  (0 <= maxDelay self)%Q -> (0 <= u)%Q -> (u < 1)%Q ->
  (Binary64.nearest ((3 # 2) * maxDelay self) == (3 # 2) * maxDelay self)%Q ->
  (inject_Z (_calculateDelay self attempt u) <= (3 # 2) * maxDelay self)%Q.
Proof.
  intros HM H0 H1 Hrep. unfold _calculateDelay.
  eapply Qle_trans; [apply Qfloor_le|].
  pose proof (Q.le_min_r (baseDelay self * 2 ^ attempt) (maxDelay self)) as Hmin.
  set (m := Qmin (baseDelay self * 2 ^ attempt) (maxDelay self)) in *.
  destruct (jitter self); [|nra].
  eapply Qle_trans; [apply nearest_mono | rewrite Hrep; apply Qle_refl].
  assert (Hf : (Binary64.nearest ((1 # 2) + u) <= 3 # 2)%Q).
  { rewrite <- nearest_three_halves_fixed. apply nearest_mono. lra. }
  assert (Hf0 : (0 <= Binary64.nearest ((1 # 2) + u))%Q)
    by (apply nearest_nonneg; lra).
  destruct (Qlt_le_dec m 0); nra.
Qed.

(** With the jitter on, the two roundings move the delay by at most one
    from the floor of the exact product. *)
Lemma calculateDelay_near (attempt : Z) (u : Q) :
  jitter self = true ->
  (0 <= baseDelay self)%Q -> (0 <= maxDelay self)%Q ->
  (maxDelay self <= 2 ^ 50)%Q ->
  (0 <= u)%Q -> (u < 1)%Q ->
  (Z.abs (_calculateDelay self attempt u
          - Qfloor (Qmin (baseDelay self * 2 ^ attempt) (maxDelay self)
                    * ((1 # 2) + u))) <= 1)%Z.
Proof.
  intros Hj Hbase HM0 HM H0 H1. unfold _calculateDelay. rewrite Hj.
  pose proof (Q.le_min_r (baseDelay self * 2 ^ attempt) (maxDelay self)) as Hmin.
  assert (Hm0 : (0 <= Qmin (baseDelay self * 2 ^ attempt) (maxDelay self))%Q).
  { apply Q.min_glb; [pose proof (two_pow_pos attempt); nra | lra]. }
  set (m := Qmin (baseDelay self * 2 ^ attempt) (maxDelay self)) in *.
  set (r := ((1 # 2) + u)%Q).
  assert (Hr : (- 2 ^ (1 - 54) <= Binary64.nearest r - r <= 2 ^ (1 - 54))%Q).
  { apply nearest_error; [unfold r; lra | unfold r; change (2 ^ 1)%Q with 2%Q; lra
                         | lia]. }
  set (f := Binary64.nearest r) in *.
  assert (Hf : (f <= 3 # 2)%Q).
  { unfold f. rewrite <- nearest_three_halves_fixed. apply nearest_mono.
    unfold r. lra. }
  assert (Hf0 : (0 <= f)%Q) by (apply nearest_nonneg; unfold r; lra).
  assert (E50 : (2 ^ 50 * 2 == 2 ^ 51)%Q) by reflexivity.
  assert (Hp : (- 2 ^ (51 - 54) <= Binary64.nearest (m * f) - m * f
                <= 2 ^ (51 - 54))%Q).
  { apply nearest_error; [nra | | lia]. rewrite <- E50. nra. }
  set (q := Binary64.nearest (m * f)) in *.
  change (2 ^ (1 - 54))%Q with (1 # 9007199254740992)%Q in Hr.
  change (2 ^ (51 - 54))%Q with (1 # 8)%Q in Hp.
  change (2 ^ 50)%Q with (1125899906842624 # 1)%Q in HM.
  assert (Hq : (- (1 # 4) <= q - m * r <= 1 # 4)%Q).
  { assert ((m * f - m * r <= 1 # 8)%Q) by nra.
    assert ((- (1 # 8) <= m * f - m * r)%Q) by nra.
    lra. }
  pose proof (Qfloor_le q) as A1. pose proof (Qlt_floor q) as A2.
  pose proof (Qfloor_le (m * r)) as B1. pose proof (Qlt_floor (m * r)) as B2.
  rewrite inject_Z_plus in A2, B2. change (inject_Z 1) with 1%Q in A2, B2.
  assert (C1 : (Qfloor q < Qfloor (m * r) + 2)%Z).
  { rewrite Zlt_Qlt, inject_Z_plus. change (inject_Z 2) with 2%Q. lra. }
  assert (C2 : (Qfloor (m * r) < Qfloor q + 2)%Z).
  { rewrite Zlt_Qlt, inject_Z_plus. change (inject_Z 2) with 2%Q. lra. }
  lia.
Qed.

Lemma attempts_delays (P : Z -> Prop) (n : nat) :
  (forall attempt draws, P (_calculateDelay self attempt (random draws))) ->
  forall attempt lastError draws w c w' trace,
    attempts fn random self n attempt lastError draws w = (c, w', trace) ->
    Forall P (delays trace).
Proof.
  intros HP. induction n as [|n IH];
    intros attempt lastError draws w c w' trace Hrun; cbn [attempts] in Hrun.
  - injection Hrun as <- <- <-. constructor.
  - destruct (fn w) as [w1 [error | r]].
    + destruct (attempt =? maxRetries self)%Z.
      * injection Hrun as <- <- <-. constructor.
      * destruct (attempts fn random self n (attempt + 1) (Some error) _ w1)
          as [[c1 w2] trace1] eqn:Hrest.
        injection Hrun as <- <- <-. cbn [delays].
        constructor; [apply HP | eapply IH, Hrest].
    + injection Hrun as <- <- <-. constructor.
Qed.

End RetryFacts.

Lemma sum_delays_le (bound : Q) (ds : list Z) :
  Forall (fun d => (inject_Z d <= bound)%Q) ds ->
  (inject_Z (fold_right Z.add 0%Z ds) <= inject_Z (Z.of_nat (length ds)) * bound)%Q.
Proof.
  induction 1 as [|d ds Hd _ IH]; cbn [fold_right length].
  - change (inject_Z (Z.of_nat 0)) with 0%Q. change (inject_Z 0) with 0%Q. lra.
  - rewrite Nat2Z.inj_succ, <- Z.add_1_r, !inject_Z_plus.
    change (inject_Z 1) with 1%Q. lra.
Qed.

(** Two failures, then a success, under [maxRetries = 3]: the third call's
    result is returned, after sleeps of half the first two backoff steps when
    [Math.random()] gives 0. *)
Lemma execute_two_failures_then_success :
  RetryHandler.execute failsTwice (fun _ => 0%Q) defaultHandler 0
  = (RetryHandler.Returned tt, 3,
     [RetryHandler.Invoke (inl 500%Z); RetryHandler.Sleep 500;
      RetryHandler.Invoke (inl 500%Z); RetryHandler.Sleep 1000;
      RetryHandler.Invoke (inr tt)]).
Proof. reflexivity. Qed.

(** C6.  For [maxRetries >= 0], [execute] calls the operation at most
    [maxRetries + 1] times.  When it returns, every call but the last failed
    and the value returned is the result of the last call; when it throws,
    all [maxRetries + 1] calls failed and what is thrown is the error of the
    last call, as it was thrown. *)
Theorem execute_bounded_retries {W E R : Type} (fn : W -> W * (E + R))
    (random : nat -> Q) (self : RetryHandler.t) (w : W)
    (c : RetryHandler.completion E R) (w' : W)
    (trace : list (RetryHandler.event E R)) :
  (0 <= RetryHandler.maxRetries self)%Z ->
  RetryHandler.execute fn random self w = (c, w', trace) ->
  (Z.of_nat (length (RetryHandler.invocations trace))
   <= RetryHandler.maxRetries self + 1)%Z /\
  match c with
  | RetryHandler.Returned r =>
      exists errors,
        RetryHandler.invocations trace = map inl errors ++ [inr r]
  | RetryHandler.Threw e =>
      exists errors error,
        RetryHandler.invocations trace = map inl (errors ++ [error]) /\
        e = Some error /\
        Z.of_nat (length (RetryHandler.invocations trace))
        = (RetryHandler.maxRetries self + 1)%Z
  end.
Proof.
  intros Hmax Hrun. unfold RetryHandler.execute in Hrun.
  apply attempts_spec in Hrun as (Hcalls & _ & Hend); [|lia|lia].
  split; [lia|].
  destruct c as [r | e]; [exact Hend|].
  destruct Hend as (errors & error & Hinv & He & Hlen).
  exists errors, error. split; [exact Hinv|]. split; [exact He|]. lia.
Qed.

Lemma execute_bounded_retries_witness :
  (0 <= RetryHandler.maxRetries defaultHandler)%Z /\
  (Z.of_nat (length (RetryHandler.invocations
      [RetryHandler.Invoke (inl 500%Z); RetryHandler.Sleep 500;
       RetryHandler.Invoke (inl 500%Z); RetryHandler.Sleep 1000;
       RetryHandler.Invoke (inr tt)]))
   <= RetryHandler.maxRetries defaultHandler + 1)%Z /\
  exists errors,
    RetryHandler.invocations
      [RetryHandler.Invoke (inl 500%Z); RetryHandler.Sleep 500;
       RetryHandler.Invoke (inl 500%Z); RetryHandler.Sleep 1000;
       RetryHandler.Invoke (inr tt)]
    = map inl errors ++ [inr tt].
Proof.
  split; [vm_compute; discriminate|].
  apply (execute_bounded_retries failsTwice (fun _ => 0%Q) defaultHandler 0
           (RetryHandler.Returned tt) 3).
  - vm_compute; discriminate.
  - reflexivity.
Defined.

(** C7 (amended).  For a handler none of whose products overflows, the
    delay before the retry of attempt [a] is
    [floor (min (baseDelay * 2^a) maxDelay)] with the jitter off.  With the
    jitter on it is the floor of the binary64 product of
    [min (baseDelay * 2^a) maxDelay] and the binary64 sum [0.5 + u], [u]
    being the random number drawn in [0, 1): for [maxDelay <= 2^50] that is
    within one of [floor (min (baseDelay * 2^a) maxDelay * (0.5 + u))].  For
    [maxRetries >= 0] and a [maxDelay] of which one and a half times is a
    double, every delay is at most [maxDelay * 1.5], and the delays slept in
    one [execute] add up to at most [maxRetries * maxDelay * 1.5]. *)
Theorem retry_delays_bounded {W E R : Type} (fn : W -> W * (E + R))
    (random : nat -> Q) (self : RetryHandler.t) (w : W)
    (c : RetryHandler.completion E R) (w' : W)
    (trace : list (RetryHandler.event E R)) :
  (0 <= RetryHandler.maxRetries self)%Z ->
  finiteDelays self ->
  (Binary64.nearest ((3 # 2) * RetryHandler.maxDelay self)
   == (3 # 2) * RetryHandler.maxDelay self)%Q ->
  (forall k, 0 <= random k /\ random k < 1)%Q ->
  RetryHandler.execute fn random self w = (c, w', trace) ->
  (forall a u,
     (0 <= a <= RetryHandler.maxRetries self)%Z ->
     RetryHandler._calculateDelay self a u =
     if RetryHandler.jitter self
     then Qfloor (Binary64.nearest
                    (Qmin (RetryHandler.baseDelay self * 2 ^ a)
                          (RetryHandler.maxDelay self)
                     * Binary64.nearest ((1 # 2) + u)))
     else Qfloor (Qmin (RetryHandler.baseDelay self * 2 ^ a)
                       (RetryHandler.maxDelay self))) /\
  (RetryHandler.jitter self = true ->
   (RetryHandler.maxDelay self <= 2 ^ 50)%Q ->
   forall a u,
     (0 <= a <= RetryHandler.maxRetries self)%Z -> (0 <= u)%Q -> (u < 1)%Q ->
     (Z.abs (RetryHandler._calculateDelay self a u
             - Qfloor (Qmin (RetryHandler.baseDelay self * 2 ^ a)
                            (RetryHandler.maxDelay self) * ((1 # 2) + u)))
      <= 1)%Z) /\
  Forall (fun d => (inject_Z d <= RetryHandler.maxDelay self * (3 # 2))%Q)
         (RetryHandler.delays trace) /\
  (inject_Z (fold_right Z.add 0%Z (RetryHandler.delays trace))
   <= inject_Z (RetryHandler.maxRetries self) * RetryHandler.maxDelay self
      * (3 # 2))%Q.
Proof.
  intros Hmax (_ & Hbase & HM & _) Hrep Hrandom Hrun.
  split.
  { intros a u _. unfold RetryHandler._calculateDelay.
    now destruct (RetryHandler.jitter self). }
  split.
  { intros Hj H50 a u _ H0 H1. now apply calculateDelay_near. }
  unfold RetryHandler.execute in Hrun.
  assert (Hsleeps : length (RetryHandler.delays trace)
                    <= Z.to_nat (RetryHandler.maxRetries self + 1) - 1).
  { eapply attempts_spec; [| |exact Hrun]; lia. }
  assert (Hcount : (inject_Z (Z.of_nat (length (RetryHandler.delays trace)))
                    <= inject_Z (RetryHandler.maxRetries self))%Q).
  { rewrite <- Zle_Qle. lia. }
  pose proof (attempts_delays fn random self
                (fun d => (inject_Z d <= (3 # 2) * RetryHandler.maxDelay self)%Q)
                _ (fun a k => calculateDelay_le self a (random k) HM
                                (proj1 (Hrandom k)) (proj2 (Hrandom k)) Hrep)
                _ _ _ _ _ _ _ Hrun) as Hall.
  split.
  - eapply List.Forall_impl; [|exact Hall]. cbv beta. intros d Hd. lra.
  - apply sum_delays_le in Hall. nra.
Qed.

Lemma retry_delays_bounded_witness :
  (0 <= RetryHandler.maxRetries defaultHandler)%Z /\
  finiteDelays defaultHandler /\
  (Binary64.nearest ((3 # 2) * RetryHandler.maxDelay defaultHandler)
   == (3 # 2) * RetryHandler.maxDelay defaultHandler)%Q /\
  (Z.abs (RetryHandler._calculateDelay defaultHandler 0 drawForSevenTenths
          - Qfloor (Qmin (RetryHandler.baseDelay defaultHandler * 2 ^ 0)
                         (RetryHandler.maxDelay defaultHandler)
                    * ((1 # 2) + drawForSevenTenths))) <= 1)%Z /\
  (inject_Z (fold_right Z.add 0%Z (RetryHandler.delays
      [RetryHandler.Invoke (E:=Z) (R:=unit) (inl 500%Z); RetryHandler.Sleep 500;
       RetryHandler.Invoke (inl 500%Z); RetryHandler.Sleep 1000;
       RetryHandler.Invoke (inr tt)]))
   <= inject_Z (RetryHandler.maxRetries defaultHandler)
     * RetryHandler.maxDelay defaultHandler * (3 # 2))%Q.
Proof.
  assert (Hfinite : finiteDelays defaultHandler).
  { split; [reflexivity|]. repeat split; vm_compute; discriminate. }
  split; [vm_compute; discriminate|]. split; [exact Hfinite|].
  split; [vm_compute; reflexivity|].
  pose proof (retry_delays_bounded failsTwice (fun _ => 0%Q)
            defaultHandler 0 (RetryHandler.Returned tt) 3 _
            ltac:(vm_compute; discriminate) Hfinite
            ltac:(vm_compute; reflexivity)
            (fun k => conj (ltac:(vm_compute; discriminate) : (0 <= 0)%Q)
                           (eq_refl : (0 < 1)%Q))
            eq_refl) as (_ & Hnear & _ & Hsum).
  split; [|exact Hsum].
  apply Hnear.
  - reflexivity.
  - vm_compute; discriminate.
  - vm_compute. split; discriminate.
  - vm_compute; discriminate.
  - reflexivity.
Defined.

(** C7 as stated fails, in both its parts.  When [Math.random()] returns
    the double 0.7 less a half, the factor [0.5 + u] is the double 0.7 and
    [RETRY_CONFIG]'s first delay is 700, the floor of the rounded product,
    not the 699 of the exact one.  And a handler whose [baseDelay] and
    [maxDelay] are both 1000, with one retry, sleeps 1500 when
    [Math.random()] returns the last double below 1: the sum [0.5 + u]
    rounds to 1.5, and 1500 is not below [1 * 1000 * 1.5]. *)
Lemma jittered_delay_not_exact_floor :
  ((0 <= drawForSevenTenths)%Q /\ (drawForSevenTenths < 1)%Q) /\
  RetryHandler._calculateDelay defaultHandler 0 drawForSevenTenths = 700%Z /\
  Qfloor (Qmin (RetryHandler.baseDelay defaultHandler * 2 ^ 0)
               (RetryHandler.maxDelay defaultHandler)
          * ((1 # 2) + drawForSevenTenths)) = 699%Z /\
  ((0 <= lastBelowOne)%Q /\ (lastBelowOne < 1)%Q) /\
  RetryHandler.execute alwaysFails (fun _ => lastBelowOne) tightHandler 0
  = (RetryHandler.Threw (Some 500%Z), 2,
     [RetryHandler.Invoke (inl 500%Z); RetryHandler.Sleep 1500;
      RetryHandler.Invoke (inl 500%Z)]) /\
  ~ (inject_Z (fold_right Z.add 0%Z
       (RetryHandler.delays
          [RetryHandler.Invoke (E:=Z) (R:=unit) (inl 500%Z);
           RetryHandler.Sleep 1500; RetryHandler.Invoke (inl 500%Z)]))
     < inject_Z (RetryHandler.maxRetries tightHandler)
       * RetryHandler.maxDelay tightHandler * (3 # 2))%Q.
Proof.
  split; [split; [vm_compute; discriminate | reflexivity]|].
  split; [vm_compute; reflexivity|]. split; [vm_compute; reflexivity|].
  split; [split; [vm_compute; discriminate | reflexivity]|].
  split; [vm_compute; reflexivity|].
  vm_compute. intros H. discriminate H.
Qed.

(** ** The deduplication cache *)

Section CacheFacts.
Import CacheService.

Lemma has_iff (cs : CacheService.state) (c : cache)
    (partitions : gmap jsstring (gmap jsstring jsDate)) (hash : jsstring) :
  _cache cs = Some c -> articles c = Some partitions ->
  has cs hash = true <->
  exists source entries,
    partitions !! source = Some entries /\ is_Some (entries !! hash).
Proof.
  intros Hc Hp. unfold has. rewrite Hc, Hp.
  rewrite bool_decide_eq_true. apply map_Exists_lookup.
Qed.

Lemma has_not_ready (cs : CacheService.state) (hash : jsstring) :
  ~ ready cs -> has cs hash = false.
Proof.
  intros Hn. unfold has.
  destruct (_cache cs) as [c|] eqn:Hc; [|reflexivity].
  destruct (articles c) as [partitions|] eqn:Hp; [|reflexivity].
  exfalso. apply Hn. now exists c, partitions.
Qed.

Lemma add_ready (cs : CacheService.state) (source hash : jsstring)
    (timestamp : option jsDate) :
  ready cs ->
  exists cs',
    add cs source hash timestamp = Returns tt cs' /\ ready cs' /\
    forall h, has cs' h = has cs h || bool_decide (h = hash).
Proof.
  intros (c & partitions & Hc & Hp). unfold add. rewrite Hc, Hp.
  eexists. split; [reflexivity|]. split.
  { eexists _, _. split; reflexivity. }
  intros h. apply eq_true_iff_eq.
  rewrite orb_true_iff, bool_decide_eq_true.
  rewrite (has_iff cs c partitions h Hc Hp).
  erewrite has_iff; [|reflexivity|reflexivity].
  split.
  - intros (src & entries & Hl & Hs).
    destruct (decide (h = hash)) as [-> | Hne]; [now right | left].
    destruct (decide (src = source)) as [-> | Hsrc].
    + rewrite lookup_insert_eq in Hl. injection Hl as <-.
      rewrite lookup_insert_ne in Hs by congruence.
      destruct (partitions !! source) as [entries|] eqn:Hps; simpl in Hs.
      * now exists source, entries.
      * rewrite lookup_empty in Hs. now destruct Hs.
    + rewrite lookup_insert_ne in Hl by congruence. now exists src, entries.
  - intros [(src & entries & Hl & Hs) | ->].
    + destruct (decide (src = source)) as [-> | Hsrc].
      * eexists source, _. rewrite lookup_insert_eq. split; [reflexivity|].
        rewrite Hl. simpl.
        destruct (decide (h = hash)) as [-> | Hne].
        -- rewrite lookup_insert_eq. eauto.
        -- now rewrite lookup_insert_ne by congruence.
      * exists src, entries. now rewrite lookup_insert_ne by congruence.
    + eexists source, _. rewrite lookup_insert_eq. split; [reflexivity|].
      rewrite lookup_insert_eq. eauto.
Qed.

Lemma add_not_ready (cs : CacheService.state) (source hash : jsstring)
    (timestamp : option jsDate) :
  ~ ready cs -> add cs source hash timestamp = Throws TypeError cs.
Proof.
  intros Hn. unfold add.
  destruct (_cache cs) as [c|] eqn:Hc; [|reflexivity].
  destruct (articles c) as [partitions|] eqn:Hp; [|reflexivity].
  exfalso. apply Hn. now exists c, partitions.
Qed.

End CacheFacts.

Section DedupFacts.
Import DeduplicationService.

Lemma unseen_ext (known known' : jsstring -> bool) (articles : list Article.t) :
  (forall a, In a articles ->
     known (Article.getHash a) = known' (Article.getHash a)) ->
  unseen known articles = unseen known' articles.
Proof.
  revert known known'.
  induction articles as [|a rest IH]; intros known known' Hext; [reflexivity|].
  cbn [unseen]. rewrite <- (Hext a (or_introl eq_refl)).
  destruct (known (Article.getHash a)).
  - apply IH. intros b Hb. apply Hext. now right.
  - f_equal. apply IH. intros b Hb. cbv beta.
    now rewrite (Hext b (or_intror Hb)).
Qed.

Lemma unseen_all_known (known : jsstring -> bool) (articles : list Article.t) :
  (forall a, In a articles -> known (Article.getHash a) = true) ->
  unseen known articles = [].
Proof.
  induction articles as [|a rest IH]; intros Hk; [reflexivity|].
  cbn [unseen]. rewrite (Hk a (or_introl eq_refl)).
  apply IH. intros b Hb. apply Hk. now right.
Qed.

Lemma unseen_NoDup (known : jsstring -> bool) (articles : list Article.t) :
  (forall a, In a articles -> known (Article.getHash a) = false) ->
  List.NoDup (map Article.getHash articles) ->
  unseen known articles = articles.
Proof.
  revert known.
  induction articles as [|a rest IH]; intros known Hk Hnd; [reflexivity|].
  cbn [unseen]. rewrite (Hk a (or_introl eq_refl)).
  cbn [map] in Hnd. apply List.NoDup_cons_iff in Hnd as [Hnotin Hnd].
  f_equal. apply IH; [|exact Hnd].
  intros b Hb. rewrite (Hk b (or_intror Hb)). cbn [orb].
  apply bool_decide_eq_false. intros Heq. apply Hnotin.
  rewrite <- Heq. now apply in_map.
Qed.

(** The loop of [filterNew] on a loaded cache and valid dates. *)
Lemma filterLoop_ready (articles : list Article.t) :
  forall newArticles cs,
    ready cs -> datesValid articles ->
    exists cs',
      filterLoop articles newArticles cs
        = CacheService.Returns
            (newArticles ++ unseen (CacheService.has cs) articles) cs' /\
      ready cs' /\
      forall h,
        CacheService.has cs' h = true <->
        CacheService.has cs h = true \/ In h (map Article.getHash articles).
Proof.
  induction articles as [|a rest IH]; intros acc cs Hready Hdates.
  - exists cs. cbn [filterLoop unseen map]. rewrite app_nil_r.
    split; [reflexivity|]. split; [exact Hready|].
    intros h. cbn [In]. tauto.
  - apply Forall_cons_iff in Hdates as [Hdate Hdates].
    cbn [filterLoop unseen].
    destruct (CacheService.has cs (Article.getHash a)) eqn:Hhas.
    + destruct (IH acc cs Hready Hdates) as (cs' & -> & Hready' & Hhas').
      exists cs'. split; [reflexivity|]. split; [exact Hready'|].
      intros h. rewrite Hhas'. cbn [map In].
      split; [tauto|]. intros [H | [<- | H]]; tauto.
    + destruct (add_ready cs (Article.source a) (Article.getHash a)
                  (Article.publishedAt a) Hready)
        as (cs1 & Hadd & Hready1 & Hhas1).
      assert (Hstep :
        match Article.publishedAt a with
        | Some InvalidDate => CacheService.Throws RangeError cs
        | timestamp =>
            match CacheService.add cs (Article.source a) (Article.getHash a)
                    timestamp with
            | CacheService.Returns _ cs =>
                filterLoop rest (acc ++ [a]) cs
            | CacheService.Throws e cs => CacheService.Throws e cs
            end
        end = filterLoop rest (acc ++ [a]) cs1).
      { destruct (Article.publishedAt a) as [[ms|]|];
          [now rewrite Hadd | congruence | now rewrite Hadd]. }
      rewrite Hstep.
      destruct (IH (acc ++ [a]) cs1 Hready1 Hdates)
        as (cs' & -> & Hready' & Hhas').
      exists cs'. split.
      { rewrite <- app_assoc. cbn [app]. do 3 f_equal.
        apply unseen_ext. intros b _. apply Hhas1. }
      split; [exact Hready'|].
      intros h. rewrite Hhas', Hhas1, orb_true_iff, bool_decide_eq_true.
      cbn [map In]. intuition congruence.
Qed.

End DedupFacts.

Section DedupTheorems.
Import DeduplicationService.

Lemma filterLoop_all_seen (articles : list Article.t) :
  forall newArticles cs,
    (forall a, In a articles ->
       CacheService.has cs (Article.getHash a) = true) ->
    filterLoop articles newArticles cs = CacheService.Returns newArticles cs.
Proof.
  induction articles as [|a rest IH]; intros acc cs Hseen; [reflexivity|].
  cbn [filterLoop]. rewrite (Hseen a (or_introl eq_refl)).
  apply IH. intros b Hb. apply Hseen. now right.
Qed.

(** C3 (amended).  On a loaded cache that has its [articles] object and
    none of the articles' hashes, and for articles whose source and hash
    name no inherited property and whose publication date, when present, is
    a valid date, the first [filterNew] returns the first article of each
    hash, in order: the full list when the hashes are pairwise distinct.  A
    second [filterNew] on the same list then returns the empty list and
    leaves the cache as it is. *)
Theorem filterNew_twice (s : DeduplicationService.state)
    (articles : list Article.t) :
  _loaded s = true ->
  ready (cacheService s) ->
  ownKeys articles ->
  datesValid articles ->
  Forall (fun a => CacheService.has (cacheService s) (Article.getHash a) = false)
    articles ->
  exists s1,
    filterNew s articles = Returns (firstOccurrences articles) s1 /\
    (List.NoDup (map Article.getHash articles) ->
     firstOccurrences articles = articles) /\
    filterNew s1 articles = Returns [] s1.
Proof.
  intros Hloaded Hready _ Hdates Hfresh.
  pose proof (proj1 (List.Forall_forall _ _) Hfresh) as Hfresh'.
  destruct (filterLoop_ready articles [] (cacheService s) Hready Hdates)
    as (cs' & Hloop & Hready' & Hhas').
  exists {| _loaded := true; cacheService := cs' |}.
  split; [|split].
  - unfold filterNew, initialize. rewrite Hloaded, Hloop. cbn [app].
    rewrite Hloaded. f_equal. apply unseen_ext.
    intros a Ha. now apply Hfresh'.
  - intros Hnd. apply unseen_NoDup; [reflexivity | exact Hnd].
  - unfold filterNew, initialize. cbn [_loaded cacheService].
    rewrite filterLoop_all_seen; [reflexivity|].
    intros a Ha. apply Hhas'. right. now apply in_map.
Qed.

Lemma filterNew_twice_witness :
  exists s1,
    filterNew loadedEmpty [samplePost "First"]
      = Returns (firstOccurrences [samplePost "First"]) s1 /\
    (List.NoDup (map Article.getHash [samplePost "First"]) ->
     firstOccurrences [samplePost "First"] = [samplePost "First"]) /\
    filterNew s1 [samplePost "First"] = Returns [] s1.
Proof.
  apply filterNew_twice.
  - reflexivity.
  - eexists _, _. split; reflexivity.
  - repeat constructor.
  - repeat constructor. discriminate.
  - repeat constructor.
Defined.

(** C3 as stated fails: when two articles of the list have the same hash, the
    first [filterNew] returns only the first of them, not the full list. *)
Lemma filterNew_drops_repeated_hash :
  Forall (fun a => CacheService.has (cacheService loadedEmpty)
                     (Article.getHash a) = false)
    [samplePost "First"; samplePost "Second"] /\
  exists s1,
    filterNew loadedEmpty [samplePost "First"; samplePost "Second"]
    = Returns [samplePost "First"] s1.
Proof.
  split; [repeat constructor|].
  eexists. reflexivity.
Qed.

End DedupTheorems.

(** ** Loading the cache *)

Section LoadTheorems.
Import CacheService.

(** When the file is missing, unreadable or not valid JSON, [load] creates the
    empty cache and writes it to the file. *)
Lemma load_failure_persists (s : state) :
  disk s = NoFile \/ disk s = Unreadable \/ disk s = Malformed
  \/ disk s = JsonNull ->
  diskFails s = false ->
  exists c s',
    load s = Returns (Some c) s' /\ _cache s' = Some c /\ disk s' = Json c /\
    version c = Some Constants.CACHE_CONFIG_version /\
    articles c = articles (_createEmptyCache s).
Proof.
  intros Hdisk Hok. unfold load, save.
  destruct Hdisk as [-> | [-> | [-> | ->]]]; cbn; rewrite Hok;
    eexists _, _; repeat split; reflexivity.
Qed.

(** C4 (what the code does).  When the file holds a well-formed cache of
    another version, [load] replaces the cache in memory by the empty cache
    and returns it without raising an error, but it does not write the file:
    the file still holds the old version and the old entries when [load]
    returns. *)
Theorem load_version_mismatch_not_persisted (s : state) (c : cache) :
  disk s = Json c ->
  version c <> Some Constants.CACHE_CONFIG_version ->
  load s = Returns (Some (_createEmptyCache s))
             (with_cache s (_createEmptyCache s)) /\
  disk (with_cache s (_createEmptyCache s)) = Json c.
Proof.
  intros Hdisk Hversion. unfold load. rewrite Hdisk.
  rewrite bool_decide_eq_false_2 by exact Hversion.
  split; [reflexivity | exact Hdisk].
Qed.

Lemma load_version_mismatch_not_persisted_witness :
  load staleStart = Returns (Some (_createEmptyCache staleStart))
                      (with_cache staleStart (_createEmptyCache staleStart)) /\
  disk (with_cache staleStart (_createEmptyCache staleStart)) = Json staleCache.
Proof.
  apply load_version_mismatch_not_persisted; [reflexivity|].
  vm_compute. discriminate.
Defined.

End LoadTheorems.

(** ** Articles without an address *)

Section CallSequences.
Import DeduplicationService.

Lemma ready_dec (cs : CacheService.state) : ready cs \/ ~ ready cs.
Proof.
  unfold ready.
  destruct (CacheService._cache cs) as [c|]; [|right; intros (? & ? & ? & _); discriminate].
  destruct (CacheService.articles c) as [partitions|] eqn:Hp.
  - left. now exists c, partitions.
  - right. intros (c' & p & Hc & Hp'). congruence.
Qed.

(** The loop of [filterNew] from any state: it only adds to the cache, and
    what it lets through was unknown before, is known after, and has pairwise
    distinct hashes. *)
Lemma filterLoop_general (articles : list Article.t) :
  forall newArticles cs,
    match filterLoop articles newArticles cs with
    | CacheService.Returns l cs' =>
        exists kept,
          l = newArticles ++ kept /\
          (forall h, CacheService.has cs h = true ->
                     CacheService.has cs' h = true) /\
          (forall a, In a kept ->
             In a articles /\
             CacheService.has cs (Article.getHash a) = false /\
             CacheService.has cs' (Article.getHash a) = true) /\
          List.NoDup (map Article.getHash kept)
    | CacheService.Throws _ cs' =>
        forall h, CacheService.has cs h = true -> CacheService.has cs' h = true
    end.
Proof.
  induction articles as [|a rest IH]; intros acc cs; cbn [filterLoop].
  - exists []. rewrite app_nil_r. split; [reflexivity|]. split; [tauto|].
    split; [intros ? [] | constructor].
  - destruct (CacheService.has cs (Article.getHash a)) eqn:Hhas.
    + specialize (IH acc cs).
      destruct (filterLoop rest acc cs) as [l cs' | e cs']; [|exact IH].
      destruct IH as (kept & -> & Hmono & Hkept & Hnd).
      exists kept. split; [reflexivity|]. split; [exact Hmono|].
      split; [|exact Hnd].
      intros b Hb. destruct (Hkept b Hb) as (? & ? & ?).
      split; [now right | now split].
    + assert (Hstep :
        match Article.publishedAt a with
        | Some InvalidDate => CacheService.Throws RangeError cs
        | timestamp =>
            match CacheService.add cs (Article.source a) (Article.getHash a)
                    timestamp with
            | CacheService.Returns _ cs =>
                filterLoop rest (acc ++ [a]) cs
            | CacheService.Throws e cs => CacheService.Throws e cs
            end
        end = CacheService.Throws RangeError cs
        \/ match Article.publishedAt a with
           | Some InvalidDate => CacheService.Throws RangeError cs
           | timestamp =>
               match CacheService.add cs (Article.source a) (Article.getHash a)
                       timestamp with
               | CacheService.Returns _ cs =>
                   filterLoop rest (acc ++ [a]) cs
               | CacheService.Throws e cs => CacheService.Throws e cs
               end
           end = CacheService.Throws TypeError cs
        \/ exists cs1,
             ready cs1 /\
             (forall h, CacheService.has cs1 h
                        = CacheService.has cs h
                          || bool_decide (h = Article.getHash a)) /\
             match Article.publishedAt a with
             | Some InvalidDate => CacheService.Throws RangeError cs
             | timestamp =>
                 match CacheService.add cs (Article.source a)
                         (Article.getHash a) timestamp with
                 | CacheService.Returns _ cs =>
                     filterLoop rest (acc ++ [a]) cs
                 | CacheService.Throws e cs => CacheService.Throws e cs
                 end
             end = filterLoop rest (acc ++ [a]) cs1).
      { destruct (ready_dec cs) as [Hready | Hnot].
        - destruct (add_ready cs (Article.source a) (Article.getHash a)
                      (Article.publishedAt a) Hready)
            as (cs1 & Hadd & Hready1 & Hhas1).
          destruct (Article.publishedAt a) as [[ms|]|]; [right; right | now left | right; right];
            exists cs1; rewrite Hadd; now repeat split.
        - destruct (Article.publishedAt a) as [[ms|]|]; [right; left | now left | right; left];
            now rewrite add_not_ready. }
      destruct Hstep as [-> | [-> | (cs1 & Hready1 & Hhas1 & ->)]];
        [tauto | tauto |].
      specialize (IH (acc ++ [a]) cs1).
      assert (Hmono1 : forall h, CacheService.has cs h = true ->
                                 CacheService.has cs1 h = true).
      { intros h Hh. now rewrite Hhas1, Hh. }
      destruct (filterLoop rest (acc ++ [a]) cs1) as [l cs' | e cs'];
        [|intros h Hh; now apply IH, Hmono1].
      destruct IH as (kept & -> & Hmono & Hkept & Hnd).
      exists (a :: kept). split; [now rewrite <- app_assoc|].
      split; [intros h Hh; now apply Hmono, Hmono1|].
      split.
      * intros b [<- | Hb].
        -- split; [now left|]. split; [exact Hhas|].
           apply Hmono. rewrite Hhas1, bool_decide_eq_true_2 by reflexivity.
           apply orb_true_r.
        -- destruct (Hkept b Hb) as (Hin & Hfresh & Hknown).
           split; [now right|]. split; [|exact Hknown].
           rewrite Hhas1 in Hfresh. now apply orb_false_elim in Hfresh.
      * cbn [map]. constructor; [|exact Hnd].
        intros Hin. apply in_map_iff in Hin as (b & Heq & Hb).
        destruct (Hkept b Hb) as (_ & Hfresh & _).
        rewrite Heq, Hhas1, bool_decide_eq_true_2 in Hfresh by reflexivity.
        now rewrite orb_true_r in Hfresh.
Qed.

Lemma remembers_extend (cs cs' : CacheService.state)
    (kept new : list Article.t) :
  remembers {| _loaded := true; cacheService := cs |} kept ->
  (forall h, CacheService.has cs h = true -> CacheService.has cs' h = true) ->
  (forall a, In a new ->
     CacheService.has cs (Article.getHash a) = false /\
     CacheService.has cs' (Article.getHash a) = true) ->
  List.NoDup (map Article.getHash new) ->
  remembers {| _loaded := true; cacheService := cs' |} (kept ++ new).
Proof.
  intros [Hnd Hkept] Hmono Hnew Hnd'. split.
  - rewrite map_app. apply List.NoDup_app; repeat split; try assumption.
    intros h Hin Hin'.
    apply in_map_iff in Hin as (a & <- & Ha).
    apply in_map_iff in Hin' as (b & Heq & Hb).
    destruct (Hkept a Ha) as [_ Hknown]. destruct (Hnew b Hb) as [Hfresh _].
    cbn in Hknown. congruence.
  - intros a Ha. split; [reflexivity|]. cbn.
    apply in_app_or in Ha as [Ha | Ha].
    + apply Hmono. now apply (Hkept a Ha).
    + now apply (Hnew a Ha).
Qed.

Lemma filterNew_remembers (s : DeduplicationService.state)
    (kept articles : list Article.t) :
  remembers s kept ->
  match filterNew s articles with
  | Returns l s' =>
      remembers s' (kept ++ l) /\ (forall a, In a l -> In a articles)
  | Throws _ s' => remembers s' kept
  end.
Proof.
  intros Hrem. unfold filterNew, initialize.
  assert (Hinit :
    (exists cs, (if _loaded s then Returns tt s
                 else match CacheService.load (cacheService s) with
                      | CacheService.Returns _ cs =>
                          Returns tt {| _loaded := true; cacheService := cs |}
                      | CacheService.Throws e cs =>
                          Throws e {| _loaded := false; cacheService := cs |}
                      end)
                = Returns tt {| _loaded := true; cacheService := cs |} /\
                remembers {| _loaded := true; cacheService := cs |} kept)
    \/ (exists e s', (if _loaded s then Returns tt s
                      else match CacheService.load (cacheService s) with
                           | CacheService.Returns _ cs =>
                               Returns tt {| _loaded := true; cacheService := cs |}
                           | CacheService.Throws e cs =>
                               Throws e {| _loaded := false; cacheService := cs |}
                           end)
                     = Throws e s' /\ remembers s' kept)).
  { destruct s as [loaded cs]. cbn [_loaded cacheService] in *.
    destruct loaded.
    - left. now exists cs.
    - assert (kept = []) as ->.
      { destruct kept as [|a kept]; [reflexivity|].
        destruct Hrem as [_ Hrem].
        destruct (Hrem a (or_introl eq_refl)) as [Hl _]. discriminate. }
      assert (Hnil : forall s0, remembers s0 [])
        by (intros s0; split; [constructor | intros ? []]).
      destruct (CacheService.load cs) as [o cs' | e cs'].
      + left. exists cs'. split; [reflexivity | apply Hnil].
      + right. eexists _, _. split; [reflexivity | apply Hnil]. }
  destruct Hinit as [(cs & -> & Hrem') | (e & s' & -> & Hrem')]; [|exact Hrem'].
  cbn [_loaded cacheService].
  pose proof (filterLoop_general articles [] cs) as Hloop.
  destruct (filterLoop articles [] cs) as [l cs' | e cs'].
  - destruct Hloop as (new & -> & Hmono & Hnew & Hnd). cbn [app]. split.
    + apply (remembers_extend cs cs'); try assumption.
      intros a Ha. destruct (Hnew a Ha) as (_ & ? & ?). now split.
    + intros a Ha. now destruct (Hnew a Ha).
  - rewrite <- (app_nil_r kept).
    apply (remembers_extend cs cs'); try assumption;
      [intros ? [] | constructor].
Qed.

Lemma filterNewCalls_remembers (calls : list (list Article.t)) :
  forall s kept,
    remembers s kept ->
    List.NoDup (map Article.getHash (kept ++ concat (filterNewCalls calls s))) /\
    forall a, In a (concat (filterNewCalls calls s)) -> In a (concat calls).
Proof.
  induction calls as [|articles rest IH]; intros s kept Hrem.
  - cbn. rewrite app_nil_r. split; [apply Hrem | tauto].
  - cbn [filterNewCalls].
    pose proof (filterNew_remembers s kept articles Hrem) as Hcall.
    destruct (filterNew s articles) as [l s' | e s'].
    + destruct Hcall as [Hrem' Hsub].
      destruct (IH s' (kept ++ l) Hrem') as [Hnd Hin].
      cbn [concat]. split; [now rewrite app_assoc|].
      intros a Ha. apply in_app_or in Ha as [Ha | Ha]; apply in_or_app;
        [left; now apply Hsub | right; now apply Hin].
    + destruct (IH s' kept Hcall) as [Hnd Hin].
      split; [exact Hnd|].
      intros a Ha. cbn [concat]. apply in_or_app. right. now apply Hin.
Qed.

End CallSequences.

Lemma filter_length_le_one {A : Type} (f : A -> jsstring) (P : A -> bool)
    (h : jsstring) (l : list A) :
  List.NoDup (map f l) ->
  (forall a, In a l -> P a = true -> f a = h) ->
  length (List.filter P l) <= 1.
Proof.
  induction l as [|a l IH]; intros Hnd HP; [cbn; lia|].
  cbn [map] in Hnd. apply List.NoDup_cons_iff in Hnd as [Hnotin Hnd].
  cbn [List.filter]. destruct (P a) eqn:Ha.
  - assert (List.filter P l = []) as ->; [|cbn; lia].
    destruct (List.filter P l) as [|b bs] eqn:Hf; [reflexivity|].
    assert (Hb : In b (List.filter P l)) by (rewrite Hf; now left).
    apply List.filter_In in Hb as [Hb Hpb].
    exfalso. apply Hnotin.
    rewrite (HP a (or_introl eq_refl) Ha), <- (HP b (or_intror Hb) Hpb).
    now apply in_map.
  - apply IH; [exact Hnd|]. intros b Hb. apply HP. now right.
Qed.

(** ** The article fingerprint *)

Section FingerprintFacts.

Lemma trimStart_shorter (s : jsstring) :
  trimStart s = s \/ length (trimStart s) < length s.
Proof.
  destruct s as [|c s]; [now left|].
  cbn [trimStart]. destruct (isWhiteSpace c); [right | now left].
  pose proof (length_trimStart s). cbn [length]. lia.
Qed.

Lemma trimStart_fixed_head (s : jsstring) :
  s <> [] -> trimStart s = s ->
  exists c r, s = c :: r /\ isWhiteSpace c = false.
Proof.
  intros Hne Hfix. destruct s as [|c r]; [congruence|].
  exists c, r. split; [reflexivity|].
  cbn [trimStart] in Hfix. destruct (isWhiteSpace c); [|reflexivity].
  pose proof (length_trimStart r) as Hlen. rewrite Hfix in Hlen.
  cbn [length] in Hlen. lia.
Qed.

(** A string that [trim] leaves alone starts and ends with code units that
    are not white space. *)
Lemma trim_fixed (s : jsstring) :
  s <> [] -> trim s = s ->
  (exists c r, s = c :: r /\ isWhiteSpace c = false) /\
  (exists d r, rev s = d :: r /\ isWhiteSpace d = false).
Proof.
  intros Hne Hfix.
  assert (Hstart : trimStart s = s).
  { destruct (trimStart_shorter s) as [H | H]; [exact H|].
    pose proof (f_equal (@length N) Hfix) as Hlen.
    unfold trim, trimEnd in Hlen. rewrite length_rev in Hlen.
    pose proof (length_trimStart (rev (trimStart s))) as Hle.
    rewrite length_rev in Hle. lia. }
  split; [now apply trimStart_fixed_head|].
  unfold trim in Hfix. rewrite Hstart in Hfix. unfold trimEnd in Hfix.
  apply (f_equal (@rev N)) in Hfix. rewrite rev_involutive in Hfix.
  apply trimStart_fixed_head; [|exact Hfix].
  intros Hrev. apply Hne. apply (f_equal (@rev N)) in Hrev.
  now rewrite rev_involutive in Hrev.
Qed.

Lemma trim_snoc_kept (s : jsstring) (x : N) :
  s <> [] -> trim s = s -> isWhiteSpace x = false ->
  trim (s ++ [x]) = s ++ [x].
Proof.
  intros Hne Hfix Hx.
  destruct (trim_fixed s Hne Hfix) as [(c & r & -> & Hc) _].
  unfold trim, trimEnd. cbn [app trimStart]. rewrite Hc.
  change (c :: r ++ [x]) with ((c :: r) ++ [x]).
  rewrite rev_app_distr. cbn [rev app trimStart]. rewrite Hx.
  change (x :: rev r ++ [c]) with ([x] ++ rev (c :: r)).
  rewrite rev_app_distr, rev_involutive. reflexivity.
Qed.

Lemma endsWith_snoc (s : jsstring) (x : N) : endsWith (s ++ [x]) [x] = true.
Proof.
  unfold endsWith. rewrite rev_app_distr. cbn. rewrite N.eqb_refl.
  now destruct (rev s).
Qed.

Lemma slice_drop_last (s : jsstring) (x : N) : slice (s ++ [x]) 0 (-1) = s.
Proof.
  unfold slice. rewrite (clampIndex_nonneg _ 0) by lia.
  assert (Hto : clampIndex (length (s ++ [x])) (-1) = length s).
  { unfold clampIndex. rewrite length_app. cbn [length].
    change (-1 <? 0)%Z with true. cbv iota. lia. }
  rewrite Hto. change (Z.to_nat 0) with 0. rewrite Nat.min_0_l, Nat.sub_0_r.
  change (skipn 0 (s ++ [x])) with (s ++ [x]).
  rewrite firstn_app, Nat.sub_diag, firstn_all.
  cbn [firstn]. now rewrite app_nil_r.
Qed.

Lemma filter_filter_andb {A : Type} (f g : A -> bool) (l : list A) :
  List.filter f (List.filter g l) = List.filter (fun x => g x && f x) l.
Proof.
  induction l as [|a l IH]; [reflexivity|].
  cbn [List.filter]. destruct (g a); cbn [andb List.filter]; [|exact IH].
  destruct (f a); now rewrite IH.
Qed.

Lemma filter_all {A : Type} (f : A -> bool) (l : list A) :
  (forall a, f a = true) -> List.filter f l = l.
Proof.
  intros Hf. induction l as [|a l IH]; [reflexivity|].
  cbn [List.filter]. now rewrite Hf, IH.
Qed.

End FingerprintFacts.

Section FingerprintTheorems.
Context {Rest : Type}.
Variable sha256hex : jsstring -> jsstring.
Variable URL_parse : jsstring -> option (URL Rest).
Variable URL_toString : URL Rest -> jsstring.

Lemma constructor_fingerprint (i : Article.input) (url : jsstring) :
  Article.in_url i = Some url ->
  Article.getHash (Article.constructor sha256hex URL_parse URL_toString i)
  = fingerprint sha256hex URL_parse URL_toString (Article.in_source i) url.
Proof.
  intros Hurl. unfold Article.getHash, Article.constructor, fingerprint.
  cbn [Article.id]. now rewrite Hurl.
Qed.

Lemma delete_all (names : list jsstring) :
  forall u : URL Rest,
    fold_left Article.searchParams_delete names u
    = {| hostname := hostname u; pathname := pathname u;
         searchParams :=
           List.filter (fun p => negb (isTracking names p)) (searchParams u);
         other := other u |}.
Proof.
  induction names as [|name names IH]; intros u; cbn [fold_left].
  - destruct u. cbn. now rewrite filter_all.
  - rewrite IH. unfold Article.searchParams_delete at 1 2 3 4.
    cbn [hostname pathname searchParams other]. f_equal.
    rewrite filter_filter_andb. apply List.filter_ext.
    intros p. unfold isTracking. cbn [existsb].
    now rewrite negb_orb.
Qed.

Lemma normalizeUrl_nonempty (url : jsstring) :
  url <> [] ->
  Article._normalizeUrl URL_parse URL_toString (Some url)
  = reserialized URL_parse URL_toString (if endsWith (trim url) (lit "/")
                  then slice (trim url) 0 (-1) else trim url).
Proof. destruct url; [congruence | reflexivity]. Qed.

Lemma snoc_nonempty (url : jsstring) (c : N) : url ++ [c] <> [].
Proof. destruct url; discriminate. Qed.

Lemma normalizeUrl_canonical (url : jsstring) :
  canonicalText url ->
  Article._normalizeUrl URL_parse URL_toString (Some url)
  = match URL_parse url with
    | Some u =>
        URL_toString
          {| hostname := hostname u; pathname := pathname u;
             searchParams := withoutTracking (searchParams u);
             other := other u |}
    | None => url
    end.
Proof.
  intros (Hne & Htrim & Hslash).
  rewrite normalizeUrl_nonempty, Htrim, Hslash by exact Hne.
  unfold reserialized.
  destruct (URL_parse url) as [u|]; [|reflexivity].
  now rewrite delete_all.
Qed.

Lemma normalizeUrl_slash (url : jsstring) :
  canonicalText url ->
  Article._normalizeUrl URL_parse URL_toString (Some (url ++ lit "/"))
  = Article._normalizeUrl URL_parse URL_toString (Some url).
Proof.
  intros (Hne & Htrim & Hslash).
  change (lit "/") with [47%N] in *.
  rewrite !normalizeUrl_nonempty by (exact Hne || apply snoc_nonempty).
  rewrite (trim_snoc_kept url 47%N Hne Htrim eq_refl).
  change (lit "/") with [47%N].
  now rewrite endsWith_snoc, slice_drop_last, Htrim, Hslash.
Qed.

Lemma normalizeUrl_blank_before (url : jsstring) (c : N) :
  url <> [] -> isWhiteSpace c = true ->
  Article._normalizeUrl URL_parse URL_toString (Some (c :: url))
  = Article._normalizeUrl URL_parse URL_toString (Some url).
Proof.
  intros Hne Hc. rewrite !normalizeUrl_nonempty by (exact Hne || discriminate).
  assert (Htrim : trim (c :: url) = trim url)
    by (unfold trim; cbn [trimStart]; now rewrite Hc).
  now rewrite Htrim.
Qed.

Lemma normalizeUrl_blank_after (url : jsstring) (c : N) :
  url <> [] -> isWhiteSpace c = true ->
  Article._normalizeUrl URL_parse URL_toString (Some (url ++ [c]))
  = Article._normalizeUrl URL_parse URL_toString (Some url).
Proof.
  intros Hne Hc.
  rewrite !normalizeUrl_nonempty by (exact Hne || apply snoc_nonempty).
  now rewrite (trim_snoc url c Hc).
Qed.

(** Equal fingerprints of addresses with different normal forms are a
    collision of the hash function. *)
Lemma fingerprint_collision (source url1 url2 : jsstring) :
  fingerprint sha256hex URL_parse URL_toString source url1
  = fingerprint sha256hex URL_parse URL_toString source url2 ->
  Article._normalizeUrl URL_parse URL_toString (Some url1)
  <> Article._normalizeUrl URL_parse URL_toString (Some url2) ->
  collide sha256hex URL_parse URL_toString source url1 url2.
Proof.
  unfold fingerprint, Article._generateId, collide, hashedText.
  intros Heq Hne. split; [|exact Heq].
  intros H. apply app_inv_head in H. apply app_inv_head in H. contradiction.
Qed.

(** C5 (amended).  For every source, the fingerprint of an address that is
    not empty, is trimmed and has no slash at its end does not change when
    one slash is added at its end, nor when query parameters named
    [utm_source], [utm_medium], [utm_campaign], [utm_term] or [utm_content]
    are added or removed (the two addresses parse to URLs that are the same
    but for such parameters).  White space before or after an address does
    not change the fingerprint either.  Two addresses with the same
    normalised form have the same fingerprint, and two addresses with
    different normalised forms have different fingerprints, unless the hash
    function gives the two different texts it is applied to the same hash:
    so it is for two such addresses that the URL class rejects and that
    differ, and for two that it parses to URLs that differ otherwise than by
    tracking parameters, when it serialises different URLs differently. *)
Theorem fingerprint_stability (source : jsstring) :
  (forall url,
     canonicalText url ->
     fingerprint sha256hex URL_parse URL_toString source (url ++ lit "/")
     = fingerprint sha256hex URL_parse URL_toString source url) /\
  (forall url1 url2 u1 u2,
     canonicalText url1 -> canonicalText url2 ->
     URL_parse url1 = Some u1 -> URL_parse url2 = Some u2 ->
     sameButTracking u1 u2 ->
     fingerprint sha256hex URL_parse URL_toString source url1
     = fingerprint sha256hex URL_parse URL_toString source url2) /\
  (forall url c,
     url <> [] -> isWhiteSpace c = true ->
     fingerprint sha256hex URL_parse URL_toString source (c :: url)
     = fingerprint sha256hex URL_parse URL_toString source url /\
     fingerprint sha256hex URL_parse URL_toString source (url ++ [c])
     = fingerprint sha256hex URL_parse URL_toString source url) /\
  (forall url1 url2,
     Article._normalizeUrl URL_parse URL_toString (Some url1)
     = Article._normalizeUrl URL_parse URL_toString (Some url2) ->
     fingerprint sha256hex URL_parse URL_toString source url1
     = fingerprint sha256hex URL_parse URL_toString source url2) /\
  (forall url1 url2,
     Article._normalizeUrl URL_parse URL_toString (Some url1)
     <> Article._normalizeUrl URL_parse URL_toString (Some url2) ->
     fingerprint sha256hex URL_parse URL_toString source url1
     <> fingerprint sha256hex URL_parse URL_toString source url2
     \/ collide sha256hex URL_parse URL_toString source url1 url2) /\
  (forall url1 url2,
     canonicalText url1 -> canonicalText url2 ->
     URL_parse url1 = None -> URL_parse url2 = None ->
     url1 <> url2 ->
     fingerprint sha256hex URL_parse URL_toString source url1
     <> fingerprint sha256hex URL_parse URL_toString source url2
     \/ collide sha256hex URL_parse URL_toString source url1 url2) /\
  (forall url1 url2 u1 u2,
     canonicalText url1 -> canonicalText url2 ->
     URL_parse url1 = Some u1 -> URL_parse url2 = Some u2 ->
     (forall u v : URL Rest, URL_toString u = URL_toString v -> u = v) ->
     ~ sameButTracking u1 u2 ->
     fingerprint sha256hex URL_parse URL_toString source url1
     <> fingerprint sha256hex URL_parse URL_toString source url2
     \/ collide sha256hex URL_parse URL_toString source url1 url2).
Proof.
  assert (Hdistinct : forall url1 url2,
            Article._normalizeUrl URL_parse URL_toString (Some url1)
            <> Article._normalizeUrl URL_parse URL_toString (Some url2) ->
            fingerprint sha256hex URL_parse URL_toString source url1
            <> fingerprint sha256hex URL_parse URL_toString source url2
            \/ collide sha256hex URL_parse URL_toString source url1 url2).
  { intros url1 url2 Hne.
    destruct (decide (fingerprint sha256hex URL_parse URL_toString source url1
                      = fingerprint sha256hex URL_parse URL_toString source
                          url2)) as [Heq | Hneq]; [right | now left].
    eapply fingerprint_collision; eassumption. }
  split; [|split; [|split; [|split; [|split; [|split]]]]].
  - intros url Hurl. unfold fingerprint. now rewrite normalizeUrl_slash.
  - intros url1 url2 u1 u2 H1 H2 Hp1 Hp2 (Hh & Hp & Ho & Hq).
    unfold fingerprint. rewrite !normalizeUrl_canonical by assumption.
    now rewrite Hp1, Hp2, Hh, Hp, Ho, Hq.
  - intros url c Hne Hc. unfold fingerprint.
    now rewrite normalizeUrl_blank_before, normalizeUrl_blank_after.
  - intros url1 url2 Heq. unfold fingerprint. now rewrite Heq.
  - exact Hdistinct.
  - intros url1 url2 H1 H2 Hp1 Hp2 Hne. apply Hdistinct.
    rewrite !normalizeUrl_canonical by assumption. now rewrite Hp1, Hp2.
  - intros url1 url2 u1 u2 H1 H2 Hp1 Hp2 Hinj Hdiff. apply Hdistinct.
    rewrite !normalizeUrl_canonical by assumption. rewrite Hp1, Hp2.
    intros Heq. apply Hinj in Heq. injection Heq as Hh Hp Hq Ho.
    apply Hdiff. now repeat split.
Qed.

End FingerprintTheorems.

Lemma fingerprint_stability_witness :
  fingerprint (fun data => data) parseScenario serializeScenario
    (lit "qiita") (lit "https://example.com/post?id=7" ++ lit "/")
  = fingerprint (fun data => data) parseScenario serializeScenario
      (lit "qiita") (lit "https://example.com/post?id=7") /\
  fingerprint (fun data => data) parseScenario serializeScenario
    (lit "qiita") (lit "https://example.com/post?utm_source=feed&id=7")
  = fingerprint (fun data => data) parseScenario serializeScenario
      (lit "qiita") (lit "https://example.com/post?id=7") /\
  (fingerprint (fun data => data) parseScenario serializeScenario
     (lit "qiita") (lit "https://example.com/first")
   <> fingerprint (fun data => data) parseScenario serializeScenario
        (lit "qiita") (lit "https://example.com/second")
   \/ collide (fun data => data) parseScenario serializeScenario
        (lit "qiita") (lit "https://example.com/first")
        (lit "https://example.com/second")).
Proof.
  pose proof (fingerprint_stability (fun data => data) parseScenario
                serializeScenario (lit "qiita"))
    as (Hslash & Htracking & _ & _ & _ & Hrejected & _).
  split; [|split].
  - apply Hslash. split; [discriminate|]. split; reflexivity.
  - apply (Htracking _ _
             {| hostname := lit "example.com"; pathname := lit "/post";
                searchParams := [(lit "utm_source", lit "feed");
                                 (lit "id", lit "7")];
                other := tt |}
             {| hostname := lit "example.com"; pathname := lit "/post";
                searchParams := [(lit "id", lit "7")]; other := tt |}).
    + split; [discriminate|]. split; reflexivity.
    + split; [discriminate|]. split; reflexivity.
    + reflexivity.
    + reflexivity.
    + repeat split; reflexivity.
  - apply Hrejected.
    + split; [discriminate|]. split; reflexivity.
    + split; [discriminate|]. split; reflexivity.
    + reflexivity.
    + reflexivity.
    + discriminate.
Defined.

(** C5 as stated fails: two addresses that differ by a blank in front, and
    not by a slash at the end or a tracking parameter, have the same
    fingerprint, whatever the hash function and the URL parser. *)
Lemma fingerprint_ignores_leading_blank :
  lit " https://example.com/post" <> lit "https://example.com/post" /\
  forall (Rest : Type) (sha256hex : jsstring -> jsstring)
         (URL_parse : jsstring -> option (URL Rest))
         (URL_toString : URL Rest -> jsstring) (source : jsstring),
    fingerprint sha256hex URL_parse URL_toString source
      (lit " https://example.com/post")
    = fingerprint sha256hex URL_parse URL_toString source
        (lit "https://example.com/post").
Proof.
  split; [discriminate|]. intros Rest sha256hex URL_parse URL_toString source.
  reflexivity.
Qed.

(** ** The webhook sender *)

Lemma attempts_first_call {W E R : Type} (fn : W -> W * (E + R))
    (random : nat -> Q) (self : RetryHandler.t) (n : nat) (attempt : Z)
    (lastError : option E) (draws : nat) (w : W) :
  exists c w' trace,
    RetryHandler.attempts fn random self (S n) attempt lastError draws w
    = (c, w', RetryHandler.Invoke (snd (fn w)) :: trace).
Proof.
  cbn [RetryHandler.attempts].
  destruct (fn w) as [w1 [error | r]]; cbn [snd]; [|eauto].
  destruct (attempt =? RetryHandler.maxRetries self)%Z; [eauto|].
  destruct (RetryHandler.attempts fn random self n _ _ _ w1) as [[c w2] trace].
  eauto.
Qed.

Section NotifierTheorems.
Context {W Rest : Type}.
Variable axios_post : W -> jsstring -> jsstring -> W * (error + Z).
Variable random : nat -> nat -> Q.
Variable URL_parse : jsstring -> option (URL Rest).

(** The one check [send] makes: without an address it throws before any
    call of the transport. *)
Lemma send_refuses_missing_url (self : DiscordNotifier.t)
    (messages : list jsstring) (w : W) :
  DiscordNotifier.webhookUrl self = None
  \/ DiscordNotifier.webhookUrl self = Some [] ->
  DiscordNotifier.send axios_post random self messages w
  = (RetryHandler.Threw (Some (Error (lit "DISCORD_WEBHOOK_URL is not set"))),
     w, []).
Proof.
  intros [H | H]; unfold DiscordNotifier.send; now rewrite H.
Qed.

(** C8 (what the code does).  [send] does not validate the address: for
    every non-empty address, also one that [isValidWebhookUrl] rejects, the
    first thing [send] does with a message is to post it to that address. *)
Theorem send_skips_validation (url message : jsstring) (rest : list jsstring)
    (w : W) :
  url <> [] ->
  DiscordNotifier.isValidWebhookUrl URL_parse (Some url) = false ->
  exists c w' trace events,
    DiscordNotifier.send axios_post random
      (DiscordNotifier.constructor (Some url)) (message :: rest) w
    = (c, w',
       DiscordNotifier.Sending 1 message
         (RetryHandler.Invoke
            (snd (DiscordNotifier.postOnce axios_post url message 1 w))
          :: trace)
       :: events).
Proof.
  intros Hne _. unfold DiscordNotifier.send.
  cbn [DiscordNotifier.webhookUrl DiscordNotifier.constructor].
  destruct url as [|c0 r]; [congruence|].
  cbn [DiscordNotifier.sendFrom].
  unfold DiscordNotifier._sendMessage, RetryHandler.execute.
  change (Z.to_nat
            (RetryHandler.maxRetries
               (DiscordNotifier.retryHandler
                  (DiscordNotifier.constructor (Some (c0 :: r)))) + 1))
    with 4.
  destruct (attempts_first_call
              (DiscordNotifier.postOnce axios_post (c0 :: r) message 1)
              (random 1)
              (DiscordNotifier.retryHandler
                 (DiscordNotifier.constructor (Some (c0 :: r))))
              3 0 None 0 w) as (c & w1 & trace & ->).
  destruct c as [result | e]; [|eauto].
  destruct (DiscordNotifier.sendFrom axios_post random _ (c0 :: r) rest 2 _ w1)
    as [[c' w2] events].
  eauto.
Qed.

End NotifierTheorems.

Lemma send_skips_validation_witness :
  DiscordNotifier.isValidWebhookUrl parseExample
    (Some (lit "https://example.com/hook")) = false /\
  exists c w' trace events,
    DiscordNotifier.send acceptAll (fun _ _ => 0%Q)
      (DiscordNotifier.constructor (Some (lit "https://example.com/hook")))
      [lit "hello"] tt
    = (c, w',
       DiscordNotifier.Sending 1 (lit "hello")
         (RetryHandler.Invoke
            (snd (DiscordNotifier.postOnce acceptAll
                    (lit "https://example.com/hook") (lit "hello") 1 tt))
          :: trace)
       :: events).
Proof.
  split; [reflexivity|].
  apply (send_skips_validation acceptAll (fun _ _ => 0%Q) parseExample);
    [discriminate | reflexivity].
Defined.

(** * Further properties of the code *)

(** ** The message packer *)

Lemma length_joined_cons (s : jsstring) (rest : list jsstring) :
  length (joined (s :: rest)) = length s + 2 + length (joined rest).
Proof.
  unfold joined. cbn [map concat]. rewrite !length_app.
  change (length NLNL) with 2. lia.
Qed.

(** While everything fits, the loop over the sections only appends. *)
Lemma packSections_append (fuel maxLength : nat) (header : jsstring)
    (sections : list jsstring) :
  forall chunks cur,
    length cur + length (joined sections) <= maxLength ->
    MessageFormatter.packSections fuel maxLength header sections chunks cur
    = Some (chunks, cur ++ joined sections).
Proof.
  induction sections as [|s rest IH]; intros chunks cur Hfit.
  - cbn. now rewrite app_nil_r.
  - rewrite length_joined_cons in Hfit.
    cbn [MessageFormatter.packSections].
    replace (maxLength <? length (cur ++ s ++ NLNL)) with false
      by (symmetry; apply Nat.ltb_ge; rewrite !length_app;
          change (length NLNL) with 2; lia).
    rewrite IH
      by (rewrite !length_app; change (length NLNL) with 2; lia).
    unfold joined. cbn [map concat]. now rewrite <- !app_assoc.
Qed.

(** X1.  Without sections the packer returns one chunk, header, blank line and
    footer, whatever the limit: nothing checks its length. *)
Theorem splitIntoChunks_no_sections (fuel maxLength : nat)
    (header footer : jsstring) :
  MessageFormatter._splitIntoChunks fuel maxLength header [] footer
  = Some [header ++ NLNL ++ footer].
Proof.
  unfold MessageFormatter._splitIntoChunks.
  cbn [MessageFormatter.packSections].
  assert (Hcur : (length header + 2 <? length (header ++ NLNL)) = false).
  { apply Nat.ltb_ge. rewrite length_app. change (length NLNL) with 2. lia. }
  rewrite Hcur. rewrite <- app_assoc.
  destruct (maxLength <? length (header ++ NLNL ++ footer)); [reflexivity|].
  destruct (length header + 2 <? length (header ++ NLNL ++ footer));
    reflexivity.
Qed.

(** X2.  When header, sections and footer fit the limit together, the packer
    returns them as one chunk, each section followed by a blank line, and
    needs no fuel for it. *)
Theorem splitIntoChunks_single_chunk (fuel maxLength : nat)
    (header : jsstring) (sections : list jsstring) (footer : jsstring) :
  length header + 2 + length (joined sections) + length footer <= maxLength ->
  MessageFormatter._splitIntoChunks fuel maxLength header sections footer
  = Some [header ++ NLNL ++ joined sections ++ footer].
Proof.
  intros Hfit. unfold MessageFormatter._splitIntoChunks.
  rewrite packSections_append
    by (rewrite length_app; change (length NLNL) with 2; lia).
  rewrite <- !app_assoc.
  replace (maxLength <? length (header ++ NLNL ++ joined sections ++ footer))
    with false
    by (symmetry; apply Nat.ltb_ge; rewrite !length_app;
        change (length NLNL) with 2; lia).
  destruct (length header + 2
            <? length (header ++ NLNL ++ joined sections ++ footer)) eqn:Hbody;
    [reflexivity|].
  apply Nat.ltb_ge in Hbody. rewrite !length_app in Hbody.
  change (length NLNL) with 2 in Hbody.
  destruct (joined sections) as [|c r]; [reflexivity|].
  cbn [length] in Hbody. lia.
Qed.

Lemma splitIntoChunks_single_chunk_witness :
  MessageFormatter._splitIntoChunks 0 20 (lit "H") [lit "AAAA"; lit "BB"]
    (lit "F")
  = Some [lit "H" ++ NLNL ++ joined [lit "AAAA"; lit "BB"] ++ lit "F"].
Proof. apply splitIntoChunks_single_chunk. vm_compute. lia. Defined.

(** X3.  When the limit is below the header's length plus four, a call with at
    least one section never returns: every piece the loop cuts off leaves a
    chunk that is again too long, so no amount of fuel is enough. *)
Theorem splitIntoChunks_long_header_never_returns (maxLength fuel : nat)
    (header : jsstring) (section : jsstring) (rest : list jsstring)
    (footer : jsstring) :
  maxLength < length header + 4 ->
  MessageFormatter._splitIntoChunks fuel maxLength header (section :: rest)
    footer = None.
Proof.
  intros Hlong. now apply splitIntoChunks_diverges.
Qed.

Lemma splitIntoChunks_long_header_never_returns_witness :
  MessageFormatter._splitIntoChunks 1000 4 (lit "H") [lit "A"] (lit "F")
  = None.
Proof.
  apply splitIntoChunks_long_header_never_returns. vm_compute. lia.
Defined.

(** ** Where the packer cuts *)

Section SplitPointFacts.

Lemma startsWith_prefix (s pat : jsstring) :
  startsWith s pat = true -> exists rest, s = pat ++ rest.
Proof.
  revert s. induction pat as [|p pat IH]; intros s H; [now exists s|].
  destruct s as [|c s]; cbn [startsWith] in H; [discriminate|].
  apply andb_prop in H as [Hp H]. apply N.eqb_eq in Hp as ->.
  destruct (IH s H) as [rest ->]. now exists rest.
Qed.

(** What the scan of [lastIndexOf] returns is [-1] or the position of an
    occurrence of the pattern. *)
Lemma lastIndexOf_scan_occurrence (pat s : jsstring) :
  forall pre found,
    (found = (-1)%Z
     \/ exists p rest, pre ++ s = p ++ pat ++ rest /\ found = Z.of_nat (length p)) ->
    lastIndexOf_scan s pat (Z.of_nat (length pre)) found = (-1)%Z
    \/ exists p rest,
         pre ++ s = p ++ pat ++ rest /\
         lastIndexOf_scan s pat (Z.of_nat (length pre)) found
         = Z.of_nat (length p).
Proof.
  induction s as [|c s IH]; intros pre found Hfound; cbn [lastIndexOf_scan].
  - destruct (startsWith [] pat) eqn:Hpat; [|exact Hfound].
    right. apply startsWith_prefix in Hpat as [rest Hpat].
    exists pre, rest. split; [|reflexivity]. now rewrite <- Hpat.
  - replace (Z.of_nat (length pre) + 1)%Z
      with (Z.of_nat (length (pre ++ [c])))
      by (rewrite length_app; cbn [length]; lia).
    replace (pre ++ c :: s) with ((pre ++ [c]) ++ s)
      by now rewrite <- app_assoc.
    apply IH. rewrite <- app_assoc. cbn [app].
    destruct (startsWith (c :: s) pat) eqn:Hpat; [|exact Hfound].
    right. apply startsWith_prefix in Hpat as [rest Hpat].
    exists pre, rest. split; [now rewrite Hpat | reflexivity].
Qed.

Lemma lastIndexOf_occurrence (s pat : jsstring) :
  lastIndexOf s pat = (-1)%Z
  \/ exists p rest, s = p ++ pat ++ rest /\ lastIndexOf s pat = Z.of_nat (length p).
Proof.
  apply (lastIndexOf_scan_occurrence pat s [] (-1)%Z). now left.
Qed.

Lemma int_gt_positive (a : Z) (n : nat) (c : Z) :
  (0 <= c)%Z -> Binary64.int_gt a (Binary64.mul n c) = true -> (0 < a)%Z.
Proof.
  intros Hc H. unfold Binary64.int_gt in H. apply Z.ltb_lt in H.
  assert (0 <= Binary64.mul n c)%Z
    by (apply round53_nonneg; apply Z.mul_nonneg_nonneg; lia).
  nia.
Qed.

End SplitPointFacts.

(** X4.  [_findSplitPoint] cuts right after a blank line of the text, or right
    after one of its newlines, or else at nine tenths of its length. *)
Theorem findSplitPoint_cut (text : jsstring) :
  (exists p rest,
     text = p ++ NLNL ++ rest /\
     MessageFormatter._findSplitPoint text = (Z.of_nat (length p) + 2)%Z) \/
  (exists p rest,
     text = p ++ [LF] ++ rest /\
     MessageFormatter._findSplitPoint text = (Z.of_nat (length p) + 1)%Z) \/
  MessageFormatter._findSplitPoint text
  = Binary64.floor (Binary64.mul (length text) Binary64.c0_9).
Proof.
  unfold MessageFormatter._findSplitPoint.
  destruct (Binary64.int_gt (lastIndexOf text NLNL) _) eqn:H1.
  - left. apply int_gt_positive in H1; [|discriminate].
    destruct (lastIndexOf_occurrence text NLNL) as [Hnone | (p & rest & Heq & Hp)];
      [lia|].
    exists p, rest. split; [exact Heq | now rewrite Hp].
  - destruct (Binary64.int_gt (lastIndexOf text [LF]) _) eqn:H2;
      [|right; now right].
    right. left. apply int_gt_positive in H2; [|discriminate].
    destruct (lastIndexOf_occurrence text [LF]) as [Hnone | (p & rest & Heq & Hp)];
      [lia|].
    exists p, rest. split; [exact Heq | now rewrite Hp].
Qed.

(** ** The feeds and the formatter *)

(** X27.  [mergeItems] is [extractItems] over all the feeds: it returns the
    items of the feeds in order, leaving out a feed that is missing or has no
    [items]. *)
Theorem mergeItems_concat {Item : Type}
    (feeds : list (option (RSSParser.feed Item))) :
  RSSParser.mergeItems feeds = concat (map RSSParser.extractItems feeds).
Proof.
  unfold RSSParser.mergeItems.
  enough (H : forall allItems : list Item,
            fold_left
              (fun allItems feed =>
                 match feed with
                 | Some {| RSSParser.items := Some items |} => allItems ++ items
                 | _ => allItems
                 end) feeds allItems
            = allItems ++ concat (map RSSParser.extractItems feeds))
    by apply H.
  induction feeds as [|feed rest IH]; intros allItems;
    cbn [fold_left map concat]; [now rewrite app_nil_r|].
  rewrite IH. destruct feed as [[[items|]]|]; cbn [RSSParser.extractItems app];
    now rewrite ?app_assoc.
Qed.

Section FormatFacts.
Variable toISOString : Z -> jsstring.
Variable sourceConfigs : jsstring -> option (jsstring * jsstring).

(** The header has 29 code units at most, whatever the date prints as. *)
Lemma length_buildHeader (now : Z) :
  length (Formatter._buildHeader toISOString now) <= 29.
Proof.
  unfold Formatter._buildHeader, Formatter.replaceHyphens.
  rewrite !length_app, length_map.
  assert (Hdate : length (slice (toISOString (now + 9 * 60 * 60 * 1000)) 0 10)
                  <= 10).
  { rewrite slice_prefix by lia. rewrite length_firstn.
    change (Z.to_nat 10) with 10. lia. }
  change (length Formatter.newspaper) with 2.
  change (length (lit " **AI")) with 5.
  change (length Formatter.matome) with 7.
  change (length (lit "** (")) with 4.
  change (length (lit ")")) with 1. lia.
Qed.

Lemma buildSectionsLoop_returns
    (articlesBySource : list (jsstring * list Article.t))
    (sourceOrder : list jsstring) :
  (forall sourceKey articles,
     In sourceKey sourceOrder ->
     Formatter.getProperty articlesBySource sourceKey = Some articles ->
     articles <> [] -> is_Some (sourceConfigs sourceKey)) ->
  forall sections,
    exists sections',
      Formatter.buildSectionsLoop sourceConfigs articlesBySource sourceOrder
        sections = inr sections'.
Proof.
  induction sourceOrder as [|sourceKey rest IH]; intros Hconfig sections;
    cbn [Formatter.buildSectionsLoop]; [eauto|].
  assert (Hrest : forall sourceKey articles,
            In sourceKey rest ->
            Formatter.getProperty articlesBySource sourceKey = Some articles ->
            articles <> [] -> is_Some (sourceConfigs sourceKey))
    by (intros k a Hin; apply Hconfig; now right).
  destruct (Formatter.getProperty articlesBySource sourceKey)
    as [[|a articles]|] eqn:Hget; [now apply IH | | now apply IH].
  destruct (Hconfig sourceKey (a :: articles) (or_introl eq_refl) Hget
              ltac:(discriminate)) as [config ->].
  now apply IH.
Qed.

(** X5.  [format] keeps the limit of Discord: when every source that has
    articles has a configuration and the footer has at most 1969 code units,
    [format] returns, and each of its chunks has at most 2000 code units. *)
Theorem format_within_limit (now : Z)
    (articlesBySource : list (jsstring * list Article.t)) (totalFetched : Z) :
  (forall sourceKey articles,
     In sourceKey [lit "hackernews"; lit "qiita"; lit "zenn"] ->
     Formatter.getProperty articlesBySource sourceKey = Some articles ->
     articles <> [] -> is_Some (sourceConfigs sourceKey)) ->
  length (Formatter._buildFooter articlesBySource totalFetched) <= 1969 ->
  exists chunks fuel0,
    (forall fuel, fuel0 <= fuel ->
       Formatter.format toISOString sourceConfigs fuel now articlesBySource
         totalFetched = inr (Some chunks)) /\
    Forall (fun c => length c <= 2000) chunks.
Proof.
  intros Hconfig Hfooter. unfold Formatter.format, Formatter._buildSections.
  destruct (buildSectionsLoop_returns articlesBySource _ Hconfig [])
    as [sections ->].
  pose proof (length_buildHeader now) as Hheader.
  set (header := Formatter._buildHeader toISOString now) in *.
  set (footer := Formatter._buildFooter articlesBySource totalFetched) in *.
  assert (Hmin : (Z.of_nat (length header) + 3
                  <= MessageFormatter.minSplitPoint
                       Constants.DISCORD_CONFIG_maxLength)%Z).
  { assert (E : MessageFormatter.minSplitPoint
                  Constants.DISCORD_CONFIG_maxLength = 1403%Z)
      by (vm_compute; reflexivity).
    rewrite E. lia. }
  set (fuel0 := length header + 4 + length (concat sections)).
  destruct (splitIntoChunks_returns Constants.DISCORD_CONFIG_maxLength fuel0
              header sections footer) as [chunks Hrun].
  { apply packSections_terminates; [exact Hmin|].
    apply enough_fuel. unfold fuel0. lia. }
  exists chunks, fuel0. split.
  - intros fuel Hfuel. do 2 f_equal.
    replace fuel with (fuel0 + (fuel - fuel0)) by lia.
    now apply splitIntoChunks_fuel_mono.
  - pose proof (splitIntoChunks_ceiling_partial _ _ _ _ _ _ Hrun) as Hall.
    eapply List.Forall_impl; [|exact Hall].
    intros c [Hc | ->]; [exact Hc|].
    rewrite !length_app. change (length NLNL) with 2. lia.
Qed.

End FormatFacts.

Lemma format_within_limit_witness :
  exists chunks fuel0,
    (forall fuel, fuel0 <= fuel ->
       Formatter.format isoExample configExample fuel 0
         [(lit "qiita", [samplePost "First"; samplePost "Second"])] 12
       = inr (Some chunks)) /\
    Forall (fun c => length c <= 2000) chunks.
Proof.
  apply format_within_limit.
  - intros sourceKey articles _ _ _. eexists. reflexivity.
  - vm_compute. lia.
Defined.

(** ** The retry executor *)

Section RetryShape.
Import RetryHandler.
Context {W E R : Type}.
Variable fn : W -> W * (E + R).
Variable random : nat -> Q.
Variable self : RetryHandler.t.

(** The whole trace of the loop: the failed calls, each followed by its
    sleep, then the last call. *)
Lemma attempts_shape (n : nat) :
  forall attempt lastError draws w c w' trace,
    (attempt + Z.of_nat n = maxRetries self + 1)%Z ->
    0 < n ->
    attempts fn random self n attempt lastError draws w = (c, w', trace) ->
    exists errors last,
      trace
      = concat
          (imap (fun k error =>
                   [Invoke (inl error);
                    Sleep (_calculateDelay self (attempt + Z.of_nat k)
                             (random (if jitter self then draws + k
                                      else draws)))]) errors)
        ++ [Invoke last] /\
      length errors + 1 <= n /\
      match c with
      | Returned r => last = inr r
      | Threw e =>
          exists error,
            last = inl error /\ e = Some error /\ length errors + 1 = n
      end.
Proof.
  induction n as [|n IH]; intros attempt lastError draws w c w' trace Hn Hpos Hrun;
    [lia|].
  cbn [attempts] in Hrun.
  destruct (fn w) as [w1 [error | r]].
  - destruct (Z.eqb_spec attempt (maxRetries self)) as [Hlast | Hmore].
    + injection Hrun as <- <- <-. exists [], (inl error).
      split; [reflexivity|]. split; [cbn; lia|].
      exists error. split; [reflexivity|]. split; [reflexivity|]. cbn. lia.
    + destruct (attempts fn random self n (attempt + 1) (Some error) _ w1)
        as [[c1 w2] trace1] eqn:Hrest.
      injection Hrun as <- <- <-.
      apply IH in Hrest as (errors & last & -> & Hlen & Hend); [|lia|lia].
      exists (error :: errors), last. split; [|split].
      * rewrite imap_cons. cbn [concat app]. rewrite Z.add_0_r.
        replace (if jitter self then draws + 0 else draws) with draws
          by (destruct (jitter self); lia).
        do 2 f_equal. f_equal. f_equal. apply imap_ext. intros k e _. cbn.
        replace (attempt + 1 + Z.of_nat k)%Z with (attempt + Z.of_nat (S k))%Z
          by lia.
        destruct (jitter self); [|reflexivity].
        now replace (S draws + k) with (draws + S k) by lia.
      * cbn [length]. lia.
      * destruct c1 as [r | e]; [exact Hend|].
        destruct Hend as (error' & -> & -> & Hlen').
        exists error'. split; [reflexivity|]. split; [reflexivity|].
        cbn [length]. lia.
  - injection Hrun as <- <- <-. exists [], (inr r).
    split; [reflexivity|]. split; [cbn; lia | reflexivity].
Qed.

End RetryShape.

(** X6.  With a negative [maxRetries] the loop of [execute] is not entered:
    the operation is never called, and what is thrown is [lastError], still
    [undefined]. *)
Theorem execute_negative_maxRetries {W E R : Type} (fn : W -> W * (E + R))
    (random : nat -> Q) (self : RetryHandler.t) (w : W) :
  (RetryHandler.maxRetries self < 0)%Z ->
  RetryHandler.execute fn random self w = (RetryHandler.Threw None, w, []).
Proof.
  intros Hneg. unfold RetryHandler.execute.
  now replace (Z.to_nat (RetryHandler.maxRetries self + 1)) with 0 by lia.
Qed.

Lemma execute_negative_maxRetries_witness :
  RetryHandler.execute alwaysFails (fun _ => 0%Q)
    (RetryHandler.constructor
       {| RetryHandler.opt_maxRetries := Some (-1)%Z;
          RetryHandler.opt_baseDelay := None;
          RetryHandler.opt_maxDelay := None;
          RetryHandler.opt_jitter := None |}) 0
  = (RetryHandler.Threw None, 0, []).
Proof. apply execute_negative_maxRetries. reflexivity. Defined.

(** X7.  For [maxRetries >= 0] and a handler none of whose products
    overflows, the trace of [execute] is the calls that
    failed, each followed by one sleep, and then the last call, after which
    nothing is slept: a sleep lies between each call and the next.  The
    sleep that follows the failure of attempt [k] is the delay
    [_calculateDelay(k)], computed from the [k]-th random number when the
    jitter is on.  At most [maxRetries] calls are followed by a sleep; the
    last call is the one whose result is returned, or the failure of attempt
    [maxRetries]. *)
Theorem execute_sleeps_between_calls {W E R : Type} (fn : W -> W * (E + R))
    (random : nat -> Q) (self : RetryHandler.t) (w : W)
    (c : RetryHandler.completion E R) (w' : W)
    (trace : list (RetryHandler.event E R)) :
  (0 <= RetryHandler.maxRetries self)%Z ->
  finiteDelays self ->
  RetryHandler.execute fn random self w = (c, w', trace) ->
  exists errors last,
    trace = failedAttempts self random errors ++ [RetryHandler.Invoke last] /\
    (Z.of_nat (length errors) <= RetryHandler.maxRetries self)%Z /\
    match c with
    | RetryHandler.Returned r => last = inr r
    | RetryHandler.Threw e =>
        exists error,
          last = inl error /\ e = Some error /\
          Z.of_nat (length errors) = RetryHandler.maxRetries self
    end.
Proof.
  intros Hmax _ Hrun. unfold RetryHandler.execute in Hrun.
  apply attempts_shape in Hrun as (errors & last & -> & Hlen & Hend);
    [|lia|lia].
  exists errors, last. split; [|split].
  - reflexivity.
  - lia.
  - destruct c as [r | e]; [exact Hend|].
    destruct Hend as (error & -> & -> & Hlen').
    exists error. split; [reflexivity|]. split; [reflexivity|]. lia.
Qed.

Lemma execute_sleeps_between_calls_witness :
  exists errors last,
    [RetryHandler.Invoke (E:=Z) (R:=unit) (inl 500%Z); RetryHandler.Sleep 500;
     RetryHandler.Invoke (inl 500%Z); RetryHandler.Sleep 1000;
     RetryHandler.Invoke (inr tt)]
    = failedAttempts defaultHandler (fun _ => 0%Q) errors
      ++ [RetryHandler.Invoke last] /\
    (Z.of_nat (length errors) <= RetryHandler.maxRetries defaultHandler)%Z /\
    last = inr tt.
Proof.
  refine (execute_sleeps_between_calls failsTwice (fun _ => 0%Q)
            defaultHandler 0 (RetryHandler.Returned tt) 3 _ _ _ _).
  - vm_compute; discriminate.
  - split; [reflexivity|]. repeat split; vm_compute; discriminate.
  - reflexivity.
Defined.



(** ** The webhook sender *)

(** What [execute] returns is what some call of the operation returned. *)
Lemma attempts_returned {W E R : Type} (fn : W -> W * (E + R))
    (random : nat -> Q) (self : RetryHandler.t) (n : nat) :
  forall attempt lastError draws w r w' trace,
    RetryHandler.attempts fn random self n attempt lastError draws w
    = (RetryHandler.Returned r, w', trace) ->
    exists w0, snd (fn w0) = inr r.
Proof.
  induction n as [|n IH]; intros attempt lastError draws w r w' trace Hrun;
    cbn [RetryHandler.attempts] in Hrun; [discriminate|].
  destruct (fn w) as [w1 [error | r1]] eqn:Hfn.
  - destruct (attempt =? RetryHandler.maxRetries self)%Z; [discriminate|].
    destruct (RetryHandler.attempts fn random self n (attempt + 1) (Some error)
                _ w1) as [[c1 w2] trace1] eqn:Hrest.
    injection Hrun as -> <- <-. eapply IH, Hrest.
  - injection Hrun as <- <- <-. exists w. now rewrite Hfn.
Qed.

Lemma sentMessages_Sending (index : nat) (content : jsstring)
    (trace : list (RetryHandler.event JS.error nat))
    (events : list DiscordNotifier.event) :
  sentMessages (DiscordNotifier.Sending index content trace :: events)
  = content :: sentMessages events.
Proof. reflexivity. Qed.

Lemma sentMessages_Pause (ms : Z) (events : list DiscordNotifier.event) :
  sentMessages (DiscordNotifier.Pause ms :: events) = sentMessages events.
Proof. reflexivity. Qed.

Lemma pauses_Sending (index : nat) (content : jsstring)
    (trace : list (RetryHandler.event JS.error nat))
    (events : list DiscordNotifier.event) :
  pauses (DiscordNotifier.Sending index content trace :: events)
  = pauses events.
Proof. reflexivity. Qed.

Lemma pauses_Pause (ms : Z) (events : list DiscordNotifier.event) :
  pauses (DiscordNotifier.Pause ms :: events) = ms :: pauses events.
Proof. reflexivity. Qed.

Section NotifierMore.
Context {W : Type}.
Variable axios_post : W -> jsstring -> jsstring -> W * (JS.error + Z).
Variable random : nat -> nat -> Q.

Lemma sendMessage_index (self : DiscordNotifier.t) (url content : jsstring)
    (index : nat) (w : W) (result : nat) (w' : W)
    (trace : list (RetryHandler.event JS.error nat)) :
  DiscordNotifier._sendMessage axios_post random self url content index w
  = (RetryHandler.Returned result, w', trace) ->
  result = index.
Proof.
  intros Hrun. unfold DiscordNotifier._sendMessage, RetryHandler.execute in Hrun.
  apply attempts_returned in Hrun as [w0 Hcall].
  unfold DiscordNotifier.postOnce in Hcall.
  destruct (axios_post w0 url content) as [w1 [e | status]];
    [discriminate|].
  destruct ((200 <=? status)%Z && (status <? 300)%Z); [|discriminate].
  cbn in Hcall. congruence.
Qed.

(** The loop of [send] from any message on. *)
Lemma sendFrom_outcome (self : DiscordNotifier.t) (url : jsstring)
    (messages : list jsstring) :
  forall index results w c w' events,
    DiscordNotifier.sendFrom axios_post random self url messages index results w
    = (c, w', events) ->
    match c with
    | RetryHandler.Returned indexes =>
        sentMessages events = messages /\
        indexes = results ++ seq index (length messages) /\
        pauses events = repeat 500%Z (length messages - 1)
    | RetryHandler.Threw _ =>
        exists sent failed unsent,
          messages = sent ++ failed :: unsent /\
          sentMessages events = sent ++ [failed] /\
          pauses events = repeat 500%Z (length sent)
    end.
Proof.
  induction messages as [|message rest IH];
    intros index results w c w' events Hrun; cbn [DiscordNotifier.sendFrom] in Hrun.
  - injection Hrun as <- <- <-.
    split; [reflexivity|]. split; [now rewrite app_nil_r | reflexivity].
  - destruct (DiscordNotifier._sendMessage axios_post random self url message
                index w) as [[[result | e] w1] trace] eqn:Hsend.
    + apply sendMessage_index in Hsend as ->.
      destruct (DiscordNotifier.sendFrom axios_post random self url rest
                  (S index) (results ++ [index]) w1)
        as [[c1 w2] events1] eqn:Hrest.
      injection Hrun as <- <- <-.
      apply IH in Hrest.
      destruct c1 as [indexes | e].
      * destruct Hrest as (Hsent & -> & Hpauses).
        rewrite sentMessages_Sending, pauses_Sending.
        split; [|split].
        -- destruct rest; rewrite ?sentMessages_Pause; now rewrite Hsent.
        -- cbn [length seq]. now rewrite <- app_assoc.
        -- destruct rest as [|m rest']; [exact Hpauses|].
           rewrite pauses_Pause, Hpauses.
           now replace (length (message :: m :: rest') - 1)
             with (S (length (m :: rest') - 1)) by (cbn [length]; lia).
      * destruct Hrest as (sent & failed & unsent & Hrest & Hsent & Hpauses).
        exists (message :: sent), failed, unsent.
        split; [now rewrite Hrest|].
        rewrite sentMessages_Sending, pauses_Sending.
        destruct rest as [|m rest']; [now destruct sent|].
        rewrite sentMessages_Pause, pauses_Pause.
        now rewrite Hsent, Hpauses.
    + injection Hrun as <- <- <-.
      exists [], message, rest. repeat split; reflexivity.
Qed.

Lemma sendFrom_calls (self : DiscordNotifier.t) (url : jsstring)
    (messages : list jsstring) :
  (0 <= RetryHandler.maxRetries (DiscordNotifier.retryHandler self))%Z ->
  forall index results w c w' events,
    DiscordNotifier.sendFrom axios_post random self url messages index results w
    = (c, w', events) ->
    transportCalls events
    <= Z.to_nat (RetryHandler.maxRetries (DiscordNotifier.retryHandler self) + 1)
       * length (sentMessages events).
Proof.
  intros Hmax.
  induction messages as [|message rest IH];
    intros index results w c w' events Hrun; cbn [DiscordNotifier.sendFrom] in Hrun.
  - injection Hrun as <- <- <-. cbn. lia.
  - destruct (DiscordNotifier._sendMessage axios_post random self url message
                index w) as [[c0 w1] trace] eqn:Hsend.
    assert (Hcalls : length (RetryHandler.invocations trace)
                     <= Z.to_nat (RetryHandler.maxRetries
                                    (DiscordNotifier.retryHandler self) + 1)).
    { unfold DiscordNotifier._sendMessage, RetryHandler.execute in Hsend.
      eapply attempts_spec; [| |exact Hsend]; lia. }
    destruct c0 as [result | e].
    + destruct (DiscordNotifier.sendFrom axios_post random self url rest
                  (S index) (results ++ [result]) w1)
        as [[c1 w2] events1] eqn:Hrest.
      injection Hrun as <- <- <-. apply IH in Hrest.
      unfold transportCalls, sentMessages in *.
      destruct rest; cbn [flat_map]; rewrite !length_app; cbn [length]; lia.
    + injection Hrun as <- <- <-.
      unfold transportCalls, sentMessages. cbn [flat_map].
      rewrite !length_app. cbn [length]. lia.
Qed.

(** X10.  One [send] calls the transport at most four times for each message
    it sends: the first try and the three retries of [DISCORD_CONFIG]. *)
Theorem send_transport_calls (url : option jsstring) (messages : list jsstring)
    (w : W) (c : RetryHandler.completion JS.error (list nat)) (w' : W)
    (events : list DiscordNotifier.event) :
  DiscordNotifier.send axios_post random (DiscordNotifier.constructor url)
    messages w = (c, w', events) ->
  transportCalls events <= 4 * length (sentMessages events) /\
  length (sentMessages events) <= length messages.
Proof.
  intros Hrun. unfold DiscordNotifier.send in Hrun.
  cbn [DiscordNotifier.webhookUrl DiscordNotifier.constructor] in Hrun.
  assert (Hnone : (c, w', events)
                  = (RetryHandler.Threw
                       (Some (Error (lit "DISCORD_WEBHOOK_URL is not set"))),
                     w, []) ->
                  transportCalls events <= 4 * length (sentMessages events) /\
                  length (sentMessages events) <= length messages).
  { intros H. injection H as -> -> ->. cbn. lia. }
  destruct url as [[|c0 r]|]; [now apply Hnone, eq_sym | | now apply Hnone, eq_sym].
  split.
  - apply sendFrom_calls in Hrun; [exact Hrun | vm_compute; discriminate].
  - apply sendFrom_outcome in Hrun. destruct c as [indexes | e].
    + destruct Hrun as (-> & _). lia.
    + destruct Hrun as (sent & failed & unsent & -> & -> & _).
      rewrite !length_app. cbn [length]. lia.
Qed.

(** X11.  Without an address, absent or empty, [send] throws before any call
    of the transport. *)
Theorem send_without_url (self : DiscordNotifier.t) (messages : list jsstring)
    (w : W) :
  DiscordNotifier.webhookUrl self = None
  \/ DiscordNotifier.webhookUrl self = Some [] ->
  DiscordNotifier.send axios_post random self messages w
  = (RetryHandler.Threw (Some (Error (lit "DISCORD_WEBHOOK_URL is not set"))),
     w, []).
Proof.
  intros [H | H]; unfold DiscordNotifier.send; now rewrite H.
Qed.

End NotifierMore.

Section NotifierShape.
Context {W : Type}.
Variable axios_post : W -> jsstring -> jsstring -> W * (JS.error + Z).
Variable random : nat -> nat -> Q.

Lemma deliveries_cons (index : nat) (content : jsstring)
    (trace : list (RetryHandler.event JS.error nat))
    (sent : list (jsstring * list (RetryHandler.event JS.error nat))) :
  deliveries index ((content, trace) :: sent)
  = DiscordNotifier.Sending index content trace
    :: match sent with
       | [] => []
       | _ :: _ => DiscordNotifier.Pause 500 :: deliveries (S index) sent
       end.
Proof.
  unfold deliveries. rewrite imap_cons. cbn [between fst snd].
  rewrite Nat.add_0_r. f_equal.
  assert (E : imap ((fun i d => DiscordNotifier.Sending (index + i) (fst d)
                                    (snd d)) ∘ S) sent
              = imap (fun i d => DiscordNotifier.Sending (S index + i) (fst d)
                                   (snd d)) sent).
  { apply imap_ext. intros i d _. cbn. f_equal. lia. }
  rewrite E. destruct sent as [|d sent]; reflexivity.
Qed.

(** The events of the loop of [send]: the messages up to the first failing
    one, numbered from [index] on, a pause between each and the next. *)
Lemma sendFrom_events (self : DiscordNotifier.t) (url : jsstring)
    (messages : list jsstring) :
  forall index results w c w' events,
    DiscordNotifier.sendFrom axios_post random self url messages index results w
    = (c, w', events) ->
    match c with
    | RetryHandler.Returned _ =>
        exists traces,
          length traces = length messages /\
          events = deliveries index (combine messages traces)
    | RetryHandler.Threw _ =>
        exists sent failed unsent traces,
          messages = sent ++ failed :: unsent /\
          length traces = length sent + 1 /\
          events = deliveries index (combine (sent ++ [failed]) traces)
    end.
Proof.
  induction messages as [|message rest IH];
    intros index results w c w' events Hrun; cbn [DiscordNotifier.sendFrom] in Hrun.
  - injection Hrun as <- <- <-. now exists [].
  - destruct (DiscordNotifier._sendMessage axios_post random self url message
                index w) as [[[result | e] w1] trace] eqn:Hsend.
    + destruct (DiscordNotifier.sendFrom axios_post random self url rest
                  (S index) (results ++ [result]) w1)
        as [[c1 w2] events1] eqn:Hrest.
      injection Hrun as <- <- <-.
      apply IH in Hrest.
      destruct c1 as [indexes | e].
      * destruct Hrest as (traces & Hlen & ->).
        exists (trace :: traces). split; [cbn [length]; lia|].
        cbn [combine]. rewrite deliveries_cons.
        destruct rest as [|m rest']; [now destruct traces|].
        destruct traces as [|t traces]; [discriminate|]. reflexivity.
      * destruct Hrest as (sent & failed & unsent & traces & -> & Hlen & ->).
        exists (message :: sent), failed, unsent, (trace :: traces).
        split; [reflexivity|]. split; [cbn [length]; lia|].
        cbn [app combine]. rewrite deliveries_cons.
        destruct traces as [|t traces]; [cbn in Hlen; lia|].
        destruct sent; reflexivity.
    + injection Hrun as <- <- <-.
      exists [], message, rest, [trace]. repeat split; try reflexivity.
      cbn [app combine]. rewrite deliveries_cons. reflexivity.
Qed.


Lemma sentMessages_deliveries (contents : list jsstring) :
  forall traces index,
    length traces = length contents ->
    sentMessages (deliveries index (combine contents traces)) = contents.
Proof.
  induction contents as [|content rest IH]; intros traces index Hlen;
    [reflexivity|].
  destruct traces as [|trace traces]; [discriminate|].
  cbn [combine]. rewrite deliveries_cons, sentMessages_Sending. f_equal.
  injection Hlen as Hlen.
  destruct rest as [|m rest'].
  - reflexivity.
  - destruct traces as [|t traces]; [discriminate|].
    cbn [combine]. rewrite sentMessages_Pause.
    now apply (IH (t :: traces) (S index)).
Qed.

Lemma pauses_deliveries (contents : list jsstring) :
  forall traces index,
    length traces = length contents ->
    pauses (deliveries index (combine contents traces))
    = repeat 500%Z (length contents - 1).
Proof.
  induction contents as [|content rest IH]; intros traces index Hlen;
    [reflexivity|].
  destruct traces as [|trace traces]; [discriminate|].
  cbn [combine]. rewrite deliveries_cons, pauses_Sending.
  injection Hlen as Hlen.
  destruct rest as [|m rest'].
  - reflexivity.
  - destruct traces as [|t traces]; [discriminate|].
    cbn [combine]. rewrite pauses_Pause.
    pose proof (IH (t :: traces) (S index) Hlen) as H.
    cbn [combine] in H. rewrite H.
    now replace (length (content :: m :: rest') - 1)
      with (S (length (m :: rest') - 1)) by (cbn [length]; lia).
Qed.

(** X9.  [send] hands the messages to the retry handler in order, numbered
    from 1, and stops at the first one whose retries are used up.  Its
    events are the messages up to that one, or all of them, with one pause
    of 500 ms between each message and the next: no pause comes first, none
    follows the last message sent, and no two follow each other.  When
    [send] returns, every message was sent and the results carry the
    indexes 1, 2, ...; when it throws, the messages after the failing one
    were never sent. *)
Theorem send_in_order (url : jsstring) (messages : list jsstring) (w : W)
    (c : RetryHandler.completion JS.error (list nat)) (w' : W)
    (events : list DiscordNotifier.event) :
  url <> [] ->
  DiscordNotifier.send axios_post random (DiscordNotifier.constructor (Some url))
    messages w = (c, w', events) ->
  match c with
  | RetryHandler.Returned indexes =>
      indexes = seq 1 (length messages) /\
      sentMessages events = messages /\
      pauses events = repeat 500%Z (length messages - 1) /\
      exists traces,
        length traces = length messages /\
        events = deliveries 1 (combine messages traces)
  | RetryHandler.Threw _ =>
      exists sent failed unsent traces,
        messages = sent ++ failed :: unsent /\
        sentMessages events = sent ++ [failed] /\
        pauses events = repeat 500%Z (length sent) /\
        length traces = length sent + 1 /\
        events = deliveries 1 (combine (sent ++ [failed]) traces)
  end.
Proof.
  intros Hne Hrun. unfold DiscordNotifier.send in Hrun.
  cbn [DiscordNotifier.webhookUrl DiscordNotifier.constructor] in Hrun.
  destruct url as [|c0 r]; [congruence|].
  pose proof (sendFrom_outcome axios_post random _ _ _ _ _ _ _ _ _ Hrun) as Hout.
  apply sendFrom_events in Hrun.
  destruct c as [indexes | e].
  - destruct Hout as (_ & -> & _). destruct Hrun as (traces & Hlen & ->).
    split; [reflexivity|].
    split; [now apply sentMessages_deliveries|].
    split; [now apply pauses_deliveries|].
    now exists traces.
  - destruct Hrun as (sent & failed & unsent & traces & -> & Hlen & ->).
    exists sent, failed, unsent, traces.
    assert (Hlen' : length traces = length (sent ++ [failed]))
      by (rewrite length_app; cbn [length]; lia).
    split; [reflexivity|].
    split; [now apply sentMessages_deliveries|].
    split.
    + rewrite pauses_deliveries by exact Hlen'.
      rewrite length_app. cbn [length]. f_equal. lia.
    + split; [exact Hlen | reflexivity].
Qed.

End NotifierShape.

Lemma send_in_order_witness :
  [1; 2] = seq 1 (length [lit "one"; lit "two"]) /\
  sentMessages
    (snd (DiscordNotifier.send acceptAll (fun _ _ => 0%Q)
            (DiscordNotifier.constructor (Some (lit "https://example.com/hook")))
            [lit "one"; lit "two"] tt))
  = [lit "one"; lit "two"] /\
  pauses
    (snd (DiscordNotifier.send acceptAll (fun _ _ => 0%Q)
            (DiscordNotifier.constructor (Some (lit "https://example.com/hook")))
            [lit "one"; lit "two"] tt))
  = repeat 500%Z (length [lit "one"; lit "two"] - 1) /\
  exists traces,
    length traces = length [lit "one"; lit "two"] /\
    snd (DiscordNotifier.send acceptAll (fun _ _ => 0%Q)
           (DiscordNotifier.constructor (Some (lit "https://example.com/hook")))
           [lit "one"; lit "two"] tt)
    = deliveries 1 (combine [lit "one"; lit "two"] traces).
Proof.
  refine (send_in_order acceptAll (fun _ _ => 0%Q)
            (lit "https://example.com/hook") [lit "one"; lit "two"] tt
            (RetryHandler.Returned [1; 2]) tt _ _ _).
  - discriminate.
  - reflexivity.
Defined.

Lemma send_without_url_witness :
  DiscordNotifier.send acceptAll (fun _ _ => 0%Q)
    (DiscordNotifier.constructor (Some [])) [lit "one"] tt
  = (RetryHandler.Threw (Some (Error (lit "DISCORD_WEBHOOK_URL is not set"))),
     tt, []).
Proof. apply send_without_url. now right. Defined.

Lemma send_transport_calls_witness :
  transportCalls
    (snd (DiscordNotifier.send acceptAll (fun _ _ => 0%Q)
            (DiscordNotifier.constructor (Some (lit "https://example.com/hook")))
            [lit "one"; lit "two"] tt))
  <= 4 * length
         (sentMessages
            (snd (DiscordNotifier.send acceptAll (fun _ _ => 0%Q)
                    (DiscordNotifier.constructor
                       (Some (lit "https://example.com/hook")))
                    [lit "one"; lit "two"] tt))) /\
  length
    (sentMessages
       (snd (DiscordNotifier.send acceptAll (fun _ _ => 0%Q)
               (DiscordNotifier.constructor
                  (Some (lit "https://example.com/hook")))
               [lit "one"; lit "two"] tt)))
  <= length [lit "one"; lit "two"].
Proof.
  refine (send_transport_calls acceptAll (fun _ _ => 0%Q)
            (Some (lit "https://example.com/hook")) [lit "one"; lit "two"] tt
            (RetryHandler.Returned [1; 2]) tt _ _).
  reflexivity.
Defined.

(** ** The cache *)

Section CacheMore.
Import CacheService.

(** X12.  [add] then [has], for a source and a hash that name no inherited
    property: on a loaded cache [add] returns, the hash added is found
    afterwards, and no other such hash appears or disappears. *)
Theorem add_then_has (cs : CacheService.state) (source hash : jsstring)
    (timestamp : option jsDate) :
  ready cs ->
  inherited source = false ->
  inherited hash = false ->
  exists cs',
    add cs source hash timestamp = Returns tt cs' /\
    has cs' hash = true /\
    forall h, inherited h = false -> h <> hash -> has cs' h = has cs h.
Proof.
  intros Hready _ _.
  destruct (add_ready cs source hash timestamp Hready) as (cs' & Hadd & _ & Hhas).
  exists cs'. split; [exact Hadd|]. split.
  - rewrite Hhas, bool_decide_eq_true_2 by reflexivity. apply orb_true_r.
  - intros h _ Hne. rewrite Hhas, bool_decide_eq_false_2 by exact Hne.
    apply orb_false_r.
Qed.

Lemma add_then_has_witness :
  exists cs',
    add (emptyCacheState 0) (lit "qiita") (lit "abc") None = Returns tt cs' /\
    has cs' (lit "abc") = true /\
    forall h, inherited h = false -> h <> lit "abc" ->
      has cs' h = has (emptyCacheState 0) h.
Proof.
  apply add_then_has.
  - eexists _, _. split; reflexivity.
  - reflexivity.
  - reflexivity.
Defined.

(** X13.  [cleanup] keeps exactly the entries that are not older than the
    retention period of 30 days: a hash is found afterwards when, and only
    when, some source held it with a time stamp that is not before the cutoff,
    or is not a valid date. This holds also when the write that follows a
    removal fails. *)
Theorem cleanup_keeps_recent (s : CacheService.state) (c : cache)
    (partitions : gmap jsstring (gmap jsstring jsDate)) (hash : jsstring) :
  _cache s = Some c -> articles c = Some partitions ->
  has (cacheAfter (cleanup s)) hash = true <->
  exists source entries timestamp,
    partitions !! source = Some entries /\
    entries !! hash = Some timestamp /\
    olderThan (now s - Constants.CACHE_CONFIG_retentionDays * 86400000)
      timestamp = false.
Proof.
  intros Hc Hp. unfold cleanup. rewrite Hc, Hp.
  set (cutoff := (now s - Constants.CACHE_CONFIG_retentionDays * 86400000)%Z).
  set (kept := (fun entries : gmap jsstring jsDate =>
                  filter (fun e => olderThan cutoff (snd e) = false) entries)
               <$> partitions).
  assert (Hafter : exists c',
            _cache (cacheAfter
              (if 0 <? map_fold (fun _ (entries : gmap jsstring jsDate) count =>
                                   count + size (filter (fun e => olderThan cutoff (snd e) = true) entries))
                         0 partitions
               then save (with_cache s {| version := version c;
                                          lastUpdated := lastUpdated c;
                                          articles := Some kept |})
               else Returns tt (with_cache s {| version := version c;
                                                lastUpdated := lastUpdated c;
                                                articles := Some kept |})))
            = Some c' /\ articles c' = Some kept).
  { destruct (0 <? _); [|eexists; split; reflexivity].
    unfold save. cbn [diskFails with_cache _cache].
    destruct (diskFails s); eexists; split; reflexivity. }
  destruct Hafter as (c' & Hc' & Hp').
  rewrite (has_iff _ c' kept hash Hc' Hp'). unfold kept.
  split.
  - intros (source & entries & Hl & [timestamp Hts]).
    rewrite lookup_fmap in Hl.
    destruct (partitions !! source) as [entries0|] eqn:Hsrc; [|discriminate].
    cbn in Hl. injection Hl as <-.
    apply map_lookup_filter_Some in Hts as [Hts Hold].
    now exists source, entries0, timestamp.
  - intros (source & entries & timestamp & Hl & Hts & Hold).
    eexists source, _. rewrite lookup_fmap, Hl. cbn. split; [reflexivity|].
    exists timestamp. now apply map_lookup_filter_Some.
Qed.

Lemma cleanup_keeps_recent_witness :
  has (cacheAfter (cleanup agedState)) (lit "new") = true <->
  exists source entries timestamp,
    agedPartitions !! source = Some entries /\
    entries !! lit "new" = Some timestamp /\
    olderThan (now agedState - Constants.CACHE_CONFIG_retentionDays * 86400000)
      timestamp = false.
Proof.
  apply (cleanup_keeps_recent agedState agedCache); reflexivity.
Defined.

(** X14.  When the cache file is missing, cannot be read or does not parse,
    [load] starts from the empty cache and writes it to the file at once. *)
Theorem load_failure_writes_empty_cache (s : CacheService.state) :
  disk s = NoFile \/ disk s = Unreadable \/ disk s = Malformed
  \/ disk s = JsonNull ->
  diskFails s = false ->
  exists c s',
    load s = Returns (Some c) s' /\ _cache s' = Some c /\ disk s' = Json c /\
    version c = Some Constants.CACHE_CONFIG_version /\
    articles c = articles (_createEmptyCache s).
Proof. apply load_failure_persists. Qed.

Lemma load_failure_writes_empty_cache_witness :
  exists c s',
    load (emptyCacheState 0) = Returns (Some c) s' /\ _cache s' = Some c /\
    disk s' = Json c /\
    version c = Some Constants.CACHE_CONFIG_version /\
    articles c = articles (_createEmptyCache (emptyCacheState 0)).
Proof.
  apply load_failure_writes_empty_cache; [now left | reflexivity].
Defined.

(** X15.  [save] then [load]: what a service saves under the current version,
    a service that finds the file later loads back with the same entries. *)
Theorem save_then_load (s : CacheService.state) (c : cache)
    (later : CacheService.state) :
  _cache s = Some c ->
  version c = Some Constants.CACHE_CONFIG_version ->
  diskFails s = false ->
  disk later = disk (cacheAfter (save s)) ->
  exists s' c',
    save s = Returns tt s' /\
    load later = Returns (Some c') (with_cache later c') /\
    articles c' = articles c /\ version c' = version c /\
    lastUpdated c' = ValidDate (now s).
Proof.
  intros Hc Hv Hok. unfold save. rewrite Hok, Hc.
  cbn [cacheAfter disk]. intros Hdisk.
  eexists _, _. split; [reflexivity|].
  unfold load. rewrite Hdisk.
  cbn [version]. rewrite bool_decide_eq_true_2 by exact Hv.
  repeat split; reflexivity.
Qed.

Lemma save_then_load_witness :
  exists s' c',
    save agedState = Returns tt s' /\
    load (DeduplicationService.cacheService
            (freshService (disk (cacheAfter (save agedState))) (41 * day)))
    = Returns (Some c')
        (with_cache
           (DeduplicationService.cacheService
              (freshService (disk (cacheAfter (save agedState))) (41 * day)))
           c') /\
    articles c' = articles agedCache /\ version c' = version agedCache /\
    lastUpdated c' = ValidDate (now agedState).
Proof.
  apply (save_then_load agedState agedCache); reflexivity.
Defined.

End CacheMore.

(** ** The deduplication service *)

Section DedupMore.
Import DeduplicationService.

(** An entry added for a hash the cache does not have is one entry more. *)
Lemma add_total (cs cs' : CacheService.state) (source hash : jsstring)
    (timestamp : option jsDate) :
  CacheService.has cs hash = false ->
  CacheService.add cs source hash timestamp = CacheService.Returns tt cs' ->
  CacheService._getTotalEntries cs' = S (CacheService._getTotalEntries cs).
Proof.
  intros Hhas Hadd. unfold CacheService.add in Hadd.
  unfold CacheService._getTotalEntries.
  destruct (CacheService._cache cs) as [c|] eqn:Hc; [|discriminate].
  destruct (CacheService.articles c) as [partitions|] eqn:Hp; [|discriminate].
  injection Hadd as <-. cbn [CacheService._cache CacheService.with_cache
                              CacheService.articles].
  assert (Hnone : forall src entries,
            partitions !! src = Some entries -> entries !! hash = None).
  { intros src entries Hl. destruct (entries !! hash) as [ts|] eqn:Hts;
      [|reflexivity].
    assert (CacheService.has cs hash = true); [|congruence].
    apply (has_iff cs c partitions hash Hc Hp).
    exists src, entries. rewrite Hts. eauto. }
  set (f := fun (_ : jsstring) (source0 : gmap jsstring jsDate) total =>
              total + size source0).
  assert (Hcomm : forall (m : gmap jsstring (gmap jsstring jsDate))
                    (j1 j2 : jsstring) (z1 z2 : gmap jsstring jsDate) (y : nat),
            j1 <> j2 -> m !! j1 = Some z1 -> m !! j2 = Some z2 ->
            f j1 z1 (f j2 z2 y) = f j2 z2 (f j1 z1 y)).
  { intros. unfold f. lia. }
  destruct (partitions !! source) as [entries|] eqn:Hsrc; cbn [default].
  - rewrite <- (insert_delete_id partitions source entries Hsrc) at 2.
    rewrite <- insert_delete_eq.
    rewrite !map_fold_insert_L by (try apply Hcomm; apply lookup_delete_eq).
    unfold f. cbv [id].
    rewrite map_size_insert_None by exact (Hnone _ _ Hsrc). lia.
  - rewrite map_fold_insert_L by (try apply Hcomm; exact Hsrc).
    unfold f. rewrite map_size_insert_None by apply lookup_empty.
    rewrite map_size_empty. lia.
Qed.

(** The loop of [filterNew] on a loaded cache: every article it keeps is one
    entry more. *)
Lemma filterLoop_total (articles : list Article.t) :
  forall newArticles cs,
    ready cs -> datesValid articles ->
    exists cs',
      filterLoop articles newArticles cs
        = CacheService.Returns
            (newArticles ++ unseen (CacheService.has cs) articles) cs' /\
      CacheService._getTotalEntries cs'
      = CacheService._getTotalEntries cs
        + length (unseen (CacheService.has cs) articles).
Proof.
  induction articles as [|a rest IH]; intros acc cs Hready Hdates.
  - exists cs. cbn [filterLoop unseen length]. rewrite app_nil_r.
    split; [reflexivity | lia].
  - apply Forall_cons_iff in Hdates as [Hdate Hdates].
    cbn [filterLoop unseen].
    destruct (CacheService.has cs (Article.getHash a)) eqn:Hhas.
    + apply IH; assumption.
    + destruct (add_ready cs (Article.source a) (Article.getHash a)
                  (Article.publishedAt a) Hready)
        as (cs1 & Hadd & Hready1 & Hhas1).
      assert (Hstep :
        match Article.publishedAt a with
        | Some InvalidDate => CacheService.Throws RangeError cs
        | timestamp =>
            match CacheService.add cs (Article.source a) (Article.getHash a)
                    timestamp with
            | CacheService.Returns _ cs =>
                filterLoop rest (acc ++ [a]) cs
            | CacheService.Throws e cs => CacheService.Throws e cs
            end
        end = filterLoop rest (acc ++ [a]) cs1).
      { destruct (Article.publishedAt a) as [[ms|]|];
          [now rewrite Hadd | congruence | now rewrite Hadd]. }
      rewrite Hstep.
      destruct (IH (acc ++ [a]) cs1 Hready1 Hdates) as (cs' & -> & Htotal).
      exists cs'.
      assert (Hext : unseen (CacheService.has cs1) rest
                     = unseen (fun h => CacheService.has cs h
                                        || bool_decide (h = Article.getHash a))
                         rest)
        by (apply unseen_ext; intros b _; apply Hhas1).
      split.
      * rewrite <- app_assoc. cbn [app]. now rewrite Hext.
      * rewrite Htotal, (add_total _ _ _ _ _ Hhas Hadd), Hext.
        cbn [length]. lia.
Qed.

(** X16.  On a loaded cache and for articles with valid dates, whose source
    and hash name no inherited property, [filterNew] returns, in order, the
    articles whose hash is neither in the cache nor carried by an earlier
    article of the list; afterwards the cache has every hash of the list
    besides those it had, and no other hash that names no inherited
    property. *)
Theorem filterNew_result (s : DeduplicationService.state)
    (articles : list Article.t) :
  _loaded s = true ->
  ready (cacheService s) ->
  ownKeys articles ->
  datesValid articles ->
  exists s',
    filterNew s articles
    = Returns (unseen (CacheService.has (cacheService s)) articles) s' /\
    _loaded s' = true /\
    forall h,
      inherited h = false ->
      (CacheService.has (cacheService s') h = true <->
       CacheService.has (cacheService s) h = true
       \/ In h (map Article.getHash articles)).
Proof.
  intros Hloaded Hready _ Hdates.
  destruct (filterLoop_ready articles [] (cacheService s) Hready Hdates)
    as (cs' & Hloop & _ & Hhas).
  exists {| _loaded := true; cacheService := cs' |}.
  split; [|split; [reflexivity | intros h _; apply Hhas]].
  unfold filterNew, initialize. now rewrite Hloaded, Hloop, Hloaded.
Qed.

Lemma filterNew_result_witness :
  exists s',
    filterNew loadedEmpty [samplePost "First"; samplePost "Second"]
    = Returns (unseen (CacheService.has (cacheService loadedEmpty))
                 [samplePost "First"; samplePost "Second"]) s' /\
    _loaded s' = true /\
    forall h,
      inherited h = false ->
      (CacheService.has (cacheService s') h = true <->
       CacheService.has (cacheService loadedEmpty) h = true
       \/ In h (map Article.getHash [samplePost "First"; samplePost "Second"])).
Proof.
  apply filterNew_result.
  - reflexivity.
  - eexists _, _. split; reflexivity.
  - repeat constructor.
  - repeat constructor; discriminate.
Defined.

(** X17.  The statistics count what [filterNew] keeps: on a loaded cache and
    for articles whose source and hash name no inherited property, the total
    of [getStats] grows by the number of articles returned. *)
Theorem filterNew_stats (s s' : DeduplicationService.state)
    (articles newArticles : list Article.t) :
  _loaded s = true ->
  ready (cacheService s) ->
  ownKeys articles ->
  datesValid articles ->
  filterNew s articles = Returns newArticles s' ->
  exists before after,
    getStats s = inr before /\ getStats s' = inr after /\
    total after = total before + length newArticles.
Proof.
  intros Hloaded Hready _ Hdates Hrun.
  destruct (filterLoop_total articles [] (cacheService s) Hready Hdates)
    as (cs' & Hloop & Htotal).
  destruct (filterLoop_ready articles [] (cacheService s) Hready Hdates)
    as (cs'' & Hloop' & Hready' & _).
  rewrite Hloop in Hloop'. injection Hloop' as <-.
  unfold filterNew, initialize in Hrun. rewrite Hloaded, Hloop in Hrun.
  injection Hrun as <- <-.
  destruct Hready as (c & partitions & Hc & Hp).
  destruct Hready' as (c' & partitions' & Hc' & Hp').
  unfold getStats, CacheService.getCache. cbn [cacheService].
  unfold CacheService._getTotalEntries in Htotal.
  rewrite Hc, Hp in *. rewrite Hc', Hp' in *.
  eexists _, _. split; [reflexivity|]. split; [reflexivity|].
  cbn [total app]. exact Htotal.
Qed.

Lemma filterNew_stats_witness :
  exists before after,
    getStats loadedEmpty = inr before /\
    getStats (serviceAfter (filterNew loadedEmpty [samplePost "First"]))
    = inr after /\
    total after = total before + length [samplePost "First"].
Proof.
  apply (filterNew_stats loadedEmpty _ [samplePost "First"]).
  - reflexivity.
  - eexists _, _. split; reflexivity.
  - repeat constructor.
  - repeat constructor; discriminate.
  - reflexivity.
Defined.

End DedupMore.

(** ** One run of the process *)

Section RunFacts.

Lemma add_currentVersion (cs : CacheService.state) (source hash : jsstring)
    (timestamp : option jsDate) :
  currentVersion cs ->
  currentVersion (cacheAfter (CacheService.add cs source hash timestamp)).
Proof.
  unfold currentVersion, CacheService.add. intros Hv.
  destruct (CacheService._cache cs) as [c|] eqn:Hc.
  - destruct (CacheService.articles c); cbn [cacheAfter];
      [exact Hv | now rewrite Hc].
  - cbn [cacheAfter]. now rewrite Hc.
Qed.

Lemma filterLoop_currentVersion (articles : list Article.t) :
  forall newArticles cs,
    currentVersion cs ->
    currentVersion
      (cacheAfter (DeduplicationService.filterLoop articles newArticles cs)).
Proof.
  induction articles as [|a rest IH]; intros acc cs Hv; [exact Hv|].
  cbn [DeduplicationService.filterLoop].
  destruct (CacheService.has cs (Article.getHash a)); [now apply IH|].
  pose proof (add_currentVersion cs (Article.source a) (Article.getHash a)
                (Article.publishedAt a) Hv) as Hadd.
  destruct (Article.publishedAt a) as [[ms|]|]; [|exact Hv|];
    destruct (CacheService.add cs _ _ _) as [[] cs1 | e cs1];
    cbn [cacheAfter] in *; auto.
Qed.

Lemma load_currentVersion (cs : CacheService.state) :
  currentVersion (cacheAfter (CacheService.load cs)).
Proof.
  unfold CacheService.load, CacheService.save, currentVersion.
  destruct (CacheService.disk cs) as [| | | |c];
    try (cbn; destruct (CacheService.diskFails cs); reflexivity).
  destruct (bool_decide
              (CacheService.version c = Some Constants.CACHE_CONFIG_version))
    eqn:Hb; cbn [cacheAfter CacheService.with_cache CacheService._cache].
  - now apply bool_decide_eq_true in Hb.
  - reflexivity.
Qed.

Lemma filterNew_currentVersion (s : DeduplicationService.state)
    (articles : list Article.t) :
  currentVersion (DeduplicationService.cacheService s) ->
  currentVersion
    (DeduplicationService.cacheService
       (serviceAfter (DeduplicationService.filterNew s articles))).
Proof.
  intros Hv. unfold DeduplicationService.filterNew,
    DeduplicationService.initialize.
  assert (Hloop : forall s1,
    currentVersion (DeduplicationService.cacheService s1) ->
    currentVersion
      (DeduplicationService.cacheService
         (serviceAfter
            match DeduplicationService.filterLoop articles []
                    (DeduplicationService.cacheService s1) with
            | CacheService.Returns newArticles cs =>
                DeduplicationService.Returns newArticles
                  {| DeduplicationService._loaded :=
                       DeduplicationService._loaded s1;
                     DeduplicationService.cacheService := cs |}
            | CacheService.Throws e cs =>
                DeduplicationService.Throws e
                  {| DeduplicationService._loaded :=
                       DeduplicationService._loaded s1;
                     DeduplicationService.cacheService := cs |}
            end))).
  { intros s1 H1.
    pose proof (filterLoop_currentVersion articles []
                  (DeduplicationService.cacheService s1) H1) as Hl.
    now destruct (DeduplicationService.filterLoop articles [] _). }
  destruct (DeduplicationService._loaded s); [now apply Hloop|].
  pose proof (load_currentVersion (DeduplicationService.cacheService s)) as Hl.
  destruct (CacheService.load (DeduplicationService.cacheService s))
    as [c cs | e cs]; [now apply Hloop | exact Hl].
Qed.

Lemma filterSources_currentVersion (sources : list (list Article.t)) :
  forall s,
    currentVersion (DeduplicationService.cacheService s) ->
    currentVersion
      (DeduplicationService.cacheService
         (serviceAfter (Main.filterSources sources s))).
Proof.
  induction sources as [|articles rest IH]; intros s Hv; [exact Hv|].
  cbn [Main.filterSources].
  destruct articles as [|a articles]; [now apply IH|].
  pose proof (filterNew_currentVersion s (a :: articles) Hv) as Hnew.
  destruct (DeduplicationService.filterNew s (a :: articles))
    as [newArticles s1 | e s1]; [|exact Hnew].
  specialize (IH s1 Hnew).
  now destruct (Main.filterSources rest s1).
Qed.

Lemma filterSources_all_empty (sources : list (list Article.t))
    (s : DeduplicationService.state) :
  Forall (fun articles => articles = []) sources ->
  Main.filterSources sources s = DeduplicationService.Returns [] s.
Proof.
  induction 1 as [|articles rest -> _ IH]; [reflexivity | exact IH].
Qed.

(** [save] writes the version of the cache in memory. *)
Lemma save_writes_version (cs cs' : CacheService.state) :
  currentVersion cs ->
  CacheService.save cs = CacheService.Returns tt cs' ->
  (exists c, CacheService.disk cs' = CacheService.Json c /\
             CacheService.version c = Some Constants.CACHE_CONFIG_version) /\
  currentVersion cs'.
Proof.
  unfold currentVersion, CacheService.save. intros Hv Hsave.
  destruct (CacheService.diskFails cs); [discriminate|].
  destruct (CacheService._cache cs) as [c|]; [|discriminate].
  injection Hsave as <-. cbn. eauto.
Qed.

(** [cleanup] leaves the file alone or writes it under the same version. *)
Lemma cleanup_keeps_version (cs cs' : CacheService.state) :
  (exists c, CacheService.disk cs = CacheService.Json c /\
             CacheService.version c = Some Constants.CACHE_CONFIG_version) ->
  currentVersion cs ->
  CacheService.cleanup cs = CacheService.Returns tt cs' ->
  exists c, CacheService.disk cs' = CacheService.Json c /\
            CacheService.version c = Some Constants.CACHE_CONFIG_version.
Proof.
  unfold currentVersion, CacheService.cleanup. intros Hfile Hv Hclean.
  destruct (CacheService._cache cs) as [c|]; [|now injection Hclean as <-].
  destruct (CacheService.articles c) as [partitions|];
    [|now injection Hclean as <-].
  destruct (0 <? _); [|now injection Hclean as <-].
  apply save_writes_version in Hclean as [Hfile' _]; [exact Hfile'|].
  exact Hv.
Qed.

(** The file a completed run leaves has the current version. *)
Lemma dedupe_file_version (disk : CacheService.file) (now : Z)
    (sources : list (list Article.t)) (newArticles : list (list Article.t))
    (s : DeduplicationService.state) :
  Main.dedupe disk now sources = DeduplicationService.Returns newArticles s ->
  exists c,
    CacheService.disk (DeduplicationService.cacheService s)
    = CacheService.Json c /\
    CacheService.version c = Some Constants.CACHE_CONFIG_version.
Proof.
  unfold Main.dedupe. fold (freshService disk now). intros Hrun.
  pose proof (filterSources_currentVersion sources (freshService disk now) I)
    as Hv.
  destruct (Main.filterSources sources (freshService disk now))
    as [kept s1 | e s1]; [|discriminate].
  cbn [serviceAfter] in Hv.
  unfold DeduplicationService.save in Hrun.
  destruct (CacheService.save (DeduplicationService.cacheService s1))
    as [[] cs2 | e cs2] eqn:Hsave; [|discriminate].
  apply save_writes_version in Hsave as [Hfile Hv2]; [|exact Hv].
  unfold DeduplicationService.cleanup in Hrun.
  cbn [DeduplicationService.cacheService DeduplicationService._loaded] in Hrun.
  destruct (CacheService.cleanup cs2) as [[] cs3 | e cs3] eqn:Hclean;
    [|discriminate].
  injection Hrun as _ <-. cbn [DeduplicationService.cacheService].
  eapply cleanup_keeps_version; eassumption.
Qed.

End RunFacts.

(** X18.  A run in which no source has an article never loads the cache, and
    its [save] then throws a [TypeError]: the run fails, and the cache file is
    left as it was. *)
Theorem dedupe_without_articles_throws (disk : CacheService.file) (now : Z)
    (sources : list (list Article.t)) :
  Forall (fun articles => articles = []) sources ->
  Main.dedupe disk now sources
  = DeduplicationService.Throws TypeError (freshService disk now).
Proof.
  intros Hempty. unfold Main.dedupe.
  fold (freshService disk now).
  now rewrite filterSources_all_empty by exact Hempty.
Qed.

Lemma dedupe_without_articles_throws_witness :
  Main.dedupe CacheService.NoFile 0 [[]; []; []]
  = DeduplicationService.Throws TypeError (freshService CacheService.NoFile 0).
Proof.
  apply dedupe_without_articles_throws. repeat constructor.
Defined.

(** X19.  A run that completes leaves a cache file of the current version:
    also when [load] found a file of another version and only reset the cache
    in memory, the [save] of the run writes the new cache. *)
Theorem dedupe_leaves_current_version (disk : CacheService.file) (now : Z)
    (sources : list (list Article.t)) (newArticles : list (list Article.t))
    (s : DeduplicationService.state) :
  Main.dedupe disk now sources = DeduplicationService.Returns newArticles s ->
  exists c,
    CacheService.disk (DeduplicationService.cacheService s)
    = CacheService.Json c /\
    CacheService.version c = Some Constants.CACHE_CONFIG_version.
Proof. apply dedupe_file_version. Qed.

Lemma dedupe_leaves_current_version_witness :
  exists c,
    CacheService.disk
      (DeduplicationService.cacheService
         (serviceAfter
            (Main.dedupe (CacheService.Json staleCache) 86400000
               [[samplePost "First"]])))
    = CacheService.Json c /\
    CacheService.version c = Some Constants.CACHE_CONFIG_version.
Proof.
  eapply (dedupe_leaves_current_version (CacheService.Json staleCache) 86400000
            [[samplePost "First"]]).
  vm_compute. reflexivity.
Defined.

(** ** From one run to the next *)

Section NextRun.
Variable cutoff : Z.

Lemma holdsRecent_has (cs : CacheService.state) (h : jsstring) :
  holdsRecent cutoff cs h -> CacheService.has cs h = true.
Proof.
  intros (c & partitions & Hc & Hp & source & entries & ts & Hl & Hts & _).
  apply (has_iff cs c partitions h Hc Hp).
  exists source, entries. rewrite Hts. eauto.
Qed.

Lemma add_keeps_recent (cs cs' : CacheService.state) (source hash : jsstring)
    (timestamp : option jsDate) (h : jsstring) :
  holdsRecent cutoff cs h ->
  CacheService.has cs hash = false ->
  CacheService.add cs source hash timestamp = CacheService.Returns tt cs' ->
  holdsRecent cutoff cs' h.
Proof.
  intros Hrecent Hhas Hadd.
  assert (Hne : h <> hash).
  { intros ->. apply holdsRecent_has in Hrecent. congruence. }
  destruct Hrecent as (c & partitions & Hc & Hp & src & entries & ts & Hl & Hts & Hold).
  unfold CacheService.add in Hadd. rewrite Hc, Hp in Hadd.
  injection Hadd as <-.
  eexists _, _. split; [reflexivity|]. split; [reflexivity|].
  destruct (decide (src = source)) as [-> | Hsrc].
  - eexists source, _, ts. rewrite lookup_insert_eq. split; [reflexivity|].
    rewrite Hl. cbn [default]. rewrite lookup_insert_ne by congruence.
    now split.
  - exists src, entries, ts. rewrite lookup_insert_ne by congruence.
    now repeat split.
Qed.

Lemma add_makes_recent (cs cs' : CacheService.state) (source hash : jsstring)
    (timestamp : option jsDate) :
  CacheService.add cs source hash timestamp = CacheService.Returns tt cs' ->
  CacheService.olderThan cutoff
    (default (ValidDate (CacheService.now cs)) timestamp) = false ->
  holdsRecent cutoff cs' hash /\ CacheService.now cs' = CacheService.now cs.
Proof.
  intros Hadd Hold. unfold CacheService.add in Hadd.
  destruct (CacheService._cache cs) as [c|]; [|discriminate].
  destruct (CacheService.articles c) as [partitions|]; [|discriminate].
  injection Hadd as <-. split; [|reflexivity].
  eexists _, _. split; [reflexivity|]. split; [reflexivity|].
  eexists source, _, _. rewrite lookup_insert_eq. split; [reflexivity|].
  rewrite lookup_insert_eq. now split.
Qed.

Lemma add_now (cs cs' : CacheService.state) (source hash : jsstring)
    (timestamp : option jsDate) :
  CacheService.add cs source hash timestamp = CacheService.Returns tt cs' ->
  CacheService.now cs' = CacheService.now cs.
Proof.
  unfold CacheService.add.
  destruct (CacheService._cache cs) as [c|]; [|discriminate].
  destruct (CacheService.articles c) as [partitions|]; [|discriminate].
  now intros [= <-].
Qed.

(** The loop of [filterNew] keeps the recent entries of the cache and makes
    one for every article it lets through with a recent time stamp. *)
Lemma filterLoop_recent (articles : list Article.t) :
  forall newArticles cs l cs',
    DeduplicationService.filterLoop articles newArticles cs
    = CacheService.Returns l cs' ->
    CacheService.now cs' = CacheService.now cs /\
    (forall h, holdsRecent cutoff cs h -> holdsRecent cutoff cs' h) /\
    exists kept,
      l = newArticles ++ kept /\
      forall a, In a kept ->
        CacheService.olderThan cutoff (stampOf (CacheService.now cs) a) = false ->
        holdsRecent cutoff cs' (Article.getHash a).
Proof.
  induction articles as [|a rest IH]; intros acc cs l cs' Hrun;
    cbn [DeduplicationService.filterLoop] in Hrun.
  - injection Hrun as <- <-. split; [reflexivity|]. split; [tauto|].
    exists []. rewrite app_nil_r. split; [reflexivity | intros ? []].
  - destruct (CacheService.has cs (Article.getHash a)) eqn:Hhas;
      [now apply IH in Hrun|].
    assert (Hadd : exists cs1,
              CacheService.add cs (Article.source a) (Article.getHash a)
                (Article.publishedAt a) = CacheService.Returns tt cs1 /\
              DeduplicationService.filterLoop rest (acc ++ [a]) cs1
              = CacheService.Returns l cs').
    { destruct (Article.publishedAt a) as [[ms|]|]; [|discriminate|];
        destruct (CacheService.add cs _ _ _) as [[] cs1 | e cs1];
        try discriminate; eauto. }
    destruct Hadd as (cs1 & Hadd & Hrest).
    pose proof (add_now _ _ _ _ _ Hadd) as Hnow1.
    apply IH in Hrest as (Hnow & Hkeep & kept & -> & Hkept).
    split; [congruence|]. split.
    + intros h Hh. apply Hkeep. eapply add_keeps_recent; eassumption.
    + exists (a :: kept). rewrite <- app_assoc. split; [reflexivity|].
      intros b [<- | Hb] Hold.
      * apply Hkeep. eapply add_makes_recent; [exact Hadd | exact Hold].
      * apply Hkept; [exact Hb | now rewrite Hnow1].
Qed.

Lemma load_now (cs : CacheService.state) :
  CacheService.now (cacheAfter (CacheService.load cs)) = CacheService.now cs.
Proof.
  unfold CacheService.load, CacheService.save.
  destruct (CacheService.disk cs); cbn;
    destruct (CacheService.diskFails cs); reflexivity.
Qed.

Lemma filterNew_recent (s s' : DeduplicationService.state)
    (articles l : list Article.t) :
  DeduplicationService.filterNew s articles
  = DeduplicationService.Returns l s' ->
  DeduplicationService._loaded s' = true /\
  CacheService.now (DeduplicationService.cacheService s')
  = CacheService.now (DeduplicationService.cacheService s) /\
  (DeduplicationService._loaded s = true ->
   forall h, holdsRecent cutoff (DeduplicationService.cacheService s) h ->
             holdsRecent cutoff (DeduplicationService.cacheService s') h) /\
  forall a, In a l ->
    CacheService.olderThan cutoff
      (stampOf (CacheService.now (DeduplicationService.cacheService s)) a)
    = false ->
    holdsRecent cutoff (DeduplicationService.cacheService s')
      (Article.getHash a).
Proof.
  unfold DeduplicationService.filterNew, DeduplicationService.initialize.
  destruct (DeduplicationService._loaded s) eqn:Hloaded.
  - destruct (DeduplicationService.filterLoop articles []
                (DeduplicationService.cacheService s)) as [l0 cs' | e cs']
      eqn:Hloop; [|discriminate].
    intros [= <- <-]. cbn [DeduplicationService._loaded
                            DeduplicationService.cacheService].
    apply filterLoop_recent in Hloop as (Hnow & Hkeep & kept & -> & Hkept).
    split; [exact Hloaded|]. split; [exact Hnow|].
    split; [intros _; exact Hkeep | exact Hkept].
  - pose proof (load_now (DeduplicationService.cacheService s)) as Hload.
    destruct (CacheService.load (DeduplicationService.cacheService s))
      as [c cs1 | e cs1]; [|discriminate].
    cbn [cacheAfter] in Hload.
    cbn [DeduplicationService._loaded DeduplicationService.cacheService].
    destruct (DeduplicationService.filterLoop articles [] cs1)
      as [l0 cs' | e cs'] eqn:Hloop; [|discriminate].
    intros [= <- <-]. cbn [DeduplicationService._loaded
                            DeduplicationService.cacheService].
    apply filterLoop_recent in Hloop as (Hnow & Hkeep & kept & -> & Hkept).
    split; [reflexivity|]. split; [congruence|].
    split; [discriminate|].
    intros a Ha Hold. apply Hkept; [exact Ha | now rewrite Hload].
Qed.

Lemma filterSources_recent (sources : list (list Article.t)) :
  forall s kept s',
    Main.filterSources sources s = DeduplicationService.Returns kept s' ->
    CacheService.now (DeduplicationService.cacheService s')
    = CacheService.now (DeduplicationService.cacheService s) /\
    (DeduplicationService._loaded s = true ->
     forall h, holdsRecent cutoff (DeduplicationService.cacheService s) h ->
               holdsRecent cutoff (DeduplicationService.cacheService s') h) /\
    forall a, In a (concat kept) ->
      CacheService.olderThan cutoff
        (stampOf (CacheService.now (DeduplicationService.cacheService s)) a)
      = false ->
      holdsRecent cutoff (DeduplicationService.cacheService s')
        (Article.getHash a).
Proof.
  induction sources as [|articles rest IH]; intros s kept s' Hrun;
    cbn [Main.filterSources] in Hrun.
  - injection Hrun as <- <-. split; [reflexivity|]. split; [tauto|].
    intros a [].
  - destruct articles as [|a0 articles]; [now apply IH|].
    destruct (DeduplicationService.filterNew s (a0 :: articles))
      as [l s1 | e s1] eqn:Hnew; [|discriminate].
    destruct (Main.filterSources rest s1) as [others s2 | e s2] eqn:Hrest;
      [|discriminate].
    injection Hrun as <- <-.
    apply filterNew_recent in Hnew as (Hloaded1 & Hnow1 & Hkeep1 & Hkept1).
    apply IH in Hrest as (Hnow2 & Hkeep2 & Hkept2).
    split; [congruence|]. split.
    + intros Hloaded h Hh. apply Hkeep2; [exact Hloaded1|]. now apply Hkeep1.
    + intros a Ha Hold. cbn [concat] in Ha. apply in_app_or in Ha as [Ha | Ha].
      * apply Hkeep2; [exact Hloaded1|]. now apply Hkept1.
      * apply Hkept2; [exact Ha | now rewrite Hnow1].
Qed.

Lemma save_recent (cs cs' : CacheService.state) (h : jsstring) :
  CacheService.save cs = CacheService.Returns tt cs' ->
  holdsRecent cutoff cs h ->
  holdsRecent cutoff cs' h /\ fileHoldsRecent cutoff cs' h /\
  CacheService.now cs' = CacheService.now cs.
Proof.
  unfold CacheService.save.
  intros Hsave (c & partitions & Hc & Hp & Hrecent).
  destruct (CacheService.diskFails cs); [discriminate|].
  rewrite Hc in Hsave. injection Hsave as <-.
  split; [|split; [|reflexivity]]; eexists _, _;
    (split; [reflexivity|]); (split; [exact Hp | exact Hrecent]).
Qed.

End NextRun.

(** A time stamp that is not before a cutoff is not before an earlier
    one. *)
Lemma olderThan_earlier (cutoff cutoff' : Z) (timestamp : jsDate) :
  (cutoff <= cutoff')%Z ->
  CacheService.olderThan cutoff' timestamp = false ->
  CacheService.olderThan cutoff timestamp = false.
Proof.
  intros Hle. destruct timestamp as [ms|]; [|reflexivity].
  cbn [CacheService.olderThan]. rewrite !Z.ltb_ge. lia.
Qed.

(** [cleanup] leaves in the file the entries that are not before a cutoff at
    or after its own. *)
Lemma cleanup_recent (cutoff : Z) (cs cs' : CacheService.state)
    (h : jsstring) :
  (CacheService.now cs - Constants.CACHE_CONFIG_retentionDays * 86400000
   <= cutoff)%Z ->
  CacheService.cleanup cs = CacheService.Returns tt cs' ->
  holdsRecent cutoff cs h ->
  fileHoldsRecent cutoff cs h ->
  fileHoldsRecent cutoff cs' h.
Proof.
  intros Hle. unfold CacheService.cleanup.
  intros Hclean (c & partitions & Hc & Hp & src & entries & ts & Hl & Hts & Hold)
    Hfile.
  rewrite Hc, Hp in Hclean.
  destruct (0 <? _).
  - eapply save_recent in Hclean as (_ & Hfile' & _); [exact Hfile'|].
    eexists _, _. split; [reflexivity|]. split; [reflexivity|].
    eexists src, _, ts. rewrite lookup_fmap, Hl. split; [reflexivity|].
    split; [|exact Hold]. apply map_lookup_filter_Some. split; [exact Hts|].
    cbn [snd]. eapply olderThan_earlier; [exact Hle | exact Hold].
  - injection Hclean as <-. exact Hfile.
Qed.

(** The file a completed run leaves holds a recent entry for every article
    the run returned with a recent time stamp. *)
Lemma dedupe_file_recent (cutoff : Z) (disk : CacheService.file) (now : Z)
    (sources kept : list (list Article.t)) (s : DeduplicationService.state)
    (a : Article.t) :
  (now - Constants.CACHE_CONFIG_retentionDays * 86400000 <= cutoff)%Z ->
  Main.dedupe disk now sources = DeduplicationService.Returns kept s ->
  In a (concat kept) ->
  CacheService.olderThan cutoff (stampOf now a) = false ->
  fileHoldsRecent cutoff (DeduplicationService.cacheService s)
    (Article.getHash a).
Proof.
  unfold Main.dedupe. fold (freshService disk now). intros Hle Hrun Ha Hold.
  destruct (Main.filterSources sources (freshService disk now))
    as [kept0 s1 | e s1] eqn:Hfilter; [|discriminate].
  apply (filterSources_recent cutoff) in Hfilter as (Hnow1 & _ & Hkept).
  cbn [freshService DeduplicationService.cacheService CacheService.now]
    in Hnow1, Hkept.
  unfold DeduplicationService.save in Hrun.
  destruct (CacheService.save (DeduplicationService.cacheService s1))
    as [[] cs2 | e cs2] eqn:Hsave; [|discriminate].
  unfold DeduplicationService.cleanup in Hrun.
  cbn [DeduplicationService.cacheService DeduplicationService._loaded] in Hrun.
  destruct (CacheService.cleanup cs2) as [[] cs3 | e cs3] eqn:Hclean;
    [|discriminate].
  injection Hrun as <- <-. cbn [DeduplicationService.cacheService].
  eapply save_recent in Hsave as (Hmem & Hfile & Hnow2);
    [|apply Hkept; [exact Ha | exact Hold]].
  assert (Hnow : CacheService.now cs2 = now) by congruence.
  eapply cleanup_recent; [|exact Hclean|exact Hmem|exact Hfile].
  now rewrite Hnow.
Qed.

(** ** Articles without an address, from one run to the next *)

Section AcrossRuns.
Import DeduplicationService.

(** A service that starts from a file of the current version does what a
    service does that has this file's cache loaded. *)
Lemma filterNew_from_file (c : CacheService.cache) (now : Z)
    (articles : list Article.t) :
  CacheService.version c = Some Constants.CACHE_CONFIG_version ->
  filterNew (freshService (CacheService.Json c) now) articles
  = filterNew
      {| _loaded := true;
         cacheService :=
           CacheService.with_cache
             (cacheService (freshService (CacheService.Json c) now)) c |}
      articles.
Proof.
  intros Hv. unfold filterNew, initialize, CacheService.load.
  cbn [freshService _loaded cacheService CacheService.disk].
  now rewrite bool_decide_eq_true_2 by exact Hv.
Qed.

Lemma filterSources_from_file (c : CacheService.cache) (now : Z)
    (sources : list (list Article.t)) :
  CacheService.version c = Some Constants.CACHE_CONFIG_version ->
  Main.filterSources sources (freshService (CacheService.Json c) now)
  = Returns [] (freshService (CacheService.Json c) now)
  \/ Main.filterSources sources (freshService (CacheService.Json c) now)
     = Main.filterSources sources
         {| _loaded := true;
            cacheService :=
              CacheService.with_cache
                (cacheService (freshService (CacheService.Json c) now)) c |}.
Proof.
  intros Hv. induction sources as [|articles rest IH]; [now left|].
  cbn [Main.filterSources]. destruct articles as [|a articles]; [exact IH|].
  right. now rewrite filterNew_from_file by exact Hv.
Qed.

(** The lists [filterSources] collects hold articles of the sources, and the
    service remembers them. *)
Lemma filterSources_remembers (sources : list (list Article.t)) :
  forall s kept0 kept s',
    remembers s kept0 ->
    Main.filterSources sources s = Returns kept s' ->
    remembers s' (kept0 ++ concat kept) /\
    forall a, In a (concat kept) -> In a (concat sources).
Proof.
  induction sources as [|articles rest IH]; intros s kept0 kept s' Hrem Hrun;
    cbn [Main.filterSources] in Hrun.
  - injection Hrun as <- <-. cbn [concat]. rewrite app_nil_r.
    split; [exact Hrem | intros ? []].
  - destruct articles as [|a0 articles].
    { destruct (IH _ _ _ _ Hrem Hrun) as [Hrem' Hsub].
      split; [exact Hrem' | exact Hsub]. }
    pose proof (filterNew_remembers s kept0 (a0 :: articles) Hrem) as Hcall.
    destruct (filterNew s (a0 :: articles)) as [l s1 | e s1]; [|discriminate].
    destruct Hcall as [Hrem1 Hsub1].
    destruct (Main.filterSources rest s1) as [others s2 | e s2] eqn:Hrest;
      [|discriminate].
    injection Hrun as <- <-.
    destruct (IH _ _ _ _ Hrem1 Hrest) as [Hrem2 Hsub2].
    cbn [concat]. split; [now rewrite app_assoc|].
    intros a Ha. apply in_app_or in Ha as [Ha | Ha]; apply in_or_app;
      [left; now apply Hsub1 | right; now apply Hsub2].
Qed.

Variable cutoff : Z.
Variable h : jsstring.

(** A completed run that starts from a file that keeps [h] returns no article
    of that hash, and leaves a file that keeps it. *)
Lemma dedupe_keeps (disk : CacheService.file) (now : Z)
    (sources kept : list (list Article.t)) (s : state) :
  (now - Constants.CACHE_CONFIG_retentionDays * 86400000 <= cutoff)%Z ->
  fileKeeps cutoff h disk ->
  Main.dedupe disk now sources = Returns kept s ->
  (forall a, In a (concat kept) -> Article.getHash a <> h) /\
  fileKeeps cutoff h (CacheService.disk (cacheService s)).
Proof.
  intros Hle (c & partitions & -> & Hv & Hp & Hrecent) Hrun.
  pose proof (dedupe_file_version _ _ _ _ _ Hrun) as (c' & Hdisk' & Hv').
  unfold Main.dedupe in Hrun.
  fold (freshService (CacheService.Json c) now) in Hrun.
  destruct (filterSources_from_file c now sources Hv) as [Hempty | Hloaded].
  { rewrite Hempty in Hrun. discriminate Hrun. }
  rewrite Hloaded in Hrun. clear Hloaded.
  set (sl := {| _loaded := true;
                cacheService :=
                  CacheService.with_cache
                    (cacheService (freshService (CacheService.Json c) now)) c |})
    in Hrun.
  assert (Hmem : holdsRecent cutoff (cacheService sl) h).
  { exists c, partitions. split; [reflexivity|]. now split. }
  destruct (Main.filterSources sources sl) as [kept0 s1 | e s1] eqn:Hfilter;
    [|discriminate].
  set (a0 := {| Article.title := []; Article.url := []; Article.source := [];
                Article.publishedAt := None; Article.author := None;
                Article.summary := None; Article.tags := [];
                Article.id := h; Article.aiSummary := None;
                Article.translatedTitle := None |}).
  assert (Hrem : remembers sl [a0]).
  { split; [repeat constructor; intros []|].
    intros a [<- | []]. split; [reflexivity|].
    now apply (holdsRecent_has cutoff). }
  destruct (filterSources_remembers _ _ _ _ _ Hrem Hfilter) as [[Hnd _] _].
  apply (filterSources_recent cutoff) in Hfilter as (Hnow1 & Hkeep & _).
  specialize (Hkeep eq_refl h Hmem).
  unfold save in Hrun.
  destruct (CacheService.save (cacheService s1)) as [[] cs2 | e cs2] eqn:Hsave;
    [|discriminate].
  unfold cleanup in Hrun. cbn [cacheService _loaded] in Hrun.
  destruct (CacheService.cleanup cs2) as [[] cs3 | e cs3] eqn:Hclean;
    [|discriminate].
  injection Hrun as <- <-. cbn [cacheService] in *.
  split.
  - intros a Ha Heq. cbn [app map] in Hnd.
    apply List.NoDup_cons_iff in Hnd as [Hnotin _]. apply Hnotin.
    change (Article.getHash a0) with h. rewrite <- Heq. now apply in_map.
  - eapply save_recent in Hsave as (Hmem2 & Hfile2 & Hnow2); [|exact Hkeep].
    assert (Hfile3 : fileHoldsRecent cutoff cs3 h).
    { eapply cleanup_recent; [|exact Hclean|exact Hmem2|exact Hfile2].
      rewrite Hnow2, Hnow1. exact Hle. }
    destruct Hfile3 as (c3 & partitions3 & Hdisk3 & Hp3 & Hrecent3).
    rewrite Hdisk3 in Hdisk'. injection Hdisk' as <-.
    now exists c3, partitions3.
Qed.

(** A completed run that returns an article of hash [h] with a recent time
    stamp leaves a file that keeps [h]. *)
Lemma dedupe_starts_keeping (disk : CacheService.file) (now : Z)
    (sources kept : list (list Article.t)) (s : state) (a : Article.t) :
  (now - Constants.CACHE_CONFIG_retentionDays * 86400000 <= cutoff)%Z ->
  Main.dedupe disk now sources = Returns kept s ->
  In a (concat kept) ->
  Article.getHash a = h ->
  CacheService.olderThan cutoff (stampOf now a) = false ->
  fileKeeps cutoff h (CacheService.disk (cacheService s)).
Proof.
  intros Hle Hrun Ha <- Hold.
  pose proof (dedupe_file_version _ _ _ _ _ Hrun) as (c' & Hdisk' & Hv').
  destruct (dedupe_file_recent cutoff _ _ _ _ _ _ Hle Hrun Ha Hold)
    as (c3 & partitions3 & Hdisk3 & Hp3 & Hrecent3).
  rewrite Hdisk3 in Hdisk'. injection Hdisk' as <-.
  now exists c3, partitions3.
Qed.

(** What a completed run returns are articles of its sources, of pairwise
    distinct hashes. *)
Lemma dedupe_distinct (disk : CacheService.file) (now : Z)
    (sources kept : list (list Article.t)) (s : state) :
  Main.dedupe disk now sources = Returns kept s ->
  List.NoDup (map Article.getHash (concat kept)) /\
  forall a, In a (concat kept) -> In a (concat sources).
Proof.
  intros Hrun. unfold Main.dedupe in Hrun. fold (freshService disk now) in Hrun.
  destruct (Main.filterSources sources (freshService disk now))
    as [kept0 s1 | e s1] eqn:Hfilter; [|discriminate].
  assert (Hrem : remembers (freshService disk now) [])
    by (split; [constructor | intros ? []]).
  destruct (filterSources_remembers _ _ _ _ _ Hrem Hfilter) as [[Hnd _] Hsub].
  destruct (save s1) as [[] s2 | e s2]; [|discriminate].
  destruct (cleanup s2) as [[] s3 | e s3]; [|discriminate].
  injection Hrun as <- <-. now split.
Qed.

Variable P : Article.t -> bool.

(** Over completed runs on one file, each within the retention period of
    the articles that [P] selects, all of hash [h], at most one selected
    article is returned; none when the file keeps [h] from the start. *)
Lemma runsFrom_at_most_one (runs : list (Z * list (list Article.t))) :
  forall disk,
    Forall (fun run =>
              (fst run - Constants.CACHE_CONFIG_retentionDays * 86400000
               <= cutoff)%Z /\
              forall a, In a (concat (snd run)) -> P a = true ->
                Article.getHash a = h /\
                CacheService.olderThan cutoff (stampOf (fst run) a) = false)
      runs ->
    Forall completed (runsFrom disk runs) ->
    (fileKeeps cutoff h disk ->
     List.filter P (keptBy (runsFrom disk runs)) = []) /\
    length (List.filter P (keptBy (runsFrom disk runs))) <= 1.
Proof.
  induction runs as [|[now sources] rest IH]; intros disk Hruns Hdone.
  - split; [reflexivity | cbn; lia].
  - apply List.Forall_cons_iff in Hruns as [[Hle Hsel] Hruns].
    cbn [fst snd] in Hle, Hsel.
    cbn [runsFrom] in *.
    apply List.Forall_cons_iff in Hdone as [Hfirst Hdone].
    destruct (Main.dedupe disk now sources) as [kept s | e s] eqn:Hrun;
      [|destruct Hfirst as [? Hfirst]; discriminate Hfirst].
    cbn [fileAfter] in *.
    destruct (IH _ Hruns Hdone) as [IHkeeps IHone].
    unfold keptBy in *. cbn [map returned concat].
    change (default [] (Some kept)) with kept.
    rewrite concat_app, List.filter_app.
    destruct (dedupe_distinct _ _ _ _ _ Hrun) as [Hnd Hsub].
    split.
    + intros Hkeeps.
      destruct (dedupe_keeps _ _ _ _ _ Hle Hkeeps Hrun) as [Hnone Hkeeps'].
      rewrite (IHkeeps Hkeeps'), app_nil_r.
      destruct (List.filter P (concat kept)) as [|a l] eqn:Hf; [reflexivity|].
      assert (Ha : In a (List.filter P (concat kept))) by (rewrite Hf; now left).
      apply List.filter_In in Ha as [Ha HPa].
      exfalso. apply (Hnone a Ha). now apply Hsel; [apply Hsub|].
    + destruct (List.filter P (concat kept)) as [|a l] eqn:Hf;
        [exact IHone|].
      assert (Hlen : length (List.filter P (concat kept)) <= 1).
      { apply (filter_length_le_one Article.getHash P h); [exact Hnd|].
        intros b Hb HPb. now apply Hsel; [apply Hsub|]. }
      assert (Ha : In a (List.filter P (concat kept))) by (rewrite Hf; now left).
      apply List.filter_In in Ha as [Ha HPa].
      destruct (Hsel a (Hsub a Ha) HPa) as [Hhash Hold].
      rewrite (IHkeeps (dedupe_starts_keeping _ _ _ _ _ _ Hle Hrun Ha Hhash Hold)).
      rewrite app_nil_r, <- Hf. exact Hlen.
Qed.

End AcrossRuns.

(** Among the cutoffs of a sequence of runs there is a latest one. *)
Lemma latest_cutoff (l : list Z) :
  l <> [] -> exists m, In m l /\ forall x, In x l -> (x <= m)%Z.
Proof.
  induction l as [|x l IH]; [congruence|]. intros _.
  destruct l as [|y l'].
  - exists x. split; [now left|]. intros z [<- | []]. lia.
  - destruct IH as (m & Hm & Hmax); [discriminate|].
    destruct (Z_le_gt_dec x m).
    + exists m. split; [now right|]. intros z [<- | Hz]; [lia | now apply Hmax].
    + exists x. split; [now left|]. intros z [<- | Hz]; [lia|].
      specialize (Hmax z Hz). lia.
Qed.

(** C10 (amended).  [_normalizeUrl] returns the empty string for an absent or
    empty address, so two articles built with the same source and no address
    have the same hash, whatever their other fields.  Consequently
    [filterNew] returns at most one article without address per source, for
    articles whose source and hash name no inherited property: over any
    sequence of [filterNew] calls on one service, and over any sequence of
    completed runs that share the cache file, as long as every run is within
    the retention period of the time stamp of each such article offered (its
    publication date, or the time of its run).  [cleanup] removes an entry
    that is older, and a run that throws before [save] records nothing. *)
Theorem urlless_articles_deduplicated {Rest : Type}
    (sha256hex : jsstring -> jsstring)
    (URL_parse : jsstring -> option (URL Rest))
    (URL_toString : URL Rest -> jsstring) :
  (Article._normalizeUrl URL_parse URL_toString None = [] /\
   Article._normalizeUrl URL_parse URL_toString (Some []) = []) /\
  (forall i1 i2,
     Article.in_source i1 = Article.in_source i2 ->
     Article.in_url i1 = None \/ Article.in_url i1 = Some [] ->
     Article.in_url i2 = None \/ Article.in_url i2 = Some [] ->
     Article.getHash (Article.constructor sha256hex URL_parse URL_toString i1)
     = Article.getHash (Article.constructor sha256hex URL_parse URL_toString i2)) /\
  (forall (s : DeduplicationService.state) (calls : list (list Article.input))
          (source : jsstring),
     Forall ownKeys
       (map (map (Article.constructor sha256hex URL_parse URL_toString)) calls) ->
     length
       (List.filter
          (fun a => bool_decide (Article.url a = [] /\ Article.source a = source))
          (concat
             (filterNewCalls
                (map (map (Article.constructor sha256hex URL_parse URL_toString))
                   calls) s)))
     <= 1) /\
  (forall (disk : CacheService.file)
          (runs : list (Z * list (list Article.input))) (source : jsstring),
     let articleRuns :=
       map (fun run =>
              (fst run,
               map (map (Article.constructor sha256hex URL_parse URL_toString))
                 (snd run))) runs in
     Forall (fun run => Forall ownKeys (snd run)) articleRuns ->
     Forall completed (runsFrom disk articleRuns) ->
     (forall now sources a now' sources',
        In (now, sources) articleRuns ->
        In a (concat sources) ->
        Article.url a = [] -> Article.source a = source ->
        In (now', sources') articleRuns ->
        CacheService.olderThan
          (now' - Constants.CACHE_CONFIG_retentionDays * 86400000)
          (stampOf now a) = false) ->
     length
       (List.filter
          (fun a => bool_decide (Article.url a = [] /\ Article.source a = source))
          (keptBy (runsFrom disk articleRuns)))
     <= 1).
Proof.
  assert (Hhash : forall source a (batches : list (list Article.input)),
            In a (concat (map (map (Article.constructor sha256hex URL_parse
                                      URL_toString)) batches)) ->
            Article.url a = [] -> Article.source a = source ->
            Article.getHash a = Article._generateId sha256hex source []).
  { intros source a batches Ha Hurl Hsource.
    apply in_concat in Ha as (batch & Hbatch & Ha).
    apply in_map_iff in Hbatch as (inputs & <- & _).
    apply in_map_iff in Ha as (i & <- & _).
    unfold Article.getHash, Article.constructor in *.
    cbn [Article.id Article.url Article.source] in *.
    now rewrite Hurl, Hsource. }
  split; [now split|]. split; [|split].
  - intros i1 i2 Hsource [Hu1 | Hu1] [Hu2 | Hu2];
      unfold Article.getHash, Article.constructor; cbn [Article.id];
      rewrite Hu1, Hu2, Hsource; reflexivity.
  - intros s calls source _.
    destruct (filterNewCalls_remembers
                (map (map (Article.constructor sha256hex URL_parse URL_toString))
                   calls) s [])
      as [Hnd Hsub]; [split; [constructor | intros ? []]|].
    cbn [app] in Hnd.
    apply (filter_length_le_one Article.getHash _
             (Article._generateId sha256hex source [])); [exact Hnd|].
    intros a Ha HP. apply bool_decide_eq_true in HP as [Hurl Hsource].
    now apply (Hhash source a calls); [apply Hsub| |].
  - intros disk runs source articleRuns _ Hdone Hrecent.
    destruct runs as [|run0 runs0]; [cbn; lia|].
    assert (Hne : articleRuns <> []) by (subst articleRuns; discriminate).
    destruct (latest_cutoff
                (map (fun run => (fst run
                        - Constants.CACHE_CONFIG_retentionDays * 86400000)%Z)
                   articleRuns)) as (cutoff & Hin & Hmax).
    { intros Hnil. apply map_eq_nil in Hnil. contradiction. }
    apply in_map_iff in Hin as ([now' sources'] & Hcut & Hin').
    cbn [fst] in Hcut.
    refine (proj2 (runsFrom_at_most_one cutoff
                     (Article._generateId sha256hex source []) _
                     articleRuns disk _ Hdone)).
    apply List.Forall_forall. intros [now sources] Hrun. cbn [fst snd]. split.
    + apply Hmax. apply in_map_iff. now exists (now, sources).
    + intros a Ha HP. apply bool_decide_eq_true in HP as [Hurl Hsource].
      split.
      * subst articleRuns. apply in_map_iff in Hrun as (run & [= <- <-] & _).
        now apply (Hhash source a (snd run)).
      * rewrite <- Hcut. now apply (Hrecent now sources a now' sources').
Qed.

Lemma urlless_articles_deduplicated_witness :
  Article.getHash
    (Article.constructor (Rest := unit) (fun data => data) (fun _ => None)
       (fun _ => []) (urlLessInput "First" None))
  = Article.getHash
      (Article.constructor (Rest := unit) (fun data => data) (fun _ => None)
         (fun _ => []) (urlLessInput "Second" (Some []))) /\
  length
    (List.filter
       (fun a => bool_decide (Article.url a = []
                              /\ Article.source a = lit "hackernews"))
       (keptBy
          (runsFrom CacheService.NoFile
             (map (fun run =>
                     (fst run,
                      map (map (Article.constructor (Rest := unit)
                                  (fun data => data) (fun _ => None)
                                  (fun _ => []))) (snd run)))
                [(0%Z, [[urlLessInput "First" None]]);
                 (day, [[urlLessInput "Second" (Some [])]])]))))
  <= 1.
Proof.
  pose proof (urlless_articles_deduplicated (Rest := unit)
                (fun data => data) (fun _ => None) (fun _ => []))
    as (_ & Hsame & _ & Hruns).
  split.
  - apply Hsame; [reflexivity | now left | now right].
  - apply (Hruns CacheService.NoFile
             [(0%Z, [[urlLessInput "First" None]]);
              (day, [[urlLessInput "Second" (Some [])]])]
             (lit "hackernews")).
    + repeat constructor.
    + repeat constructor; vm_compute; eexists; reflexivity.
    + intros now sources a now' sources' Hrun Ha _ _ Hrun'.
      destruct Hrun as [[= <- <-] | [[= <- <-] | []]];
        destruct Ha as [<- | []];
        destruct Hrun' as [[= <- <-] | [[= <- <-] | []]]; reflexivity.
Defined.

(** C10 as stated fails across runs.  The first run keeps its article.  The
    second drops its article, and its [cleanup] removes the entry, by then
    older than 30 days.  The third run keeps its article: a second article
    without address for that source.  And a run whose first [filterNew]
    returns such an article throws on the article it is offered next, before
    [save]: the run of the next day returns such an article again. *)
Lemma urlless_article_kept_again_after_cleanup :
  (returned firstRun = Some [[urlLessPost "First"]] /\
   returned secondRun = Some [[]] /\
   returned thirdRun = Some [[urlLessPost "Third"]]) /\
  (returned (DeduplicationService.filterNew (freshService CacheService.NoFile 0)
               [urlLessPost "First"])
   = Some [urlLessPost "First"] /\
   returned abortedRun = None /\
   returned runAfterAbort = Some [[urlLessPost "Second"]]).
Proof. vm_compute. repeat split; reflexivity. Qed.

(** X28.  No article is returned twice by consecutive runs.  When a run
    completes on articles whose source and hash name no inherited property,
    an article it returned whose time stamp (its publication date, or the
    time of the run when it has none) is within the retention period has its
    hash in the cache file the run leaves, with a time stamp that is not
    before the cutoff of the run; and the [filterNew] of a service that
    starts from that file returns no article of that hash. *)
Theorem next_run_drops_returned (disk : CacheService.file) (now : Z)
    (sources kept : list (list Article.t)) (s : DeduplicationService.state)
    (a : Article.t) :
  Forall ownKeys sources ->
  Main.dedupe disk now sources = DeduplicationService.Returns kept s ->
  In a (concat kept) ->
  CacheService.olderThan
    (now - Constants.CACHE_CONFIG_retentionDays * 86400000) (stampOf now a)
  = false ->
  fileHoldsRecent (now - Constants.CACHE_CONFIG_retentionDays * 86400000)
    (DeduplicationService.cacheService s) (Article.getHash a) /\
  forall now' articles' kept' s',
    ownKeys articles' ->
    DeduplicationService.filterNew
      (freshService (CacheService.disk (DeduplicationService.cacheService s))
         now')
      articles'
    = DeduplicationService.Returns kept' s' ->
    Forall (fun a' => Article.getHash a' <> Article.getHash a) kept'.
Proof.
  intros _ Hrun Ha Hold.
  split; [exact (dedupe_file_recent _ _ _ _ _ _ _ (Z.le_refl _) Hrun Ha Hold)|].
  intros now' articles' kept' s' _ Hnext.
  apply List.Forall_forall. intros a' Ha' Heq.
  pose proof (dedupe_file_version _ _ _ _ _ Hrun) as (c & Hdisk & Hversion).
  pose proof (dedupe_file_recent _ _ _ _ _ _ _ (Z.le_refl _) Hrun Ha Hold)
    as (c0 & partitions & Hdisk0 & Hp & Hrecent).
  rewrite Hdisk in Hdisk0. injection Hdisk0 as <-.
  unfold DeduplicationService.filterNew, DeduplicationService.initialize,
    CacheService.load in Hnext.
  cbn [freshService DeduplicationService._loaded
       DeduplicationService.cacheService CacheService.disk] in Hnext.
  rewrite Hdisk in Hnext.
  rewrite bool_decide_eq_true_2 in Hnext by exact Hversion.
  cbn [DeduplicationService._loaded DeduplicationService.cacheService] in Hnext.
  set (loaded := CacheService.with_cache _ c) in Hnext.
  assert (Hhas : CacheService.has loaded (Article.getHash a) = true).
  { apply (holdsRecent_has
             (now - Constants.CACHE_CONFIG_retentionDays * 86400000)).
    exists c, partitions. split; [reflexivity|]. now split. }
  pose proof (filterLoop_general articles' [] loaded) as Hloop.
  destruct (DeduplicationService.filterLoop articles' [] loaded)
    as [l cs' | e cs']; [|discriminate].
  injection Hnext as <- <-.
  destruct Hloop as (kept0 & -> & _ & Hkept & _). cbn [app] in Ha'.
  destruct (Hkept a' Ha') as (_ & Hnew & _). congruence.
Qed.

Lemma next_run_drops_returned_witness :
  fileHoldsRecent (0 - Constants.CACHE_CONFIG_retentionDays * 86400000)
    (DeduplicationService.cacheService
       (serviceAfter (Main.dedupe CacheService.NoFile 0
                        [[samplePost "First"]])))
    (Article.getHash (samplePost "First")) /\
  Forall (fun a' => Article.getHash a' <> Article.getHash (samplePost "First"))
    (default []
       (returned
          (DeduplicationService.filterNew
             (freshService
                (CacheService.disk
                   (DeduplicationService.cacheService
                      (serviceAfter (Main.dedupe CacheService.NoFile 0
                                       [[samplePost "First"]]))))
                day)
             [samplePost "Again"]))).
Proof.
  pose proof (next_run_drops_returned CacheService.NoFile 0
                [[samplePost "First"]] [[samplePost "First"]]
                (serviceAfter (Main.dedupe CacheService.NoFile 0
                                 [[samplePost "First"]]))
                (samplePost "First")
                ltac:(repeat constructor)
                ltac:(vm_compute; reflexivity)
                ltac:(now left)
                eq_refl) as [Hfile Hnext].
  split; [exact Hfile|].
  apply (Hnext day [samplePost "Again"] []
           (serviceAfter
              (DeduplicationService.filterNew
                 (freshService
                    (CacheService.disk
                       (DeduplicationService.cacheService
                          (serviceAfter (Main.dedupe CacheService.NoFile 0
                                           [[samplePost "First"]]))))
                    day)
                 [samplePost "Again"]))).
  - repeat constructor.
  - vm_compute. reflexivity.
Defined.

(** ** Two edges of the cache *)

Section CacheEdges.

Lemma filterLoop_app (pre rest : list Article.t) :
  forall newArticles cs,
    DeduplicationService.filterLoop (pre ++ rest) newArticles cs
    = match DeduplicationService.filterLoop pre newArticles cs with
      | CacheService.Returns l cs' => DeduplicationService.filterLoop rest l cs'
      | CacheService.Throws e cs' => CacheService.Throws e cs'
      end.
Proof.
  induction pre as [|a pre IH]; intros acc cs; [reflexivity|].
  cbn [app DeduplicationService.filterLoop].
  destruct (CacheService.has cs (Article.getHash a)); [apply IH|].
  destruct (Article.publishedAt a) as [[ms|]|]; [|reflexivity|];
    destruct (CacheService.add cs _ _ _); auto.
Qed.

(** Nothing is counted as removed when no entry is older than the cutoff. *)
Lemma removedCount_zero (cutoff : Z)
    (partitions : gmap jsstring (gmap jsstring jsDate)) :
  (forall source entries hash timestamp,
     partitions !! source = Some entries ->
     entries !! hash = Some timestamp ->
     CacheService.olderThan cutoff timestamp = false) ->
  map_fold (fun _ (entries : gmap jsstring jsDate) count =>
              count + size (filter (fun e => CacheService.olderThan cutoff (snd e) = true)
                              entries))
    0 partitions = 0.
Proof.
  apply (map_fold_weak_ind
           (fun r (m : gmap jsstring (gmap jsstring jsDate)) =>
              (forall source entries hash timestamp,
                 m !! source = Some entries ->
                 entries !! hash = Some timestamp ->
                 CacheService.olderThan cutoff timestamp = false) -> r = 0)).
  - reflexivity.
  - intros source entries m r Hnone IH Hall.
    rewrite IH.
    + rewrite (map_empty_filter_2 _ entries); [now rewrite map_size_empty|].
      intros hash timestamp Hts. cbn [snd].
      rewrite (Hall source entries hash timestamp); [discriminate | | exact Hts].
      apply lookup_insert_eq.
    + intros src e h ts Hsrc Hts. apply (Hall src e h ts); [|exact Hts].
      rewrite lookup_insert_ne; [exact Hsrc|]. congruence.
Qed.

End CacheEdges.

(** X29.  One article with an invalid date makes [filterNew] throw: when the
    cache is loaded and the article's hash is neither in it nor carried by an
    article before it in the list, [filterNew] throws a [RangeError] instead
    of returning, and the articles before it are by then in the cache.  The
    hashes, and the sources of the articles before it, name no inherited
    property. *)
Theorem filterNew_invalid_date_throws (s : DeduplicationService.state)
    (pre : list Article.t) (bad : Article.t) (post : list Article.t) :
  DeduplicationService._loaded s = true ->
  ready (DeduplicationService.cacheService s) ->
  ownKeys pre ->
  inherited (Article.getHash bad) = false ->
  datesValid pre ->
  Article.publishedAt bad = Some InvalidDate ->
  CacheService.has (DeduplicationService.cacheService s) (Article.getHash bad)
  = false ->
  ~ In (Article.getHash bad) (map Article.getHash pre) ->
  exists s',
    DeduplicationService.filterNew s (pre ++ bad :: post)
    = DeduplicationService.Throws RangeError s' /\
    Forall (fun a => CacheService.has (DeduplicationService.cacheService s')
                       (Article.getHash a) = true) pre.
Proof.
  intros Hloaded Hready _ _ Hdates Hbad Hhas Hnotin.
  destruct (filterLoop_ready pre [] (DeduplicationService.cacheService s)
              Hready Hdates) as (cs' & Hloop & _ & Hhas').
  exists {| DeduplicationService._loaded := true;
            DeduplicationService.cacheService := cs' |}.
  split.
  - unfold DeduplicationService.filterNew, DeduplicationService.initialize.
    rewrite Hloaded, filterLoop_app, Hloop.
    cbn [DeduplicationService.filterLoop].
    assert (Hnew : CacheService.has cs' (Article.getHash bad) = false).
    { destruct (CacheService.has cs' (Article.getHash bad)) eqn:H;
        [|reflexivity].
      apply Hhas' in H as [H | H]; [congruence | contradiction]. }
    now rewrite Hnew, Hbad, Hloaded.
  - apply List.Forall_forall. intros a Ha.
    cbn [DeduplicationService.cacheService]. apply Hhas'. right.
    now apply in_map.
Qed.

Lemma filterNew_invalid_date_throws_witness :
  exists s',
    DeduplicationService.filterNew loadedEmpty
      ([urlLessPost "First"] ++ undatable :: [samplePost "Last"])
    = DeduplicationService.Throws RangeError s' /\
    Forall (fun a => CacheService.has (DeduplicationService.cacheService s')
                       (Article.getHash a) = true) [urlLessPost "First"].
Proof.
  apply filterNew_invalid_date_throws.
  - reflexivity.
  - eexists _, _. split; reflexivity.
  - repeat constructor.
  - reflexivity.
  - repeat constructor; discriminate.
  - reflexivity.
  - reflexivity.
  - vm_compute. intros [H | []]. discriminate H.
Defined.

(** X30.  [cleanup] does not touch the file when nothing is old: on a loaded
    cache in which no entry is older than the retention period it returns
    without writing, also when writing would fail. *)
Theorem cleanup_without_old_entries (s : CacheService.state)
    (c : CacheService.cache)
    (partitions : gmap jsstring (gmap jsstring jsDate)) :
  CacheService._cache s = Some c ->
  CacheService.articles c = Some partitions ->
  (forall source entries hash timestamp,
     partitions !! source = Some entries ->
     entries !! hash = Some timestamp ->
     CacheService.olderThan
       (CacheService.now s - Constants.CACHE_CONFIG_retentionDays * 86400000)
       timestamp = false) ->
  exists s',
    CacheService.cleanup s = CacheService.Returns tt s' /\
    CacheService.disk s' = CacheService.disk s.
Proof.
  intros Hc Hp Hall. unfold CacheService.cleanup. rewrite Hc, Hp.
  rewrite removedCount_zero by exact Hall.
  eexists. split; reflexivity.
Qed.

Lemma cleanup_without_old_entries_witness :
  exists s',
    CacheService.cleanup youngState = CacheService.Returns tt s' /\
    CacheService.disk s' = CacheService.disk youngState.
Proof.
  apply (cleanup_without_old_entries youngState agedCache agedPartitions);
    [reflexivity | reflexivity |].
  intros source entries hash timestamp Hsource Hentry.
  unfold agedPartitions in Hsource.
  apply lookup_insert_Some in Hsource as [[_ <-] | [_ Hsource]];
    [|rewrite lookup_empty in Hsource; discriminate].
  apply lookup_insert_Some in Hentry as [[_ <-] | [_ Hentry]]; [reflexivity|].
  apply lookup_insert_Some in Hentry as [[_ <-] | [_ Hentry]]; [reflexivity|].
  rewrite lookup_empty in Hentry. discriminate.
Defined.

(** ** The list operations of the fetchers *)

Section NormalizerFacts.

Lemma unseen_sublist (articles : list Article.t) :
  forall known, sublist (unseen known articles) articles.
Proof.
  induction articles as [|a rest IH]; intros known; cbn [unseen];
    [constructor|].
  destruct (known (Article.getHash a));
    [apply sublist_cons | apply sublist_skip]; apply IH.
Qed.

Lemma unseen_unknown (articles : list Article.t) :
  forall known a,
    In a (unseen known articles) -> known (Article.getHash a) = false.
Proof.
  induction articles as [|b rest IH]; intros known a Hin; cbn [unseen] in Hin;
    [destruct Hin|].
  destruct (known (Article.getHash b)) eqn:Hb; [now apply IH in Hin|].
  destruct Hin as [<- | Hin]; [exact Hb|].
  apply IH in Hin. now apply orb_false_elim in Hin.
Qed.

Lemma unseen_hashes_NoDup (articles : list Article.t) :
  forall known, List.NoDup (map Article.getHash (unseen known articles)).
Proof.
  induction articles as [|b rest IH]; intros known; cbn [unseen];
    [constructor|].
  destruct (known (Article.getHash b)); [apply IH|].
  cbn [map]. constructor; [|apply IH].
  intros Hin. apply in_map_iff in Hin as (a & Heq & Hin).
  apply unseen_unknown in Hin. apply orb_false_elim in Hin as [_ Hin].
  apply bool_decide_eq_false in Hin. congruence.
Qed.

Lemma unseen_covers (articles : list Article.t) :
  forall known a,
    In a articles ->
    known (Article.getHash a) = true
    \/ In (Article.getHash a) (map Article.getHash (unseen known articles)).
Proof.
  induction articles as [|b rest IH]; intros known a Hin; [destruct Hin|].
  cbn [unseen]. destruct (known (Article.getHash b)) eqn:Hb.
  - destruct Hin as [<- | Hin]; [now left | now apply IH].
  - cbn [map In]. destruct Hin as [<- | Hin]; [right; now left|].
    destruct (IH (fun h => known h || bool_decide (h = Article.getHash b)) a Hin)
      as [Hk | Hk]; [|right; now right].
    apply orb_true_iff in Hk as [Hk | Hk]; [now left|].
    apply bool_decide_eq_true in Hk. right. left. congruence.
Qed.

(** The loop of [deduplicateByHash] keeps what [unseen] keeps. *)
Lemma deduplicateLoop_unseen (articles : list Article.t) :
  forall seen unique,
    ArticleNormalizer.deduplicateLoop articles seen unique
    = unique ++ unseen (fun h => bool_decide (h ∈ seen)) articles.
Proof.
  induction articles as [|a rest IH]; intros seen unique;
    cbn [ArticleNormalizer.deduplicateLoop unseen]; [now rewrite app_nil_r|].
  destruct (bool_decide (Article.getHash a ∈ seen)); [apply IH|].
  rewrite IH, <- app_assoc. cbn [app]. do 2 f_equal.
  apply unseen_ext. intros b _.
  apply eq_true_iff_eq.
  rewrite orb_true_iff, !bool_decide_eq_true. set_solver.
Qed.

Lemma deduplicateByHash_firstOccurrences (articles : list Article.t) :
  ArticleNormalizer.deduplicateByHash articles = firstOccurrences articles.
Proof.
  unfold ArticleNormalizer.deduplicateByHash, firstOccurrences.
  rewrite deduplicateLoop_unseen. cbn [app].
  apply unseen_ext. intros a _. apply bool_decide_eq_false. set_solver.
Qed.

Lemma deduplicateByHash_sublist_facts (articles : list Article.t) :
  sublist (ArticleNormalizer.deduplicateByHash articles) articles /\
  List.NoDup (map Article.getHash (ArticleNormalizer.deduplicateByHash articles)).
Proof.
  rewrite deduplicateByHash_firstOccurrences. unfold firstOccurrences.
  split; [apply unseen_sublist | apply unseen_hashes_NoDup].
Qed.

End NormalizerFacts.

(** X20.  [deduplicateByHash] returns the first article of each hash, in the
    order of the list: the hashes of the result are pairwise distinct, and
    every hash of the list is the hash of an article of the result. *)
Theorem deduplicateByHash_unique (articles : list Article.t) :
  ArticleNormalizer.deduplicateByHash articles = firstOccurrences articles /\
  sublist (ArticleNormalizer.deduplicateByHash articles) articles /\
  List.NoDup (map Article.getHash (ArticleNormalizer.deduplicateByHash articles)) /\
  forall a, In a articles ->
    In (Article.getHash a)
      (map Article.getHash (ArticleNormalizer.deduplicateByHash articles)).
Proof.
  rewrite deduplicateByHash_firstOccurrences. unfold firstOccurrences.
  split; [reflexivity|]. split; [apply unseen_sublist|].
  split; [apply unseen_hashes_NoDup|].
  intros a Hin.
  destruct (unseen_covers articles (fun _ => false) a Hin) as [H | H];
    [discriminate | exact H].
Qed.

(** X21.  What a fetcher deduplicated passes [filterNew] whole when the cache
    has none of its hashes: on a loaded cache and for valid dates, nothing of
    the deduplicated list is dropped. *)
Theorem filterNew_after_deduplicateByHash (s : DeduplicationService.state)
    (articles : list Article.t) :
  DeduplicationService._loaded s = true ->
  ready (DeduplicationService.cacheService s) ->
  datesValid articles ->
  Forall (fun a => CacheService.has (DeduplicationService.cacheService s)
                     (Article.getHash a) = false) articles ->
  exists s',
    DeduplicationService.filterNew s
      (ArticleNormalizer.deduplicateByHash articles)
    = DeduplicationService.Returns
        (ArticleNormalizer.deduplicateByHash articles) s'.
Proof.
  intros Hloaded Hready Hdates Hfresh.
  destruct (deduplicateByHash_sublist_facts articles) as (Hsub & Hnd).
  assert (Hin : forall a, In a (ArticleNormalizer.deduplicateByHash articles) ->
                          In a articles).
  { intros a Ha. apply list_elem_of_In.
    eapply elem_of_sublist; [|exact Hsub]. now apply list_elem_of_In. }
  assert (Hdates' : datesValid (ArticleNormalizer.deduplicateByHash articles)).
  { apply List.Forall_forall. intros a Ha.
    exact (proj1 (List.Forall_forall _ _) Hdates a (Hin a Ha)). }
  destruct (filterLoop_ready (ArticleNormalizer.deduplicateByHash articles) []
              (DeduplicationService.cacheService s) Hready Hdates')
    as (cs' & Hloop & _).
  exists {| DeduplicationService._loaded := true;
            DeduplicationService.cacheService := cs' |}.
  unfold DeduplicationService.filterNew, DeduplicationService.initialize.
  rewrite Hloaded, Hloop, Hloaded. cbn [app]. f_equal.
  apply unseen_NoDup; [|exact Hnd].
  intros a Ha. exact (proj1 (List.Forall_forall _ _) Hfresh a (Hin a Ha)).
Qed.

Lemma filterNew_after_deduplicateByHash_witness :
  exists s',
    DeduplicationService.filterNew loadedEmpty
      (ArticleNormalizer.deduplicateByHash
         [samplePost "First"; samplePost "Second"])
    = DeduplicationService.Returns
        (ArticleNormalizer.deduplicateByHash
           [samplePost "First"; samplePost "Second"]) s'.
Proof.
  apply filterNew_after_deduplicateByHash.
  - reflexivity.
  - eexists _, _. split; reflexivity.
  - repeat constructor; discriminate.
  - repeat constructor.
Defined.

(** X22.  [limit] returns the first articles of the list: at most
    [maxArticles] of them when that bound is not negative. *)
Theorem limit_prefix (articles : list Article.t) (maxArticles : Z) :
  (0 <= maxArticles)%Z ->
  ArticleNormalizer.limit articles maxArticles
  = firstn (Z.to_nat maxArticles) articles /\
  (Z.of_nat (length (ArticleNormalizer.limit articles maxArticles))
   <= maxArticles)%Z.
Proof.
  intros Hmax. unfold ArticleNormalizer.limit.
  destruct (Z.leb_spec (Z.of_nat (length articles)) maxArticles) as [Hle | Hgt].
  - split; [|exact Hle]. symmetry. apply firstn_all2. lia.
  - unfold clampIndex. destruct (Z.ltb_spec maxArticles 0) as [Hneg | _]; [lia|].
    rewrite Z.min_l by lia. split; [reflexivity|].
    rewrite length_firstn. lia.
Qed.

Lemma limit_prefix_witness :
  ArticleNormalizer.limit [samplePost "First"; samplePost "Second"] 1
  = firstn (Z.to_nat 1) [samplePost "First"; samplePost "Second"] /\
  (Z.of_nat (length (ArticleNormalizer.limit
                       [samplePost "First"; samplePost "Second"] 1)) <= 1)%Z.
Proof. apply limit_prefix. lia. Defined.

(** X23.  [filterByDateRange] keeps the order of the list, keeps every article
    that has no publication date, whatever its age, and drops every article
    whose date is invalid or older than [hours] hours. *)
Theorem filterByDateRange_kept (articles : list Article.t) (now hours : Z) :
  sublist (ArticleNormalizer.filterByDateRange articles now hours) articles /\
  (forall a, In a articles -> Article.publishedAt a = None ->
     In a (ArticleNormalizer.filterByDateRange articles now hours)) /\
  (forall a, In a (ArticleNormalizer.filterByDateRange articles now hours) ->
     Article.publishedAt a = None
     \/ exists ms, Article.publishedAt a = Some (ValidDate ms) /\
                   (now - hours * 3600000 <= ms)%Z).
Proof.
  unfold ArticleNormalizer.filterByDateRange. split; [|split].
  - induction articles as [|a rest IH]; cbn [List.filter]; [constructor|].
    destruct (Article.isWithinLastHours a now hours);
      [now apply sublist_skip | now apply sublist_cons].
  - intros a Hin Hnone. apply List.filter_In. split; [exact Hin|].
    unfold Article.isWithinLastHours. now rewrite Hnone.
  - intros a Hin. apply List.filter_In in Hin as [_ Hin].
    unfold Article.isWithinLastHours in Hin.
    destruct (Article.publishedAt a) as [[ms|]|]; [|discriminate|now left].
    right. exists ms. split; [reflexivity|]. apply Z.leb_le in Hin. lia.
Qed.

(** ** The article model *)

Section ArticleFacts.

Lemma trimStart_head (s : jsstring) (c : N) (r : jsstring) :
  trimStart s = c :: r -> isWhiteSpace c = false.
Proof.
  induction s as [|d s IH]; cbn [trimStart]; [discriminate|].
  destruct (isWhiteSpace d) eqn:Hd; [exact IH|].
  intros H. injection H as <- _. exact Hd.
Qed.

Lemma trimStart_snoc_kept (s : jsstring) (c : N) :
  isWhiteSpace c = false -> trimStart (s ++ [c]) = trimStart s ++ [c].
Proof.
  intros Hc. induction s as [|d s IH]; cbn [app trimStart].
  - now rewrite Hc.
  - destruct (isWhiteSpace d); [exact IH | reflexivity].
Qed.

(** What [trim] returns is empty, or starts and ends with code units that
    are not white space. *)
Lemma trim_shape (s : jsstring) :
  trim s = [] \/
  exists c X Y d,
    trim s = c :: X /\ isWhiteSpace c = false /\
    trim s = Y ++ [d] /\ isWhiteSpace d = false.
Proof.
  unfold trim, trimEnd.
  destruct (trimStart s) as [|c v] eqn:Hv; [now left|]. right.
  pose proof (trimStart_head s c v Hv) as Hc.
  cbn [rev]. rewrite trimStart_snoc_kept by exact Hc.
  rewrite rev_app_distr. cbn [rev app].
  exists c, (rev (trimStart (rev v))).
  destruct (trimStart (rev v)) as [|d w] eqn:Hw.
  - exists [], c. cbn [rev app]. split; [reflexivity|].
    split; [exact Hc|]. split; [reflexivity | exact Hc].
  - exists (c :: rev w), d. cbn [rev].
    split; [reflexivity|]. split; [exact Hc|].
    split; [reflexivity | exact (trimStart_head _ _ _ Hw)].
Qed.

Lemma trim_kept (c d : N) (X Y : jsstring) :
  c :: X = Y ++ [d] ->
  isWhiteSpace c = false -> isWhiteSpace d = false ->
  trim (c :: X) = c :: X.
Proof.
  intros Heq Hc Hd. unfold trim, trimEnd. cbn [trimStart]. rewrite Hc.
  rewrite Heq, rev_app_distr. cbn [rev app trimStart]. rewrite Hd.
  cbn [rev]. now rewrite rev_involutive.
Qed.

Lemma collapse_idempotent (text : jsstring) :
  forall inRun,
    Article.collapseWhiteSpace (Article.collapseWhiteSpace text inRun) inRun
    = Article.collapseWhiteSpace text inRun.
Proof.
  induction text as [|c text IH]; intros inRun; [reflexivity|].
  cbn [Article.collapseWhiteSpace].
  destruct (isWhiteSpace c) eqn:Hc.
  - destruct inRun; [apply IH|].
    cbn [Article.collapseWhiteSpace].
    change (isWhiteSpace SP) with true. cbv iota. now rewrite IH.
  - cbn [Article.collapseWhiteSpace]. rewrite Hc. now rewrite IH.
Qed.

Lemma collapse_snoc (text : jsstring) (d : N) :
  isWhiteSpace d = false ->
  forall inRun,
    Article.collapseWhiteSpace (text ++ [d]) inRun
    = Article.collapseWhiteSpace text inRun ++ [d].
Proof.
  intros Hd. induction text as [|c text IH]; intros inRun;
    cbn [app Article.collapseWhiteSpace].
  - now rewrite Hd.
  - destruct (isWhiteSpace c); [destruct inRun|]; now rewrite IH.
Qed.

Lemma collapse_only_spaces (text : jsstring) :
  forall inRun c,
    In c (Article.collapseWhiteSpace text inRun) ->
    isWhiteSpace c = true -> c = SP.
Proof.
  induction text as [|d text IH]; intros inRun c Hin Hc;
    cbn [Article.collapseWhiteSpace] in Hin; [destruct Hin|].
  destruct (isWhiteSpace d) eqn:Hd.
  - destruct inRun; [now apply IH in Hin|].
    destruct Hin as [<- | Hin]; [reflexivity | now apply IH in Hin].
  - destruct Hin as [<- | Hin]; [congruence | now apply IH in Hin].
Qed.

Lemma collapse_head_inRun (text : jsstring) (c : N) (r : jsstring) :
  Article.collapseWhiteSpace text true = c :: r -> isWhiteSpace c = false.
Proof.
  induction text as [|d text IH]; cbn [Article.collapseWhiteSpace];
    [discriminate|].
  destruct (isWhiteSpace d) eqn:Hd; [exact IH|].
  intros H. injection H as <- _. exact Hd.
Qed.

Lemma collapse_no_run (text : jsstring) :
  forall inRun l x y r,
    Article.collapseWhiteSpace text inRun = l ++ x :: y :: r ->
    isWhiteSpace x = true -> isWhiteSpace y = false.
Proof.
  induction text as [|d text IH]; intros inRun l x y r Heq Hx;
    cbn [Article.collapseWhiteSpace] in Heq.
  - now destruct l.
  - destruct (isWhiteSpace d) eqn:Hd.
    + destruct inRun; [now apply IH in Heq|].
      destruct l as [|l0 l]; cbn [app] in Heq.
      * injection Heq as _ Heq. now apply collapse_head_inRun in Heq.
      * injection Heq as _ Heq. now apply IH in Heq.
    + destruct l as [|l0 l]; cbn [app] in Heq.
      * injection Heq as <- _. congruence.
      * injection Heq as _ Heq. now apply IH in Heq.
Qed.

Lemma startsWith_app (pat s : jsstring) : startsWith (pat ++ s) pat = true.
Proof.
  induction pat as [|p pat IH]; [now destruct s|].
  cbn [app startsWith]. now rewrite N.eqb_refl, IH.
Qed.

Lemma length_truncate (text : jsstring) (maxLength : nat) :
  3 <= maxLength -> length (Article._truncate text maxLength) <= maxLength.
Proof.
  intros Hmax. unfold Article._truncate.
  destruct text as [|c text]; [cbn; lia|].
  destruct (Nat.leb_spec (length (c :: text)) maxLength) as [Hle | Hgt];
    [exact Hle|].
  rewrite slice_prefix by lia.
  rewrite length_app, length_firstn. change (length (lit "...")) with 3. lia.
Qed.

End ArticleFacts.

(** X24.  [_sanitize] returns a text in normal form: it has no white space at
    either end, its only white space is the space, never two in a row, and
    sanitizing it again changes nothing. *)
Theorem sanitize_normal_form (text : option jsstring) :
  trim (Article._sanitize text) = Article._sanitize text /\
  (forall c, In c (Article._sanitize text) -> isWhiteSpace c = true -> c = SP) /\
  (forall l x y r, Article._sanitize text = l ++ x :: y :: r ->
     isWhiteSpace x = true -> isWhiteSpace y = false) /\
  Article._sanitize (Some (Article._sanitize text)) = Article._sanitize text.
Proof.
  assert (Hempty : trim [] = [] /\
            (forall c : N, In c [] -> isWhiteSpace c = true -> c = SP) /\
            (forall (l : jsstring) x y r, [] = l ++ x :: y :: r ->
               isWhiteSpace x = true -> isWhiteSpace y = false) /\
            Article._sanitize (Some []) = []).
  { split; [reflexivity|]. split; [intros c []|].
    split; [|reflexivity]. intros l x y r H. now destruct l. }
  destruct text as [[|c0 t]|]; [exact Hempty | | exact Hempty].
  cbn [Article._sanitize].
  set (clean := Article.collapseWhiteSpace (trim (c0 :: t)) false).
  assert (Htrim : trim clean = clean).
  { unfold clean.
    destruct (trim_shape (c0 :: t)) as [-> | (c & X & Y & d & HX & Hc & HY & Hd)];
      [reflexivity|].
    rewrite HX. cbn [Article.collapseWhiteSpace]. rewrite Hc.
    apply (trim_kept c d _ (Article.collapseWhiteSpace Y false));
      [|exact Hc | exact Hd].
    rewrite <- collapse_snoc by exact Hd. rewrite <- HY, HX.
    cbn [Article.collapseWhiteSpace]. now rewrite Hc. }
  split; [exact Htrim|].
  split; [apply collapse_only_spaces|].
  split; [apply collapse_no_run|].
  destruct clean as [|c1 clean'] eqn:Hclean; [reflexivity|].
  rewrite Htrim, <- Hclean. unfold clean. apply collapse_idempotent.
Qed.

(** X25.  For a bound of at least three, [_truncate] returns at most
    [maxLength] code units: the text itself when it is that short, and
    otherwise its first [maxLength - 3] code units followed by three dots. *)
Theorem truncate_bound (text : jsstring) (maxLength : nat) :
  3 <= maxLength ->
  length (Article._truncate text maxLength) <= maxLength /\
  (length text <= maxLength -> Article._truncate text maxLength = text) /\
  (maxLength < length text ->
   Article._truncate text maxLength
   = firstn (maxLength - 3) text ++ lit "...").
Proof.
  intros Hmax. split; [now apply length_truncate|].
  unfold Article._truncate.
  destruct text as [|c text]; [split; [reflexivity | cbn; lia]|].
  destruct (Nat.leb_spec (length (c :: text)) maxLength) as [Hle | Hgt].
  - split; [reflexivity | lia].
  - rewrite slice_prefix by lia.
    replace (Z.to_nat (Z.of_nat maxLength - 3)) with (maxLength - 3) by lia.
    split; [lia | reflexivity].
Qed.

Lemma truncate_bound_witness :
  length (Article._truncate (lit "abcdefgh") 5) <= 5 /\
  (length (lit "abcdefgh") <= 5 ->
   Article._truncate (lit "abcdefgh") 5 = lit "abcdefgh") /\
  (5 < length (lit "abcdefgh") ->
   Article._truncate (lit "abcdefgh") 5
   = firstn (5 - 3) (lit "abcdefgh") ++ lit "...").
Proof. apply truncate_bound. lia. Defined.

(** X26.  An entry of a message starts with the number 1 and holds the display
    title cut to 100 code units: without AI summary it has at most 109 code
    units besides its address, and the summary line adds its own length and
    four. *)
Theorem toDiscordFormat_length (self : Article.t) :
  startsWith (Article.toDiscordFormat self) (lit "1. ") = true /\
  length (Article.toDiscordFormat self)
  <= 109 + length (Article.url self)
     + match Article.aiSummary self with
       | None | Some [] => 0
       | Some aiSummary => 4 + length aiSummary
       end.
Proof.
  unfold Article.toDiscordFormat.
  pose proof (length_truncate (Article.getDisplayTitle self) 100
                ltac:(lia)) as Htitle.
  set (title := Article._truncate (Article.getDisplayTitle self) 100) in *.
  split.
  - destruct (Article.aiSummary self) as [[|c s]|]; cbn [app JS.join];
      rewrite <- app_assoc; apply startsWith_app.
  - assert (Hlit : length (lit "1. ") = 3 /\ length (lit " <") = 2 /\
                   length (lit ">") = 1 /\ length (lit " ") = 1 /\
                   length Article.linkSymbol = 2 /\
                   length Article.speechBalloon = 2 /\
                   length [LF] = 1) by (repeat split; reflexivity).
    destruct Hlit as (H1 & H2 & H3 & H4 & H5 & H6 & H7).
    destruct (Article.aiSummary self) as [[|c s]|];
      cbn [app JS.join]; rewrite !length_app;
      cbn [length]; rewrite ?length_app; cbn [length];
      rewrite ?length_app, ?H1, ?H2, ?H3, ?H4, ?H5, ?H6, ?H7; cbn [length];
      lia.
Qed.
